(** * indexer-sdk-go: the core of the EVM log indexer, embedded in Rocq

    The development follows the Go packages of the repository:
    [utils] (hex quantities, topic canonicalisation), [errors] (error
    classification), [rpc] (retry with backoff) and [processor] (fetch
    planner, arbiter, reorg resolver, window-hash store).

    Conventions.  A Go [uint64] is a [Z] in [0, 2^64) and every arithmetic
    operation of the source is followed by [wrap].  A Go [string] is a
    sequence of bytes, here a [string] of 8-bit characters.  A Go
    [map[uint64]string] is a [gmap Z string].  A function that can fail
    returns its Go pair (value, error) or a sum; a loop that may not
    terminate takes fuel and says so in its result. *)

From Stdlib Require Import ZArith Lia List Ascii String Bool Sorted.
From stdpp Require Import base option list gmap strings.

Local Open Scope Z_scope.

(* ================================================================== *)
(** * Machine integers *)

Module uint64.

Definition modulus : Z := 2 ^ 64.
Definition max : Z := modulus - 1.

(** Reduction of an unbounded result to 64 bits. *)
Definition wrap (z : Z) : Z := z mod modulus.

Definition add (a b : Z) : Z := wrap (a + b).
Definition sub (a b : Z) : Z := wrap (a - b).
Definition mul (a b : Z) : Z := wrap (a * b).

(** The values a [uint64] variable can hold. *)
Definition valid (z : Z) : Prop := 0 <= z < modulus.

End uint64.

(* ================================================================== *)
(** * Package strconv (Go standard library), the part [utils] calls *)

Module strconv.

Inductive NumError : Type :=
| ErrSyntax
| ErrRange.

Definition byte_val (c : ascii) : Z := Z.of_N (N_of_ascii c).

(** [const digits = "0123456789abcdefghijklmnopqrstuvwxyz"] *)
Definition digits : string := "0123456789abcdefghijklmnopqrstuvwxyz".

Definition digit (d : Z) : ascii :=
  match String.get (Z.to_nat d) digits with
  | Some c => c
  | None => "0"%char
  end.

(** [formatBits] for a base that is a power of two: the digits are
    written from the least significant one, right to left, into a
    65-byte buffer; [acc] is the part of the buffer already written. *)
Fixpoint formatBits_pow2 (room : nat) (shift : Z) (u : Z) (acc : string)
  : string :=
  let b := Z.shiftl 1 shift in
  match room with
  | O => String (digit u) acc
  | S room' =>
      if b <=? u
      then formatBits_pow2 room' shift (Z.shiftr u shift)
             (String (digit (Z.land u (b - 1))) acc)
      else String (digit u) acc
  end.

(** [FormatUint(i, 16)] *)
Definition FormatUint16 (i : Z) : string :=
  formatBits_pow2 64 4 i "".

(** [lower(c) = c | ('x' - 'X')] *)
Definition lower (c : Z) : Z := Z.lor c 32.

Definition digit_val (c : ascii) : option Z :=
  let c := byte_val c in
  if (48 <=? c) && (c <=? 57) then Some (c - 48)
  else if (97 <=? lower c) && (lower c <=? 122) then Some (lower c - 97 + 10)
  else None.

(** The digit loop of [ParseUint] for an explicit base in [2, 36]
    ([base0] is false, so an underscore is a syntax error). *)
Fixpoint parse_loop (base cutoff maxVal : Z) (s : string) (n : Z)
  : Z * option NumError :=
  match s with
  | EmptyString => (n, None)
  | String c s' =>
      match digit_val c with
      | None => (0, Some ErrSyntax)
      | Some d =>
          if base <=? d then (0, Some ErrSyntax)
          else if cutoff <=? n then (maxVal, Some ErrRange)
          else
            let n' := uint64.mul n base in
            let n1 := uint64.add n' d in
            if (n1 <? n') || (maxVal <? n1) then (maxVal, Some ErrRange)
            else parse_loop base cutoff maxVal s' n1
      end
  end.

(** [ParseUint(s, base, 64)] for [base] 10 or 16. *)
Definition ParseUint (s : string) (base : Z) : Z * option NumError :=
  match s with
  | EmptyString => (0, Some ErrSyntax)
  | _ =>
      let cutoff := uint64.max / base + 1 in
      let maxVal := uint64.sub (Z.shiftl 1 64) 1 in
      parse_loop base cutoff maxVal s 0
  end.

End strconv.

(* ================================================================== *)
(** * Package utils: hex quantities *)

Module utils.

(** [func Uint64ToHexQty(n uint64) string] *)
Definition Uint64ToHexQty (n : Z) : string :=
  if n =? 0 then "0x0"
  else ("0x" +:+ strconv.FormatUint16 n)%string.

(** [s[0:2]] and [s[2:]] for a string of length at least two. *)
Definition slice_0_2 (s : string) : string := String.substring 0 2 s.
Definition slice_2 (s : string) : string :=
  String.substring 2 (String.length s - 2) s.

(** [func HexQtyToUint64(s string) (uint64, error)] *)
Definition HexQtyToUint64 (s : string) : Z * option strconv.NumError :=
  if (2 <=? String.length s)%nat
     && (String.eqb (slice_0_2 s) "0x" || String.eqb (slice_0_2 s) "0X")
  then strconv.ParseUint (slice_2 s) 16
  else strconv.ParseUint s 10.

End utils.

(* ================================================================== *)
(** * Package utils: topic canonicalisation *)

Module topics.

(** [strings.ReplaceAll(signature, " ", "")] *)
Fixpoint remove_spaces (s : string) : string :=
  match s with
  | EmptyString => EmptyString
  | String c s' =>
      if Ascii.eqb c " " then remove_spaces s' else String c (remove_spaces s')
  end.

(** [const hextable = "0123456789abcdef"] of encoding/hex. *)
Definition hextable : string := "0123456789abcdef".

Definition hexchar (v : Z) : ascii :=
  match String.get (Z.to_nat v) hextable with
  | Some c => c
  | None => "0"%char
  end.

(** [hex.EncodeToString]: two lower-case digits per byte. *)
Fixpoint EncodeToString (src : list Byte.byte) : string :=
  match src with
  | [] => EmptyString
  | b :: src' =>
      let v := Z.of_N (Byte.to_N b) in
      String (hexchar (Z.shiftr v 4))
        (String (hexchar (Z.land v 15)) (EncodeToString src'))
  end.

Section WithKeccak.

(** The Keccak-256 of golang.org/x/crypto/sha3 ([NewLegacyKeccak256],
    [Write], [Sum(nil)]) is a dependency of the repository: the
    canonicaliser is written over any function of its type. *)
Variable Keccak256 : list Byte.byte -> list Byte.byte.

(** [func FunctionSignatureToTopic(signature string) string] *)
Definition FunctionSignatureToTopic (signature : string) : string :=
  let cleanSig := remove_spaces signature in
  let hash := Keccak256 (list_byte_of_string cleanSig) in
  ("0x" +:+ EncodeToString hash)%string.

Definition convert (signature : string) : string :=
  if (String.length signature =? 66)%nat && String.prefix "0x" signature
  then signature
  else if (String.length signature =? 64)%nat
          && negb (String.prefix "0x" signature)
  then ("0x" +:+ signature)%string
  else FunctionSignatureToTopic signature.

(** [func ConvertToTopics(signatures []string) []string]: the result
    slice is made with the length of the input and filled at every
    index [i] from [signatures[i]]. *)
Definition ConvertToTopics (signatures : list string) : list string :=
  List.map convert signatures.

End WithKeccak.

End topics.

(* ================================================================== *)
(** * Package errors *)

Module errors.

(** Go error values.  [HTTPError] and [RPCError] are the two types of
    the package; [ErrorString] is any other error without [Unwrap];
    [Errorf] is the value of [fmt.Errorf] with one [%w] operand, kept
    with its format string and integer operands.  A nil [error] is
    [None] of [option error]. *)
#[warnings="-register-all"]
Inductive error : Type :=
| HTTPError (StatusCode : Z) (Message : string)
| RPCError (Code : Z) (Message : string)
| ErrorString (s : string)
| Errorf (format : string) (args : list Z) (wrapped : option error).

(** [errors.As(err, &httpErr)]: the first [*HTTPError] on the [Unwrap]
    chain. *)
Fixpoint AsHTTPError (err : error) : option (Z * string) :=
  match err with
  | HTTPError code msg => Some (code, msg)
  | Errorf _ _ (Some inner) => AsHTTPError inner
  | _ => None
  end.

Fixpoint AsRPCError (err : error) : option (Z * string) :=
  match err with
  | RPCError code msg => Some (code, msg)
  | Errorf _ _ (Some inner) => AsRPCError inner
  | _ => None
  end.

Definition case_of (x : Z) (labels : list Z) : bool :=
  existsb (Z.eqb x) labels.

(** [func IsRetryableError(err error) bool] *)
Definition IsRetryableError (err : option error) : bool :=
  match err with
  | None => false
  | Some e =>
      match AsHTTPError e with
      | Some (StatusCode, _) =>
          if case_of StatusCode [429; 502; 503; 504] then true
          else if case_of StatusCode [500; 501; 505; 506; 507; 508; 510; 511]
          then true
          else false
      | None =>
          match AsRPCError e with
          | Some (Code, _) =>
              if (-32099 <=? Code) && (Code <=? -32000) then true else false
          | None => false
          end
      end
  end.

End errors.

(* ================================================================== *)
(** * Package rpc: retry with backoff *)

Module rpc.

Import errors.

Record RetryConfig : Type := {
  MaxAttempts : Z;          (* int *)
  InitialBackoff : Z;       (* time.Duration, nanoseconds *)
  MaxBackoff : Z;
  EnableJitter : bool
}.

(** What [RetryWithBackoff] meets while it runs.  The operation [fn] is
    a closure: its [k]-th invocation (from 0) returns [fn k].  The
    [Multiplier] of the configuration is a [float64]; its only use,
    [time.Duration(float64(backoff) * config.Multiplier)], is the
    function [scale].  [rand63 k] is the random number drawn in attempt
    [k]; [ctxDone k] says that [ctx.Done()] is the case [select] takes
    while attempt [k] waits. *)
Record World : Type := {
  fn : Z -> option error;
  scale : Z -> Z;
  rand63 : Z -> Z;
  ctxDone : Z -> bool;
  ctxErr : error
}.

Inductive event : Type :=
| Call (attempt : Z)
| Sleep (attempt : Z) (wait : Z).

Inductive outcome : Type :=
| Return (err : option error)
| Panic
| OutOfFuel.

(** [rand.Int63n(n)] panics for [n <= 0]. *)
Definition Int63n (r n : Z) : option Z :=
  if n <=? 0 then None else Some (r mod n).

Section Retry.

Variable config : RetryConfig.
Variable w : World.

Definition exceeded (lastErr : option error) : outcome :=
  Return (Some (Errorf "max retry attempts (%d) exceeded: %w"
                  [MaxAttempts config] lastErr)).

(** The [for attempt := 0; attempt < config.MaxAttempts; attempt++]
    loop; the events are given in the order they happen. *)
Fixpoint retry_loop (fuel : nat) (attempt backoff : Z)
         (lastErr : option error) : outcome * list event :=
  if attempt <? MaxAttempts config then
    match fuel with
    | O => (OutOfFuel, [])
    | S fuel' =>
        let lastErr := fn w attempt in
        let called (r : outcome * list event) := (r.1, Call attempt :: r.2) in
        match lastErr with
        | None => called (Return None, [])
        | Some e =>
            if negb (IsRetryableError lastErr)
            then called (Return (Some (Errorf "non-retryable error: %w" []
                                          lastErr)), [])
            else if attempt =? MaxAttempts config - 1
            then called (exceeded lastErr, [])
            else
              let jitter :=
                if EnableJitter config
                then Int63n (rand63 w attempt) (Z.quot backoff 4)
                else Some 0 in
              match jitter with
              | None => called (Panic, [])
              | Some j =>
                  let wait := backoff + j in
                  let slept (r : outcome * list event) :=
                    called (r.1, Sleep attempt wait :: r.2) in
                  if ctxDone w attempt
                  then slept (Return (Some (Errorf "retry cancelled: %w" []
                                              (Some (ctxErr w)))), [])
                  else
                    let backoff := scale w backoff in
                    let backoff :=
                      if MaxBackoff config <? backoff
                      then MaxBackoff config else backoff in
                    slept (retry_loop fuel' (attempt + 1) backoff lastErr)
              end
        end
    end
  else (exceeded lastErr, []).

(** [func RetryWithBackoff(ctx, config, fn) error] *)
Definition RetryWithBackoff : outcome * list event :=
  retry_loop (Z.to_nat (MaxAttempts config)) 0 (InitialBackoff config) None.

End Retry.

(** The attempts whose invocation of the operation appears in a trace. *)
Definition calls (tr : list event) : list Z :=
  omap (fun ev => match ev with Call k => Some k | Sleep _ _ => None end) tr.

End rpc.

(* ================================================================== *)
(** * Package types and the RPC interface *)

Module types.

(** An element of [Topics []any]: a string, or a value of another
    dynamic type. *)
Inductive any : Type :=
| AnyString (s : string)
| AnyOther.

Record Block : Type := {
  Number : string;
  Hash : string;
  ParentHash : string;
  Timestamp : string
}.

Record Log : Type := {
  Address : string;
  Topics : list any;
  Data : string;
  BlockNumber : string;
  TransactionHash : string;
  LogIndex : string
}.

Record Receipt : Type := {
  ReceiptBlockNumber : string;
  ReceiptTransactionHash : string;
  Logs : list Log
}.

End types.

(** The interface of rpc.go; the module is kept apart from [rpc] so that
    the retry executor does not depend on the payload types. *)
Module rpcapi.

(** A Go result pair [(value, error)] with exactly one side meaningful. *)
Inductive result (A : Type) : Type :=
| Ok (a : A)
| Err (e : errors.error).
Arguments Ok {A} a.
Arguments Err {A} e.

(** [type RPC interface]: the endpoint as the processor sees it during
    one call of the function under study, each method a function of its
    request. *)
Record RPC : Type := {
  Head : result string;
  GetBlock : string -> result types.Block;
  GetBlockReceipts : string -> result (list types.Receipt)
}.

End rpcapi.

(* ================================================================== *)
(** * Package processor *)

Module processor.

Import types rpcapi.

Record Options : Type := {
  RangeSize : Z;              (* int *)
  FetcherConcurrency : Z;     (* int *)
  StartBlock : Z;             (* uint64 *)
  Confimation : Z;            (* uint64 *)
  ReorgLookbackBlocks : Z;    (* uint64 *)
  OptTopics : list string     (* Options.Topics *)
}.

Record chainState : Type := {
  chainRPC : RPC;                       (* chainInfo.RPC *)
  cursor : Z;
  windowOrder : list Z;
  storedWindowHash : gmap Z string;
  storedWindowHashCap : Z;
  hardFallbackBlocks : Z;
  topics : list string;
  opts : Options
}.

Definition set_cursor (c : Z) (chain : chainState) : chainState :=
  {| chainRPC := chainRPC chain; cursor := c;
     windowOrder := windowOrder chain;
     storedWindowHash := storedWindowHash chain;
     storedWindowHashCap := storedWindowHashCap chain;
     hardFallbackBlocks := hardFallbackBlocks chain;
     topics := topics chain; opts := opts chain |}.

Definition set_window (order : list Z) (hashes : gmap Z string)
           (chain : chainState) : chainState :=
  {| chainRPC := chainRPC chain; cursor := cursor chain;
     windowOrder := order;
     storedWindowHash := hashes;
     storedWindowHashCap := storedWindowHashCap chain;
     hardFallbackBlocks := hardFallbackBlocks chain;
     topics := topics chain; opts := opts chain |}.

(** ** AddChain: the capacity of the window-hash store *)

(** Lines 71-75 of [AddChain].  The division panics for [rs = 0]. *)
Definition windowCap (o : Options) : option Z :=
  let rs := uint64.wrap (RangeSize o) in
  if rs =? 0 then None
  else
    let base := uint64.sub (uint64.add (ReorgLookbackBlocks o) rs) 1 / rs in
    let cap := uint64.add base 1 in
    let cap := if cap <? 8 then 8 else cap in
    let cap := if 256 <? cap then 256 else cap in
    Some cap.

Inductive added : Type :=
| AddError (e : errors.error)
| AddPanic
| Added (chain : chainState).

Section AddChain.

Variable Keccak256 : list Byte.byte -> list Byte.byte.

(** [func (p *Processor) AddChain(chain ChainInfo, opts *Options) error],
    as far as the new [chainState] goes. *)
Definition AddChain (isRunning : bool) (r : RPC) (o : Options) : added :=
  if isRunning
  then AddError (errors.ErrorString "cannot add chain while processor is running")
  else
    let cursor := StartBlock o in
    let cursor := if cursor =? 0 then 0 else cursor in
    match windowCap o with
    | None => AddPanic
    | Some cap =>
        Added {| chainRPC := r; cursor := cursor;
                 windowOrder := [];
                 storedWindowHash := ∅;
                 storedWindowHashCap := cap;
                 hardFallbackBlocks := 1000;
                 topics := topics.ConvertToTopics Keccak256 (OptTopics o);
                 opts := o |}
    end.

End AddChain.

(** ** The fetch planner *)

Record blockRange : Type := { from : Z; to : Z }.

(** The planner goroutine of [runChain]: the ranges it sends on [jobs].
    [done k] says that [rpcCtx.Done()] is the case taken by the [select]
    at the [k]-th range; the goroutine then returns.  The loop need not
    terminate, hence the fuel: [None] is a loop still running. *)
Fixpoint plan_loop (done : nat -> bool) (fuel : nat) (k : nat)
         (from target rs : Z) : option (list blockRange) :=
  if from <=? target then
    match fuel with
    | O => None
    | S fuel' =>
        let to := uint64.sub (uint64.add from rs) 1 in
        let to := if target <? to then target else to in
        if done k then Some []
        else
          match plan_loop done fuel' (S k) (uint64.add from rs) target rs with
          | Some jobs => Some ({| from := from; to := to |} :: jobs)
          | None => None
          end
    end
  else Some [].

Definition planner (done : nat -> bool) (fuel : nat) (chain : chainState)
           (target : Z) : option (list blockRange) :=
  let rs := uint64.wrap (RangeSize (opts chain)) in
  plan_loop done fuel 0 (uint64.add (cursor chain) 1) target rs.

Definition never : nat -> bool := fun _ => false.

(** ** The window-hash store *)

(** [func (p *Processor) storeWindowHash(to, blockHash, chain)];
    [None] is the index-out-of-range panic of [chain.windowOrder[0]]. *)
Definition storeWindowHash (to : Z) (blockHash : string) (chain : chainState)
  : option chainState :=
  match storedWindowHash chain !! to with
  | Some _ =>
      Some (set_window (windowOrder chain)
              (<[to := blockHash]> (storedWindowHash chain)) chain)
  | None =>
      let l := length (windowOrder chain) in
      if storedWindowHashCap chain <=? Z.of_nat l then
        match windowOrder chain with
        | [] => None
        | old :: rest =>
            Some (set_window (rest ++ [to])
                    (<[to := blockHash]> (delete old (storedWindowHash chain)))
                    chain)
        end
      else
        Some (set_window (windowOrder chain ++ [to])
                (<[to := blockHash]> (storedWindowHash chain)) chain)
  end.

(** The loop of [dropWindowHash]: [n] is [i + 1]; the result is the final
    [i + 1] and the map after the deletions. *)
Fixpoint drop_loop (n : nat) (order : list Z) (hashes : gmap Z string)
         (after : Z) : nat * gmap Z string :=
  match n with
  | O => (O, hashes)
  | S i =>
      match order !! i with
      | Some k =>
          if after <? k then drop_loop i order (delete k hashes) after
          else (n, hashes)
      | None => (n, hashes)
      end
  end.

(** [func (p *Processor) dropWindowHash(after, chain)] *)
Definition dropWindowHash (after : Z) (chain : chainState) : chainState :=
  let '(n, hashes) :=
    drop_loop (length (windowOrder chain)) (windowOrder chain)
      (storedWindowHash chain) after in
  set_window (take n (windowOrder chain)) hashes chain.

(** ** The reorg resolver *)

(** [chain.storedWindowHash[k]] read as a value: the empty string for an
    absent key. *)
Definition hashAt (chain : chainState) (k : Z) : string :=
  default EmptyString (storedWindowHash chain !! k).

Definition fallbackOf (chain : chainState) : Z :=
  if hardFallbackBlocks chain <? cursor chain
  then uint64.sub (cursor chain) (hardFallbackBlocks chain)
  else 0.

Inductive search : Type :=
| Found (ancestor : Z)          (* return ancestor, after dropWindowHash *)
| Untrimmed (fallback : Z)      (* return fallback from inside the loop *)
| Exhausted                     (* the loop ended or was left by break *)
| Running.                      (* out of fuel *)

Section Reorg.

Variable ctxDone : Z -> bool.   (* [ctx.Done()] ready in iteration [i] *)
Variable chain : chainState.

Fixpoint reorg_loop (fuel : nat) (i ancestor : Z) : search :=
  if i <? storedWindowHashCap chain then
    match fuel with
    | O => Running
    | S fuel' =>
        let fallback := fallbackOf chain in
        match GetBlock (chainRPC chain)
                (utils.Uint64ToHexQty (uint64.add ancestor 1)) with
        | Err _ => Untrimmed fallback
        | Ok windowHeadBlock =>
            if String.eqb (ParentHash windowHeadBlock) (hashAt chain ancestor)
            then Found ancestor
            else if ancestor <? uint64.wrap (RangeSize (opts chain))
            then Exhausted
            else
              let ancestor :=
                uint64.sub ancestor (uint64.wrap (RangeSize (opts chain))) in
              if ctxDone i then Untrimmed fallback
              else reorg_loop fuel' (uint64.add i 1) ancestor
        end
    end
  else Exhausted.

(** [func (p *Processor) handleReorg(ctx, chain) uint64]: the value
    returned and the chain state left behind. *)
Definition handleReorg (fuel : nat) : option (Z * chainState) :=
  match reorg_loop fuel 0 (cursor chain) with
  | Found ancestor => Some (ancestor, dropWindowHash ancestor chain)
  | Untrimmed fallback => Some (fallback, chain)
  | Exhausted =>
      let fallback := fallbackOf chain in
      let fallback := if fallback <=? 0 then 0 else fallback in
      Some (fallback, dropWindowHash fallback chain)
  | Running => None
  end.

End Reorg.

(** ** Receipts fetch mode *)

(** [func (p *Processor) matchesTopicFilter(log, chain) bool] *)
Definition matchesTopicFilter (log : Log) (chain : chainState) : bool :=
  if (length (OptTopics (opts chain)) =? 0)%nat then true
  else if (length (Topics log) =? 0)%nat then false
  else
    existsb
      (fun filterTopic =>
         match Topics log with
         | AnyString logTopic :: _ => String.eqb logTopic filterTopic
         | _ => false
         end)
      (topics chain).

(** The two inner [range] loops of [fetchLogsFromReceipts]. *)
Definition appendMatching (chain : chainState) (allLogs : list Log)
           (receipts : list Receipt) : list Log :=
  fold_left
    (fun acc receipt =>
       fold_left
         (fun acc log =>
            if matchesTopicFilter log chain then acc ++ [log] else acc)
         (Logs receipt) acc)
    receipts allLogs.

Inductive fetched : Type :=
| Fetched (logs : list Log)          (* allLogs, nil *)
| FetchFailed (e : errors.error)     (* nil, err *)
| FetchRunning.                      (* out of fuel *)

(** The block loop of [fetchLogsFromReceipts], with the block numbers
    asked of [GetBlockReceipts], in the order of the calls. *)
Fixpoint receipts_loop (chain : chainState) (fuel : nat)
         (blockNum to : Z) (allLogs : list Log) : fetched * list string :=
  if blockNum <=? to then
    match fuel with
    | O => (FetchRunning, [])
    | S fuel' =>
        let s_blockNum := utils.Uint64ToHexQty blockNum in
        match GetBlockReceipts (chainRPC chain) s_blockNum with
        | Err err =>
            (FetchFailed
               (errors.Errorf "failed to get receipts for block %d: %w"
                  [blockNum] (Some err)),
             [s_blockNum])
        | Ok receipts =>
            let allLogs := appendMatching chain allLogs receipts in
            let r := receipts_loop chain fuel' (uint64.add blockNum 1) to allLogs in
            (r.1, s_blockNum :: r.2)
        end
    end
  else (Fetched allLogs, []).

(** [func (p *Processor) fetchLogsFromReceipts(ctx, from, to, chain)] *)
Definition fetchLogsFromReceipts (fuel : nat) (from to : Z)
           (chain : chainState) : fetched * list string :=
  receipts_loop chain fuel from to [].

(** ** The arbiter *)

Record arbiter : Type := {
  window : gmap Z Z;
  windowLogs : gmap Z (list Log);
  next : Z;
  chain : chainState;
  logsCh : list Log;                 (* the logs sent so far, oldest first *)
  errCh : option errors.error        (* the one-slot error channel *)
}.

(** [select { case errCh <- err: default: }] *)
Definition publish (err : errors.error) (a : arbiter) : arbiter :=
  {| window := window a; windowLogs := windowLogs a; next := next a;
     chain := chain a; logsCh := logsCh a;
     errCh := match errCh a with Some e => Some e | None => Some err end |}.

Definition with_chain (c : chainState) (a : arbiter) : arbiter :=
  {| window := window a; windowLogs := windowLogs a; next := next a;
     chain := c; logsCh := logsCh a; errCh := errCh a |}.

Definition with_logsCh (out : list Log) (a : arbiter) : arbiter :=
  {| window := window a; windowLogs := windowLogs a; next := next a;
     chain := chain a; logsCh := out; errCh := errCh a |}.

Inductive flow : Type :=
| Again (a : arbiter)      (* the body ran to its end *)
| Waiting (a : arbiter)    (* the [for] loop is left, back to [select] *)
| Stopped (a : arbiter)    (* [return]: the arbiter goroutine ends *)
| Crashed                  (* a run-time panic *)
| Unfinished.              (* out of fuel *)

Section Arbiter.

(** The header a retried [GetBlock] call ends with, or the error
    [RetryWithBackoff] returns. *)
Variable fetchHeader : string -> result Block.
(** [rpcCtx.Err() != nil] after the first and after the second fetch. *)
Variable rpcCtxErr : nat -> bool.
(** [rpcCtx.Done()] taken by the [select] at the [j]-th log of a window. *)
Variable sendDone : nat -> bool.
(** [ctx.Done()] as [handleReorg] sees it. *)
Variable ctxDone : Z -> bool.

(** [for _, l := range logs { select { ... case logsCh <- l: } }]: the
    channel afterwards, and whether the goroutine returned. *)
Fixpoint send_all (j : nat) (logs out : list Log) : list Log * bool :=
  match logs with
  | [] => (out, false)
  | l :: logs' =>
      if sendDone j then (out, true) else send_all (S j) logs' (out ++ [l])
  end.

Definition commit (a : arbiter) (end_ : Z) : flow :=
  let logs := default [] (windowLogs a !! next a) in
  match send_all 0 logs (logsCh a) with
  | (out, true) => Stopped (with_logsCh out a)
  | (out, false) =>
      let a' :=
        {| window := delete (next a) (window a);
           windowLogs := delete (next a) (windowLogs a);
           next := uint64.add end_ 1;
           chain := set_cursor end_ (chain a);
           logsCh := out; errCh := errCh a |} in
      match fetchHeader (utils.Uint64ToHexQty end_) with
      | Err err => if rpcCtxErr 1 then Stopped a' else Stopped (publish err a')
      | Ok block =>
          match storeWindowHash end_ (Hash block) (chain a') with
          | Some c => Again (with_chain c a')
          | None => Crashed
          end
      end
  end.

(** The body of [for end, ok2 := window[next]; ok2; ...] for a window
    [next -> end_] that is present. *)
Definition commit_body (a : arbiter) (end_ : Z) : flow :=
  match fetchHeader (utils.Uint64ToHexQty (next a)) with
  | Err err => if rpcCtxErr 0 then Stopped a else Stopped (publish err a)
  | Ok block =>
      if next a =? 0 then Waiting a
      else
        match storedWindowHash (chain a) !! uint64.sub (next a) 1 with
        | Some parent =>
            if negb (String.eqb (ParentHash block) parent) then
              match handleReorg ctxDone (chain a)
                      (Z.to_nat (storedWindowHashCap (chain a))) with
              | Some (ancestor, c) => Stopped (with_chain (set_cursor ancestor c) a)
              | None => Unfinished
              end
            else commit a end_
        | None => commit a end_
        end
  end.

Fixpoint commit_loop (fuel : nat) (a : arbiter) : flow :=
  match window a !! next a with
  | None => Waiting a
  | Some end_ =>
      match fuel with
      | O => Unfinished
      | S fuel' =>
          match commit_body a end_ with
          | Again a' => commit_loop fuel' a'
          | other => other
          end
      end
  end.

(** [case dm, ok := <-doneCh] for a message that is there: the result is
    recorded, then the commit loop runs. *)
Definition receive (fuel : nat) (from to : Z) (logs : list Log) (a : arbiter)
  : flow :=
  commit_loop fuel
    {| window := <[from := to]> (window a);
       windowLogs := <[from := logs]> (windowLogs a);
       next := next a; chain := chain a;
       logsCh := logsCh a; errCh := errCh a |}.

End Arbiter.

End processor.

(* ================================================================== *)
(** * Package decoder: the fixed-size words *)

Module decoder.

Import errors.

(** [hexData[from:]] for [from <= len(hexData)]. *)
Definition slice_from (from : nat) (s : string) : string :=
  String.substring from (String.length s - from) s.

(** [func decodeAddress(hexData string) (string, error)] *)
Definition decodeAddress (hexData : string) : string * option error :=
  if negb (String.length hexData =? 64)%nat
  then (EmptyString,
        Some (Errorf "invalid address hex length: expected 64, got %d"
                [Z.of_nat (String.length hexData)] None))
  else
    let addressHex := slice_from 24 hexData in
    (("0x" +:+ addressHex)%string, None).

(** The [default] branch of [decodeBool] formats its message with the
    last byte, a string: it is kept as an [ErrorString] of the format
    and the operand. *)
Definition invalid_bool (lastByte : string) : error :=
  ErrorString ("invalid bool value: " +:+ lastByte +:+ " (expected 00 or 01)").

(** [func decodeBool(hexData string) (bool, error)] *)
Definition decodeBool (hexData : string) : bool * option error :=
  if negb (String.length hexData =? 64)%nat
  then (false,
        Some (Errorf "invalid bool hex length: expected 64, got %d"
                [Z.of_nat (String.length hexData)] None))
  else
    let lastByte := slice_from (String.length hexData - 2) hexData in
    if String.eqb lastByte "00" then (false, None)
    else if String.eqb lastByte "01" then (true, None)
    else (false, Some (invalid_bool lastByte)).

End decoder.

(* ================================================================== *)
(** * Specification-level notions

    The predicates and functions in which the properties below are
    stated; they follow the wording of the specification, not the code. *)

(** Ceiling division and clamping, as the specification words them. *)
Definition ceil_div (a b : Z) : Z :=
  if a mod b =? 0 then a / b else a / b + 1.

Definition clamp (x lo hi : Z) : Z :=
  if x <? lo then lo else if hi <? x then hi else x.

Definition windowCap_spec (o : processor.Options) : Z :=
  clamp (ceil_div (processor.ReorgLookbackBlocks o) (processor.RangeSize o) + 1)
        8 256.

(** A topic in canonical form: 66 bytes, the first two being "0x". *)
Definition canonical (t : string) : Prop :=
  String.length t = 66%nat /\ String.prefix "0x" t = true.

(** [order] lists the keys of [hashes], each once. *)
Definition linked (order : list Z) (hashes : gmap Z string) : Prop :=
  length order = size hashes
  /\ forall k, k ∈ order <-> is_Some (hashes !! k).

(** The three conditions kept by the store. *)
Definition store_inv (c : processor.chainState) : Prop :=
  length (processor.windowOrder c) = size (processor.storedWindowHash c)
  /\ (forall k, k ∈ processor.windowOrder c
                <-> is_Some (processor.storedWindowHash c !! k))
  /\ Z.of_nat (size (processor.storedWindowHash c))
     <= processor.storedWindowHashCap c.

(** The ranges of a run that starts at [start]: the [i]-th one begins at
    [start + i * rs], ends at [min (from + rs - 1) target], and the first
    start after the last range is beyond [target]. *)
Definition planned (target rs start : Z) (jobs : list processor.blockRange)
  : Prop :=
  (forall (i : nat) (r : processor.blockRange),
      jobs !! i = Some r ->
      processor.from r = start + Z.of_nat i * rs
      /\ processor.to r = Z.min (processor.from r + rs - 1) target
      /\ processor.from r <= target)
  /\ target < start + Z.of_nat (length jobs) * rs.

(** The heights the search examines, as the specification words them:
    from [a] downward in steps of [rs], at most [n] of them, none after
    the first one below [rs]. *)
Fixpoint candidates (n : nat) (a rs : Z) : list Z :=
  match n with
  | O => []
  | S n' => a :: (if a <? rs then [] else candidates n' (a - rs) rs)
  end.

(** The header fetched at height [a + 1] has the stored hash of [a] as
    its parent hash. *)
Definition is_ancestor (c : processor.chainState) (a : Z) : bool :=
  match rpcapi.GetBlock (processor.chainRPC c)
          (utils.Uint64ToHexQty (uint64.add a 1)) with
  | rpcapi.Ok header =>
      String.eqb (types.ParentHash header) (processor.hashAt c a)
  | rpcapi.Err _ => false
  end.

(** The store of [c'] is the store of [c] cut down to the keys [<= a]. *)
Definition trimmed (a : Z) (c c' : processor.chainState) : Prop :=
  (forall k, a < k -> processor.storedWindowHash c' !! k = None)
  /\ (forall k, k <= a ->
                processor.storedWindowHash c' !! k
                = processor.storedWindowHash c !! k)
  /\ (forall k, k ∈ processor.windowOrder c'
                <-> k ∈ processor.windowOrder c /\ k <= a).

Definition non_retryable (e : errors.error) : rpc.outcome :=
  rpc.Return (Some (errors.Errorf "non-retryable error: %w" [] (Some e))).

Definition cancelled (w : rpc.World) : rpc.outcome :=
  rpc.Return
    (Some (errors.Errorf "retry cancelled: %w" [] (Some (rpc.ctxErr w)))).

(** The runs of the loop from attempt [k] on: how each one ends and what
    happens on the way. *)
Inductive run (config : rpc.RetryConfig) (w : rpc.World)
  : Z -> rpc.outcome -> list rpc.event -> Prop :=
| run_success (k : Z) :
    k < rpc.MaxAttempts config -> rpc.fn w k = None ->
    run config w k (rpc.Return None) [rpc.Call k]
| run_terminal (k : Z) (e : errors.error) :
    k < rpc.MaxAttempts config -> rpc.fn w k = Some e ->
    errors.IsRetryableError (Some e) = false ->
    run config w k (non_retryable e) [rpc.Call k]
| run_exhausted (k : Z) (e : errors.error) :
    k = rpc.MaxAttempts config - 1 -> rpc.fn w k = Some e ->
    errors.IsRetryableError (Some e) = true ->
    run config w k (rpc.exceeded config (Some e)) [rpc.Call k]
| run_panic (k : Z) (e : errors.error) :
    k < rpc.MaxAttempts config - 1 -> rpc.fn w k = Some e ->
    errors.IsRetryableError (Some e) = true ->
    rpc.EnableJitter config = true ->
    run config w k rpc.Panic [rpc.Call k]
| run_cancelled (k : Z) (e : errors.error) (wait : Z) :
    k < rpc.MaxAttempts config - 1 -> rpc.fn w k = Some e ->
    errors.IsRetryableError (Some e) = true ->
    rpc.ctxDone w k = true ->
    run config w k (cancelled w) [rpc.Call k; rpc.Sleep k wait]
| run_again (k : Z) (e : errors.error) (wait : Z) (out : rpc.outcome)
            (tr : list rpc.event) :
    k < rpc.MaxAttempts config - 1 -> rpc.fn w k = Some e ->
    errors.IsRetryableError (Some e) = true ->
    rpc.ctxDone w k = false ->
    run config w (k + 1) out tr ->
    run config w k out (rpc.Call k :: rpc.Sleep k wait :: tr).

(** The filter, as the specification words it: with no configured topic
    every log passes; otherwise a log passes when its first topic is a
    string equal to an entry of the canonical topic list. *)
Definition retained (c : processor.chainState) (log : types.Log) : bool :=
  match processor.OptTopics (processor.opts c) with
  | [] => true
  | _ =>
      match types.Topics log with
      | types.AnyString s :: _ => existsb (String.eqb s) (processor.topics c)
      | _ => false
      end
  end.

Definition receiptsAt (c : processor.chainState) (b : Z) : list types.Receipt :=
  match rpcapi.GetBlockReceipts (processor.chainRPC c)
          (utils.Uint64ToHexQty b) with
  | rpcapi.Ok receipts => receipts
  | rpcapi.Err _ => []
  end.

(** All logs of all receipts of the blocks [from .. to], in order. *)
Definition flattened (c : processor.chainState) (from to : Z)
  : list types.Log :=
  concat (List.map (fun b => concat (List.map types.Logs (receiptsAt c b)))
                   (seqZ from (to - from + 1))).

(* ================================================================== *)
(** * Sample configurations, endpoints and states *)

Definition no_rpc : rpcapi.RPC :=
  {| rpcapi.Head := rpcapi.Ok "0x0"%string;
     rpcapi.GetBlock := fun _ => rpcapi.Err (errors.ErrorString "no endpoint");
     rpcapi.GetBlockReceipts :=
       fun _ => rpcapi.Err (errors.ErrorString "no endpoint") |}.

Definition options_of (rangeSize lookback : Z) : processor.Options :=
  {| processor.RangeSize := rangeSize; processor.FetcherConcurrency := 1;
     processor.StartBlock := 0; processor.Confimation := 0;
     processor.ReorgLookbackBlocks := lookback; processor.OptTopics := [] |}.

Definition chain_of (cur rangeSize cap : Z) (order : list Z)
           (hashes : gmap Z string) (r : rpcapi.RPC) : processor.chainState :=
  {| processor.chainRPC := r; processor.cursor := cur;
     processor.windowOrder := order;
     processor.storedWindowHash := hashes;
     processor.storedWindowHashCap := cap;
     processor.hardFallbackBlocks := 1000;
     processor.topics := [];
     processor.opts := options_of rangeSize 64 |}.

Definition transfer_topic : string :=
  "0xddf252ad1be2c89b69c2b068fc378daa952ba7f163c4a11628f55a4df523b3ef".

Definition log_of (address : string) (first : list types.any) : types.Log :=
  {| types.Address := address; types.Topics := first;
     types.Data := "0x"%string; types.BlockNumber := "0x0"%string;
     types.TransactionHash := "0x0"%string; types.LogIndex := "0x0"%string |}.

(** A stand-in digest of the right size, to run the canonicaliser. *)
Definition zero_digest (data : list Byte.byte) : list Byte.byte :=
  repeat Byte.x00 32.

Definition sample_topics : list string :=
  [ "Transfer(address, address, uint256)";
    "ddf252ad1be2c89b69c2b068fc378daa952ba7f163c4a11628f55a4df523b3ef";
    "0xddf252ad1be2c89b69c2b068fc378daa952ba7f163c4a11628f55a4df523b3ef" ]%string.

(** A full store of capacity two. *)
Definition full_store : processor.chainState :=
  chain_of 20 10 2 [10; 20]
    (<[10 := "0xa"%string]> (<[20 := "0xb"%string]> ∅)) no_rpc.

(** An endpoint whose every block has the given parent hash at the given
    height and [other] elsewhere. *)
Definition rpc_with_parent (height parent other : string) : rpcapi.RPC :=
  {| rpcapi.Head := rpcapi.Ok "0x64"%string;
     rpcapi.GetBlock :=
       fun h =>
         rpcapi.Ok {| types.Number := h; types.Hash := ("hash-" +:+ h)%string;
                      types.ParentHash :=
                        if String.eqb h height then parent else other;
                      types.Timestamp := "0x0"%string |};
     rpcapi.GetBlockReceipts := fun _ => rpcapi.Ok [] |}.

(** Windows committed up to 40, the chain reorganised above 20. *)
Definition reorged : processor.chainState :=
  chain_of 40 10 8 [10; 20; 30; 40]
    (<[10 := "h10"%string]> (<[20 := "h20"%string]>
       (<[30 := "h30"%string]> (<[40 := "h40"%string]> ∅))))
    (rpc_with_parent "0x15" "h20" "forked").

(** A store whose order is not ascending, as three [storeWindowHash]
    calls leave it. *)
Definition unsorted : processor.chainState :=
  chain_of 50 10 8 [45; 55; 50]
    (<[45 := "h45"%string]> (<[55 := "h55"%string]> (<[50 := "h50"%string]> ∅)))
    (rpc_with_parent "0x33" "h50" "forked").

Definition test_config : rpc.RetryConfig :=
  {| rpc.MaxAttempts := 3; rpc.InitialBackoff := 10000000;
     rpc.MaxBackoff := 100000000; rpc.EnableJitter := false |}.

(** An operation that fails with status 504 until attempt [ok]. *)
Definition flaky (ok : Z) : rpc.World :=
  {| rpc.fn := fun k => if k <? ok then Some (errors.HTTPError 504 "timeout")
                        else None;
     rpc.scale := fun b => 2 * b;
     rpc.rand63 := fun _ => 0;
     rpc.ctxDone := fun _ => false;
     rpc.ctxErr := errors.ErrorString "context canceled" |}.

(** An endpoint whose every block has one receipt with three logs: a
    transfer, an approval, and a log without topics. *)
Definition receipts_rpc : rpcapi.RPC :=
  {| rpcapi.Head := rpcapi.Ok "0x64"%string;
     rpcapi.GetBlock := fun _ => rpcapi.Err (errors.ErrorString "unused");
     rpcapi.GetBlockReceipts :=
       fun b =>
         rpcapi.Ok
           [ {| types.ReceiptBlockNumber := b;
                types.ReceiptTransactionHash := "0x1"%string;
                types.Logs :=
                  [ log_of "0xabc" [types.AnyString transfer_topic];
                    log_of "0xdef" [types.AnyString "0x8c5be1e5"; types.AnyOther];
                    log_of "0x123" [] ] |} ] |}.

Definition receipts_chain (cur : Z) : processor.chainState :=
  {| processor.chainRPC := receipts_rpc; processor.cursor := cur;
     processor.windowOrder := []; processor.storedWindowHash := ∅;
     processor.storedWindowHashCap := 8; processor.hardFallbackBlocks := 1000;
     processor.topics := [transfer_topic];
     processor.opts :=
       {| processor.RangeSize := 10; processor.FetcherConcurrency := 1;
          processor.StartBlock := cur; processor.Confimation := 0;
          processor.ReorgLookbackBlocks := 64;
          processor.OptTopics := ["Transfer(address,address,uint256)"%string] |} |}.

(** The arbiter of an epoch that starts with the cursor at 2^64 - 1, so
    that [next = cursor + 1] is 0, with the window [[0, 9]] and its log
    received. *)
Definition genesis_arbiter : processor.arbiter :=
  {| processor.window := {[ 0 := 9 ]};
     processor.windowLogs :=
       {[ 0 := [log_of "0xabc" [types.AnyString transfer_topic]] ]};
     processor.next := uint64.add 18446744073709551615 1;
     processor.chain := chain_of 18446744073709551615 10 8 [] ∅ no_rpc;
     processor.logsCh := [];
     processor.errCh := None |}.

Definition any_header (h : string) : rpcapi.result types.Block :=
  rpcapi.Ok {| types.Number := h; types.Hash := ("hash-" +:+ h)%string;
               types.ParentHash := "parent"%string;
               types.Timestamp := "0x0"%string |}.

(* ================================================================== *)
(** * Notions for the further properties *)

(** A use of the window-hash store: the two operations the arbiter and
    the reorg resolver apply to it, in any order. *)
Inductive store_op : Type :=
| OpStore (to_ : Z) (hash : string)
| OpDrop (after : Z).

Fixpoint run_ops (ops : list store_op) (c : processor.chainState)
  : option processor.chainState :=
  match ops with
  | [] => Some c
  | OpStore to_ hash :: ops' =>
      match processor.storeWindowHash to_ hash c with
      | Some c' => run_ops ops' c'
      | None => None
      end
  | OpDrop after :: ops' => run_ops ops' (processor.dropWindowHash after c)
  end.


(** The arbiter goroutine as [runChain] starts it in an epoch: nothing
    pending and [next := chain.cursor + 1]; [out] is what the log channel
    has carried so far and [err] the content of the error channel. *)
Definition arbiter_start (c : processor.chainState) (out : list types.Log)
           (err : option errors.error) : processor.arbiter :=
  {| processor.window := ∅; processor.windowLogs := ∅;
     processor.next := uint64.add (processor.cursor c) 1;
     processor.chain := c; processor.logsCh := out; processor.errCh := err |}.

(** An endpoint that fails with status 503 at one height and answers with
    a foreign parent hash elsewhere. *)
Definition rpc_failing_at (height : string) : rpcapi.RPC :=
  {| rpcapi.Head := rpcapi.Ok "0x64"%string;
     rpcapi.GetBlock :=
       fun h =>
         if String.eqb h height
         then rpcapi.Err (errors.HTTPError 503 "Service Unavailable")
         else rpcapi.Ok {| types.Number := h;
                           types.Hash := ("hash-" +:+ h)%string;
                           types.ParentHash := "forked"%string;
                           types.Timestamp := "0x0"%string |};
     rpcapi.GetBlockReceipts :=
       fun h =>
         if String.eqb h height
         then rpcapi.Err (errors.HTTPError 503 "Service Unavailable")
         else rpcapi.Ok [] |}.

(** Windows committed up to 40 on an endpoint that fails at block 31. *)
Definition stale : processor.chainState :=
  chain_of 40 10 8 [10; 20; 30; 40]
    (<[10 := "h10"%string]> (<[20 := "h20"%string]>
       (<[30 := "h30"%string]> (<[40 := "h40"%string]> ∅))))
    (rpc_failing_at "0x1f").

(** Headers of a chain without forks: block [h] has hash ["hash-" h] and
    the hash of its predecessor as parent hash; heights are given as the
    endpoint receives them. *)
Definition linear_block (h : string) : types.Block :=
  {| types.Number := h; types.Hash := ("hash-" +:+ h)%string;
     types.ParentHash :=
       ("hash-" +:+ utils.Uint64ToHexQty
                      (uint64.sub (utils.HexQtyToUint64 h).1 1))%string;
     types.Timestamp := "0x0"%string |}.

Definition linear_header (h : string) : rpcapi.result types.Block :=
  rpcapi.Ok (linear_block h).

(** The pending window that starts at [next] passes the parent check:
    a stored hash of block [next - 1], if any, is the parent hash of the
    header fetched for [next]. *)
Definition parent_ok (a : processor.arbiter) (header : types.Block) : Prop :=
  forall parent,
    processor.storedWindowHash (processor.chain a)
      !! uint64.sub (processor.next a) 1 = Some parent ->
    types.ParentHash header = parent.


(** An arbiter at cursor 0 with the window [[1, 10]] and its two logs
    pending. *)
Definition pending_arbiter : processor.arbiter :=
  {| processor.window := {[ 1 := 10 ]};
     processor.windowLogs :=
       {[ 1 := [ log_of "0xabc" [types.AnyString transfer_topic];
                 log_of "0xabd" [types.AnyString transfer_topic] ] ]};
     processor.next := 1;
     processor.chain := chain_of 0 10 8 [] ∅ no_rpc;
     processor.logsCh := [];
     processor.errCh := None |}.





(** The innermost error of an [Unwrap] chain. *)
Fixpoint root (e : errors.error) : errors.error :=
  match e with
  | errors.Errorf _ _ (Some inner) => root inner
  | _ => e
  end.

(** The verdict on an error that wraps nothing. *)
Definition retryable_root (e : errors.error) : Prop :=
  match e with
  | errors.HTTPError code _ =>
      In code [429; 500; 501; 502; 503; 504; 505; 506; 507; 508; 510; 511]
  | errors.RPCError code _ => -32099 <= code <= -32000
  | _ => False
  end.

(** A lower-case hexadecimal digit. *)
Definition lower_hex (ch : ascii) : bool :=
  existsb (Ascii.eqb ch) (list_ascii_of_string "0123456789abcdef").

(** The number a string of digits denotes in [base], most significant
    digit first, continuing from [acc]: a letter of either case stands
    for ten and more; [None] when a character is not a digit of the
    base. *)
Fixpoint digits_value (base acc : Z) (s : string) : option Z :=
  match s with
  | EmptyString => Some acc
  | String ch s' =>
      match strconv.digit_val ch with
      | Some d => if d <? base then digits_value base (base * acc + d) s' else None
      | None => None
      end
  end.

(** What [ParseUint] is to answer for a digit string that denotes [v]. *)
Definition parsed (v : Z) : Z * option strconv.NumError :=
  if v <? 2 ^ 64 then (v, None) else (uint64.max, Some strconv.ErrRange).

(** The characters of a string other than the space. *)
Definition unspaced (s : string) : list ascii :=
  List.filter (fun ch => negb (Ascii.eqb ch " ")) (list_ascii_of_string s).

(* ================================================================== *)
(** * Proofs *)

(** ** Hex quantities *)

Example Uint64ToHexQty_68943 : utils.Uint64ToHexQty 68943 = "0x10d4f"%string.
Proof. reflexivity. Qed.

Example HexQtyToUint64_3e8 : utils.HexQtyToUint64 "0x3e8" = (1000, None).
Proof. reflexivity. Qed.

Example HexQtyToUint64_overflow :
  utils.HexQtyToUint64 "0x10000000000000000" = (uint64.max, Some strconv.ErrRange).
Proof. vm_compute. reflexivity. Qed.

Section HexQty.

Import strconv.

Lemma digit_val_digit (d : Z) :
  0 <= d < 16 -> digit_val (digit d) = Some d.
Proof.
  intros Hd.
  assert (Hcases : d = 0 \/ d = 1 \/ d = 2 \/ d = 3 \/ d = 4 \/ d = 5 \/ d = 6
                   \/ d = 7 \/ d = 8 \/ d = 9 \/ d = 10 \/ d = 11 \/ d = 12
                   \/ d = 13 \/ d = 14 \/ d = 15) by lia.
  repeat (destruct Hcases as [-> | Hcases]; [reflexivity |]).
  subst d. reflexivity.
Qed.

Lemma parse_step (c : ascii) (s : string) (n d : Z) :
  digit_val c = Some d -> 0 <= d < 16 -> 0 <= n < 2 ^ 60 ->
  parse_loop 16 (2 ^ 60) uint64.max (String c s) n
  = parse_loop 16 (2 ^ 60) uint64.max s (16 * n + d).
Proof.
  intros Hc Hd Hn. cbn [parse_loop]. rewrite Hc.
  destruct (Z.leb_spec 16 d); [lia |].
  destruct (Z.leb_spec (2 ^ 60) n); [lia |].
  unfold uint64.mul, uint64.add, uint64.wrap, uint64.max, uint64.modulus.
  rewrite (Z.mod_small (n * 16)) by lia.
  rewrite (Z.mod_small (n * 16 + d)) by lia.
  destruct (Z.ltb_spec (n * 16 + d) (n * 16)); [lia |].
  destruct (Z.ltb_spec (2 ^ 64 - 1) (n * 16 + d)); [lia |].
  cbn [orb]. f_equal. lia.
Qed.

Lemma parse_formatBits (room : nat) :
  forall (u : Z) (acc : string),
    0 <= u < 2 ^ 64 -> u < 16 ^ (Z.of_nat room + 1) ->
    parse_loop 16 (2 ^ 60) uint64.max (formatBits_pow2 room 4 u acc) 0
    = parse_loop 16 (2 ^ 60) uint64.max acc u.
Proof.
  induction room as [| room IH]; intros u acc Hu Hroom.
  - cbn [formatBits_pow2]. change (16 ^ (Z.of_nat 0 + 1)) with 16 in Hroom.
    rewrite (parse_step _ _ 0 u); [f_equal; lia | | lia | lia].
    apply digit_val_digit. lia.
  - cbn [formatBits_pow2]. change (Z.shiftl 1 4) with 16.
    change (16 - 1) with (Z.ones 4).
    destruct (Z.leb_spec 16 u) as [Hge | Hlt].
    + rewrite Z.land_ones by lia. rewrite Z.shiftr_div_pow2 by lia.
      change (2 ^ 4) with 16.
      assert (Hq : 0 <= u / 16 < 2 ^ 60).
      { split; [apply Z.div_pos; lia |].
        apply Z.div_lt_upper_bound; lia. }
      assert (Hr : 0 <= u mod 16 < 16) by (apply Z.mod_pos_bound; lia).
      rewrite IH.
      * rewrite (parse_step _ _ (u / 16) (u mod 16));
          [| apply digit_val_digit; lia | lia | lia].
        f_equal. rewrite (Z.div_mod u 16) at 3 by lia. lia.
      * lia.
      * apply Z.div_lt_upper_bound; [lia |].
        replace (Z.of_nat (S room) + 1) with (Z.succ (Z.of_nat room + 1)) in Hroom
          by lia.
        rewrite Z.pow_succ_r in Hroom by lia. lia.
    + rewrite (parse_step _ _ 0 u); [f_equal; lia | | lia | lia].
      apply digit_val_digit. lia.
Qed.

Lemma formatBits_nonempty (room : nat) (shift u : Z) (acc : string) :
  formatBits_pow2 room shift u acc <> EmptyString.
Proof.
  revert u acc. induction room as [| room IH]; intros u acc; cbn [formatBits_pow2].
  - discriminate.
  - destruct (_ <=? _); [apply IH | discriminate].
Qed.

Lemma ParseUint_FormatUint16 (n : Z) :
  uint64.valid n -> ParseUint (FormatUint16 n) 16 = (n, None).
Proof.
  intros Hn. unfold uint64.valid, uint64.modulus in Hn.
  unfold ParseUint, FormatUint16.
  destruct (formatBits_pow2 64 4 n "") eqn:E.
  - exfalso. revert E. apply formatBits_nonempty.
  - rewrite <- E.
    change (uint64.max / 16 + 1) with (2 ^ 60).
    change (uint64.sub (Z.shiftl 1 64) 1) with uint64.max.
    rewrite parse_formatBits; [reflexivity | lia |].
    change (16 ^ (Z.of_nat 64 + 1)) with (2 ^ 260).
    assert (2 ^ 64 < 2 ^ 260) by (apply Z.pow_lt_mono_r; lia). lia.
Qed.

End HexQty.

Lemma substring_all (s : string) : String.substring 0 (String.length s) s = s.
Proof. induction s as [| c s IHs]; [reflexivity |]. cbn. now rewrite IHs. Qed.

Lemma HexQtyToUint64_0x (s : string) :
  utils.HexQtyToUint64 ("0x" +:+ s) = strconv.ParseUint s 16.
Proof.
  unfold utils.HexQtyToUint64, utils.slice_0_2, utils.slice_2.
  change ("0x" +:+ s)%string with (String "0" (String "x" s)).
  cbn [String.length Nat.leb Nat.sub String.substring andb].
  rewrite ?Nat.sub_0_r, substring_all.
  destruct s; reflexivity.
Qed.

(** C10.  Decoding the hex encoding of a 64-bit unsigned value gives the
    value back with a nil error: for every [n] in the range of [uint64],
    [HexQtyToUint64 (Uint64ToHexQty n)] is [(n, nil)]; and the encoding of
    zero is the literal "0x0". *)
Theorem HexQty_roundtrip (n : Z) :
  uint64.valid n ->
  utils.HexQtyToUint64 (utils.Uint64ToHexQty n) = (n, None)
  /\ utils.Uint64ToHexQty 0 = "0x0"%string
  /\ utils.HexQtyToUint64 (utils.Uint64ToHexQty 0) = (0, None).
Proof.
  intros Hn. split; [| split; reflexivity].
  unfold utils.Uint64ToHexQty.
  destruct (Z.eqb_spec n 0) as [-> | Hnz]; [reflexivity |].
  rewrite HexQtyToUint64_0x. now apply ParseUint_FormatUint16.
Qed.

Lemma HexQty_roundtrip_witness :
  utils.HexQtyToUint64 (utils.Uint64ToHexQty 18446744073709551615)
  = (18446744073709551615, None).
Proof.
  apply (HexQty_roundtrip 18446744073709551615).
  unfold uint64.valid, uint64.modulus. lia.
Defined.

(** ** Error classification *)

Section Classifier.

Import errors.

Lemma case_of_true (x : Z) (labels : list Z) :
  case_of x labels = true <-> In x labels.
Proof.
  unfold case_of. rewrite existsb_exists. split.
  - intros (y & Hin & Heq). apply Z.eqb_eq in Heq. now subst.
  - intros Hin. exists x. split; [exact Hin | apply Z.eqb_refl].
Qed.

(** What the [switch] on the status code computes. *)
Lemma IsRetryableError_http (code : Z) (msg : string) :
  IsRetryableError (Some (HTTPError code msg)) = true
  <-> In code [429; 500; 501; 502; 503; 504; 505; 506; 507; 508; 510; 511].
Proof.
  cbn [IsRetryableError AsHTTPError].
  destruct (case_of code [429; 502; 503; 504]) eqn:E1.
  - apply case_of_true in E1. cbn in E1 |- *. intuition lia.
  - destruct (case_of code [500; 501; 505; 506; 507; 508; 510; 511]) eqn:E2.
    + apply case_of_true in E2. cbn in E2 |- *. intuition lia.
    + split; [discriminate |]. intros Hin.
      assert (H1 : ~ In code [429; 502; 503; 504])
        by (rewrite <- case_of_true; congruence).
      assert (H2 : ~ In code [500; 501; 505; 506; 507; 508; 510; 511])
        by (rewrite <- case_of_true; congruence).
      cbn in Hin, H1, H2. exfalso. intuition lia.
Qed.

Lemma IsRetryableError_rpc (code : Z) (msg : string) :
  IsRetryableError (Some (RPCError code msg)) = true
  <-> -32099 <= code <= -32000.
Proof.
  cbn [IsRetryableError AsHTTPError AsRPCError].
  destruct (Z.leb_spec (-32099) code), (Z.leb_spec code (-32000));
    cbn; split; intros; try lia; try discriminate; reflexivity.
Qed.

Lemma IsRetryableError_other (e : error) :
  AsHTTPError e = None -> AsRPCError e = None ->
  IsRetryableError (Some e) = false.
Proof. intros H1 H2. cbn [IsRetryableError]. now rewrite H1, H2. Qed.

Lemma IsRetryableError_4xx_2xx (code : Z) (msg : string) :
  200 <= code <= 499 -> code <> 429 ->
  IsRetryableError (Some (HTTPError code msg)) = false.
Proof.
  intros Hr Hne. apply not_true_is_false. rewrite IsRetryableError_http.
  cbn. lia.
Qed.

End Classifier.

(** C4.  The classifier does not treat every 5xx status as retryable: for
    an HTTP error whose status code is 509 or lies in 512..599,
    [IsRetryableError] returns false (the [switch] lists 500-508, 510 and
    511 only and everything else takes the [default] branch). *)
Theorem IsRetryableError_5xx_not_listed (code : Z) (msg : string) :
  code = 509 \/ 512 <= code <= 599 ->
  errors.IsRetryableError (Some (errors.HTTPError code msg)) = false.
Proof.
  intros Hc. apply not_true_is_false. rewrite IsRetryableError_http.
  cbn. lia.
Qed.

Lemma IsRetryableError_5xx_not_listed_witness :
  errors.IsRetryableError
    (Some (errors.HTTPError 509 "Bandwidth Limit Exceeded")) = false.
Proof.
  apply (IsRetryableError_5xx_not_listed 509). left. reflexivity.
Defined.

(** ** The capacity of the window-hash store *)

Lemma ceil_div_bounds (a b : Z) :
  0 <= a -> 0 < b -> b * (ceil_div a b - 1) < a <= b * ceil_div a b.
Proof.
  intros Ha Hb. unfold ceil_div.
  pose proof (Z.div_mod a b ltac:(lia)) as Hdm.
  pose proof (Z.mod_pos_bound a b Hb) as Hm.
  destruct (Z.eqb_spec (a mod b) 0); nia.
Qed.

Lemma ceil_div_formula (a b : Z) :
  0 <= a -> 0 < b -> (a + b - 1) / b = ceil_div a b.
Proof.
  intros Ha Hb. unfold ceil_div.
  pose proof (Z.div_mod a b ltac:(lia)) as Hdm.
  pose proof (Z.mod_pos_bound a b Hb) as Hm.
  destruct (Z.eqb_spec (a mod b) 0) as [E | E].
  - symmetry. apply (Z.div_unique _ _ _ (b - 1)); lia.
  - symmetry. apply (Z.div_unique _ _ _ (a mod b - 1)); lia.
Qed.

Lemma windowCap_no_overflow (o : processor.Options) :
  0 < processor.RangeSize o ->
  0 <= processor.ReorgLookbackBlocks o ->
  processor.ReorgLookbackBlocks o + processor.RangeSize o < uint64.modulus ->
  processor.windowCap o = Some (windowCap_spec o).
Proof.
  intros Hrs HL Hsum. unfold processor.windowCap, windowCap_spec.
  set (rs := processor.RangeSize o) in *.
  set (L := processor.ReorgLookbackBlocks o) in *.
  unfold uint64.modulus in Hsum.
  unfold uint64.sub, uint64.add, uint64.wrap, uint64.modulus.
  rewrite (Z.mod_small rs) by lia.
  destruct (Z.eqb_spec rs 0); [lia |].
  rewrite (Z.mod_small (L + rs)) by lia.
  rewrite (Z.mod_small (L + rs - 1)) by lia.
  rewrite ceil_div_formula by lia.
  pose proof (ceil_div_bounds L rs HL Hrs) as Hc.
  assert (0 <= ceil_div L rs <= L) by nia.
  rewrite (Z.mod_small (ceil_div L rs + 1)) by lia.
  unfold clamp. f_equal.
  destruct (Z.ltb_spec (ceil_div L rs + 1) 8).
  - destruct (Z.ltb_spec 256 8); [lia | reflexivity].
  - reflexivity.
Qed.

(** C6, as amended.  For every options value with [RangeSize > 0] whose
    [ReorgLookbackBlocks + RangeSize] stays below 2^64, [AddChain] on a
    stopped processor creates the chain state with window-hash capacity
    clamp(ceil(ReorgLookbackBlocks / RangeSize) + 1, 8, 256). *)
Theorem AddChain_windowCap
        (Keccak256 : list Byte.byte -> list Byte.byte)
        (r : rpcapi.RPC) (o : processor.Options) :
  0 < processor.RangeSize o ->
  0 <= processor.ReorgLookbackBlocks o ->
  processor.ReorgLookbackBlocks o + processor.RangeSize o < uint64.modulus ->
  exists c, processor.AddChain Keccak256 false r o = processor.Added c
            /\ processor.storedWindowHashCap c = windowCap_spec o
            /\ 8 <= processor.storedWindowHashCap c <= 256.
Proof.
  intros Hrs HL Hsum. unfold processor.AddChain.
  rewrite windowCap_no_overflow by assumption.
  eexists. split; [reflexivity |]. cbn [processor.storedWindowHashCap].
  split; [reflexivity |].
  unfold windowCap_spec, clamp.
  repeat match goal with |- context [ ?a <? ?b ] => destruct (Z.ltb_spec a b) end;
    lia.
Qed.

Lemma AddChain_windowCap_witness :
  exists c, processor.AddChain (fun _ => []) false no_rpc (options_of 10 64)
            = processor.Added c
            /\ processor.storedWindowHashCap c = windowCap_spec (options_of 10 64)
            /\ 8 <= processor.storedWindowHashCap c <= 256.
Proof.
  apply (AddChain_windowCap (fun _ => []) no_rpc (options_of 10 64));
    unfold uint64.modulus; cbn; lia.
Defined.

(** The claim as stated fails when the sum wraps around: a lookback of
    2^64 - 1 with range size 2 gives capacity 8 where the formula gives
    256. *)
Lemma AddChain_windowCap_counterexample :
  0 < processor.RangeSize (options_of 2 18446744073709551615)
  /\ uint64.valid (processor.ReorgLookbackBlocks (options_of 2 18446744073709551615))
  /\ (exists c, processor.AddChain (fun _ => []) false no_rpc
                  (options_of 2 18446744073709551615) = processor.Added c
                /\ processor.storedWindowHashCap c = 8)
  /\ windowCap_spec (options_of 2 18446744073709551615) = 256.
Proof.
  split; [cbn; lia |]. split; [unfold uint64.valid, uint64.modulus; cbn; lia |].
  split; [| vm_compute; reflexivity].
  eexists. split; [vm_compute; reflexivity | reflexivity].
Qed.

(** ** Topic canonicalisation *)

Section Canonical.

Import topics.

Variable Keccak256 : list Byte.byte -> list Byte.byte.
Hypothesis Keccak256_size : forall data, length (Keccak256 data) = 32%nat.

Lemma EncodeToString_length (src : list Byte.byte) :
  String.length (EncodeToString src) = (2 * length src)%nat.
Proof.
  induction src as [| b src IH]; [reflexivity |].
  cbn [EncodeToString String.length length]. rewrite IH. lia.
Qed.

Lemma prefixed_length (s : string) :
  String.length ("0x" +:+ s) = S (S (String.length s)).
Proof. reflexivity. Qed.

Lemma prefixed_prefix (s : string) : String.prefix "0x" ("0x" +:+ s) = true.
Proof.
  change ("0x" +:+ s)%string with (String "0" (String "x" s)).
  cbn. destruct s; reflexivity.
Qed.

Lemma convert_fixed (t : string) : canonical t -> convert Keccak256 t = t.
Proof.
  intros [Hlen Hpre]. unfold convert. now rewrite Hlen, Hpre.
Qed.

Lemma convert_canonical (s : string) : canonical (convert Keccak256 s).
Proof.
  unfold convert.
  destruct (Nat.eqb_spec (String.length s) 66) as [H66 | H66]; cbn [andb].
  - destruct (String.prefix "0x" s) eqn:Hp; [now split |].
    destruct (Nat.eqb_spec (String.length s) 64) as [H64 | H64]; [lia |].
    cbn [andb]. unfold FunctionSignatureToTopic. split.
    + rewrite prefixed_length, EncodeToString_length, Keccak256_size.
      reflexivity.
    + apply prefixed_prefix.
  - destruct (Nat.eqb_spec (String.length s) 64) as [H64 | H64]; cbn [andb].
    + destruct (String.prefix "0x" s) eqn:Hp; cbn [negb].
      * unfold FunctionSignatureToTopic. split.
        -- rewrite prefixed_length, EncodeToString_length, Keccak256_size.
           reflexivity.
        -- apply prefixed_prefix.
      * split; [rewrite prefixed_length, H64; reflexivity | apply prefixed_prefix].
    + unfold FunctionSignatureToTopic. split.
      * rewrite prefixed_length, EncodeToString_length, Keccak256_size.
        reflexivity.
      * apply prefixed_prefix.
Qed.

Lemma convert_idempotent (s : string) :
  convert Keccak256 (convert Keccak256 s) = convert Keccak256 s.
Proof. apply convert_fixed, convert_canonical. Qed.

End Canonical.

(** C9.  With a Keccak-256 that returns 32 bytes, [ConvertToTopics] is
    idempotent; its output has the length of its input, and the element at
    each index is the canonical form of the input element at that index. *)
Theorem ConvertToTopics_idempotent
        (Keccak256 : list Byte.byte -> list Byte.byte)
        (signatures : list string) :
  (forall data, length (Keccak256 data) = 32%nat) ->
  topics.ConvertToTopics Keccak256 (topics.ConvertToTopics Keccak256 signatures)
  = topics.ConvertToTopics Keccak256 signatures
  /\ length (topics.ConvertToTopics Keccak256 signatures) = length signatures
  /\ forall i : nat,
      topics.ConvertToTopics Keccak256 signatures !! i
      = topics.convert Keccak256 <$> signatures !! i.
Proof.
  intros HK. unfold topics.ConvertToTopics. split; [| split].
  - rewrite List.map_map. apply List.map_ext. intros s.
    now apply convert_idempotent.
  - apply List.length_map.
  - intros i. apply (list_lookup_fmap (topics.convert Keccak256)).
Qed.

Lemma ConvertToTopics_idempotent_witness :
  topics.ConvertToTopics zero_digest (topics.ConvertToTopics zero_digest sample_topics)
  = topics.ConvertToTopics zero_digest sample_topics
  /\ length (topics.ConvertToTopics zero_digest sample_topics) = length sample_topics
  /\ forall i : nat,
      topics.ConvertToTopics zero_digest sample_topics !! i
      = topics.convert zero_digest <$> sample_topics !! i.
Proof.
  apply (ConvertToTopics_idempotent zero_digest sample_topics).
  intros data. reflexivity.
Defined.

Example ConvertToTopics_sample :
  topics.ConvertToTopics zero_digest sample_topics
  = [ "0x0000000000000000000000000000000000000000000000000000000000000000";
      "0xddf252ad1be2c89b69c2b068fc378daa952ba7f163c4a11628f55a4df523b3ef";
      "0xddf252ad1be2c89b69c2b068fc378daa952ba7f163c4a11628f55a4df523b3ef" ]%string.
Proof. reflexivity. Qed.

(** ** The window-hash store *)

Section Store.

Import processor.

Lemma size_le_cover (l : list Z) :
  forall m : gmap Z string,
    (forall k, is_Some (m !! k) -> k ∈ l) -> (size m <= length l)%nat.
Proof.
  induction l as [| x l IH]; intros m Hcov.
  - assert (m = ∅) as ->.
    { apply map_empty. intros k. apply eq_None_not_Some. intros Hk.
      apply Hcov in Hk. inversion Hk. }
    rewrite map_size_empty. cbn. lia.
  - assert (Hd : (size (delete x m) <= length l)%nat).
    { apply IH. intros k [v Hk].
      destruct (decide (k = x)) as [-> | Hne].
      - rewrite lookup_delete_eq in Hk. discriminate.
      - rewrite lookup_delete_ne in Hk by congruence.
        assert (Hin : k ∈ x :: l) by (apply Hcov; eauto).
        apply elem_of_cons in Hin. destruct Hin; [contradiction | assumption]. }
    rewrite map_size_delete in Hd. cbn [length].
    destruct (m !! x); unfold id in Hd; lia.
Qed.

Lemma linked_NoDup (l : list Z) :
  forall m : gmap Z string, linked l m -> NoDup l.
Proof.
  induction l as [| x l IH]; intros m [Hlen Hkeys]; [constructor |].
  assert (Hx : is_Some (m !! x)) by (apply Hkeys; left).
  destruct (decide (x ∈ l)) as [Hin | Hnin].
  - exfalso.
    assert (size m <= length l)%nat; [| cbn in Hlen; lia].
    apply size_le_cover. intros k Hk. apply Hkeys in Hk.
    apply elem_of_cons in Hk. destruct Hk as [-> | Hk]; assumption.
  - apply NoDup_cons. split; [assumption |].
    apply (IH (delete x m)). split.
    + rewrite map_size_delete. destruct Hx as [v ->]. cbn in Hlen |- *. lia.
    + intros k. split.
      * intros Hk. rewrite lookup_delete_ne by (intros ->; contradiction).
        apply Hkeys. now right.
      * intros [v Hk]. destruct (decide (k = x)) as [-> | Hne].
        -- rewrite lookup_delete_eq in Hk. discriminate.
        -- rewrite lookup_delete_ne in Hk by congruence.
           assert (Hin : k ∈ x :: l) by (apply Hkeys; eauto).
           apply elem_of_cons in Hin. destruct Hin; [contradiction | assumption].
Qed.

Lemma linked_overwrite (l : list Z) (m : gmap Z string) (k : Z) (h : string) :
  linked l m -> is_Some (m !! k) -> linked l (<[k := h]> m).
Proof.
  intros [Hlen Hkeys] Hk. split.
  - rewrite map_size_insert. destruct Hk as [v ->]. exact Hlen.
  - intros j. rewrite Hkeys. destruct (decide (k = j)) as [-> | Hne].
    + rewrite lookup_insert_eq. split; eauto.
    + now rewrite lookup_insert_ne.
Qed.

Lemma linked_append (l : list Z) (m : gmap Z string) (k : Z) (h : string) :
  linked l m -> m !! k = None -> linked (l ++ [k]) (<[k := h]> m).
Proof.
  intros [Hlen Hkeys] Hk. split.
  - rewrite map_size_insert, Hk, length_app. cbn. lia.
  - intros j. rewrite elem_of_app, list_elem_of_singleton, Hkeys.
    destruct (decide (k = j)) as [-> | Hne].
    + rewrite lookup_insert_eq. split; eauto.
    + rewrite lookup_insert_ne by assumption. split; [| tauto].
      intros [H | H]; [assumption | congruence].
Qed.

Lemma linked_evict (x : Z) (l : list Z) (m : gmap Z string) :
  linked (x :: l) m -> linked l (delete x m).
Proof.
  intros Hl. pose proof (linked_NoDup _ _ Hl) as Hnd.
  apply NoDup_cons in Hnd as [Hnin _]. destruct Hl as [Hlen Hkeys].
  assert (Hx : is_Some (m !! x)) by (apply Hkeys; left).
  split.
  - rewrite map_size_delete. destruct Hx as [v ->]. cbn in Hlen |- *. lia.
  - intros k. destruct (decide (k = x)) as [-> | Hne].
    + rewrite lookup_delete_eq. split; [contradiction | intros [? ?]; discriminate].
    + rewrite lookup_delete_ne by congruence. rewrite <- Hkeys.
      rewrite elem_of_cons. tauto.
Qed.

Lemma linked_pop (l : list Z) (x : Z) (m : gmap Z string) :
  linked (l ++ [x]) m -> linked l (delete x m).
Proof.
  intros Hl. pose proof (linked_NoDup _ _ Hl) as Hnd.
  apply NoDup_app in Hnd as (_ & Hdisj & _). destruct Hl as [Hlen Hkeys].
  assert (Hx : is_Some (m !! x)).
  { apply Hkeys. apply elem_of_app. right. now apply list_elem_of_singleton. }
  split.
  - rewrite map_size_delete. destruct Hx as [v ->].
    rewrite length_app in Hlen. cbn in Hlen |- *. lia.
  - intros k. destruct (decide (k = x)) as [-> | Hne].
    + rewrite lookup_delete_eq. split; [| intros [? ?]; discriminate].
      intros Hin. exfalso. apply (Hdisj x Hin). now apply list_elem_of_singleton.
    + rewrite lookup_delete_ne by congruence. rewrite <- Hkeys.
      rewrite elem_of_app, list_elem_of_singleton. tauto.
Qed.

(** The loop of [dropWindowHash] keeps the prefix it has not yet visited
    linked with the map. *)
Lemma drop_loop_linked (order : list Z) (after : Z) (n : nat) :
  forall m : gmap Z string,
    (n <= length order)%nat -> linked (take n order) m ->
    let '(n', m') := drop_loop n order m after in
    (n' <= n)%nat /\ linked (take n' order) m' /\ (size m' <= size m)%nat.
Proof.
  induction n as [| i IH]; intros m Hn Hl; cbn [drop_loop].
  - split; [lia |]. split; [assumption | lia].
  - destruct (order !! i) as [k |] eqn:Hk.
    + destruct (Z.ltb_spec after k).
      * rewrite (take_S_r _ _ _ Hk) in Hl.
        specialize (IH (delete k m) ltac:(lia) (linked_pop _ _ _ Hl)).
        destruct (drop_loop i order (delete k m) after) as [n' m'].
        destruct IH as (Hle & Hl' & Hsz). split; [lia |]. split; [assumption |].
        pose proof (map_size_delete k m) as Hsd.
        destruct (m !! k); unfold id in Hsd; lia.
      * split; [lia |]. split; [assumption | lia].
    + split; [lia |]. split; [assumption | lia].
Qed.

Lemma dropWindowHash_inv (after : Z) (c : chainState) :
  store_inv c ->
  store_inv (dropWindowHash after c)
  /\ windowOrder (dropWindowHash after c) `prefix_of` windowOrder c
  /\ storedWindowHashCap (dropWindowHash after c) = storedWindowHashCap c.
Proof.
  intros (Hlen & Hkeys & Hcap). unfold dropWindowHash.
  pose proof (drop_loop_linked (windowOrder c) after (length (windowOrder c))
                (storedWindowHash c) ltac:(lia)) as H.
  rewrite firstn_all in H. specialize (H (conj Hlen Hkeys)).
  destruct (drop_loop _ _ _ _) as [n' m'].
  destruct H as (Hle & [Hlen' Hkeys'] & Hsz).
  unfold store_inv. cbn [set_window windowOrder storedWindowHash storedWindowHashCap].
  repeat split; try assumption; try lia; try (now apply Hkeys').
  apply prefix_take.
Qed.

Lemma storeWindowHash_inv (to_ : Z) (hash : string) (c : chainState) :
  1 <= storedWindowHashCap c -> store_inv c ->
  exists c',
    storeWindowHash to_ hash c = Some c'
    /\ store_inv c'
    /\ storedWindowHashCap c' = storedWindowHashCap c
    /\ storedWindowHash c' !! to_ = Some hash
    /\ ((is_Some (storedWindowHash c !! to_) /\ windowOrder c' = windowOrder c)
        \/ (storedWindowHash c !! to_ = None
            /\ exists d, (d <= 1)%nat
                         /\ windowOrder c' = drop d (windowOrder c) ++ [to_])).
Proof.
  intros Hcap1 (Hlen & Hkeys & Hcap). unfold storeWindowHash.
  destruct (storedWindowHash c !! to_) as [old |] eqn:Hto.
  - eexists. split; [reflexivity |].
    destruct (linked_overwrite _ _ to_ hash (conj Hlen Hkeys)) as [Hl1 Hl2];
      [rewrite Hto; eauto |].
    unfold store_inv.
    cbn [set_window windowOrder storedWindowHash storedWindowHashCap].
    repeat split; try assumption; try (now apply Hl2).
    + rewrite <- Hl1, Hlen. exact Hcap.
    + apply lookup_insert_eq.
    + left. split; [eauto | reflexivity].
  - destruct (Z.leb_spec (storedWindowHashCap c) (Z.of_nat (length (windowOrder c))))
      as [Hfull | Hroom].
    + destruct (windowOrder c) as [| old rest] eqn:Horder; [cbn in Hfull; lia |].
      eexists. split; [reflexivity |].
      pose proof (linked_evict _ _ _ (conj Hlen Hkeys)) as Hl.
      assert (Hto' : delete old (storedWindowHash c) !! to_ = None).
      { destruct (decide (old = to_)) as [-> | Hne];
          [apply lookup_delete_eq | now rewrite lookup_delete_ne]. }
      destruct (linked_append _ _ to_ hash Hl Hto') as [Hl1 Hl2].
      unfold store_inv.
      cbn [set_window windowOrder storedWindowHash storedWindowHashCap].
      repeat split; try assumption; try (now apply Hl2).
      * rewrite <- Hl1, length_app. cbn in Hlen |- *. lia.
      * apply lookup_insert_eq.
      * right. split; [reflexivity |]. exists 1%nat. split; [lia | reflexivity].
    + eexists. split; [reflexivity |].
      destruct (linked_append _ _ to_ hash (conj Hlen Hkeys) Hto) as [Hl1 Hl2].
      unfold store_inv.
      cbn [set_window windowOrder storedWindowHash storedWindowHashCap].
      repeat split; try assumption; try (now apply Hl2).
      * rewrite <- Hl1, length_app. cbn. lia.
      * apply lookup_insert_eq.
      * right. split; [reflexivity |]. exists 0%nat. split; [lia | reflexivity].
Qed.

End Store.

Lemma windowCap_range (o : processor.Options) (cap : Z) :
  processor.windowCap o = Some cap -> 8 <= cap <= 256.
Proof.
  unfold processor.windowCap.
  destruct (uint64.wrap (processor.RangeSize o) =? 0); [discriminate |].
  intros H. injection H as <-.
  repeat match goal with
         | |- context [ ?a <? ?b ] => destruct (Z.ltb_spec a b)
         end; lia.
Qed.

(** The state [AddChain] creates starts the store within its invariant. *)
Lemma AddChain_store_inv
      (Keccak256 : list Byte.byte -> list Byte.byte)
      (r : rpcapi.RPC) (o : processor.Options) (c : processor.chainState) :
  processor.AddChain Keccak256 false r o = processor.Added c ->
  store_inv c /\ 8 <= processor.storedWindowHashCap c <= 256.
Proof.
  unfold processor.AddChain.
  destruct (processor.windowCap o) as [cap |] eqn:Hcap; [| discriminate].
  apply windowCap_range in Hcap.
  intros H. injection H as <-. unfold store_inv.
  cbn [processor.windowOrder processor.storedWindowHash
       processor.storedWindowHashCap].
  rewrite map_size_empty. split; [| exact Hcap].
  split; [reflexivity |]. split; [| cbn; lia].
  intros k. rewrite lookup_empty. split.
  - intros Hk. inversion Hk.
  - intros [? ?]. discriminate.
Qed.

(** C3.  In a chain state with capacity at least one where the order list
    is as long as the map is large, lists exactly the keys of the map, and
    the map is no larger than the capacity, every [storeWindowHash] call
    returns (no panic) and every [dropWindowHash] call leaves a state with
    the same three conditions; after [storeWindowHash] the number of
    entries is at most the capacity.  The order of insertion is kept:
    [storeWindowHash] leaves the list alone for a key already present and
    otherwise appends the key after evicting at most the oldest entry;
    [dropWindowHash] keeps a prefix of the list. *)
Theorem window_store_invariant (c : processor.chainState) :
  1 <= processor.storedWindowHashCap c ->
  store_inv c ->
  (forall (to_ : Z) (hash : string),
      exists c',
        processor.storeWindowHash to_ hash c = Some c'
        /\ store_inv c'
        /\ Z.of_nat (size (processor.storedWindowHash c'))
           <= processor.storedWindowHashCap c
        /\ ((is_Some (processor.storedWindowHash c !! to_)
             /\ processor.windowOrder c' = processor.windowOrder c)
            \/ (processor.storedWindowHash c !! to_ = None
                /\ exists d, (d <= 1)%nat
                             /\ processor.windowOrder c'
                                = drop d (processor.windowOrder c) ++ [to_])))
  /\ (forall after : Z,
         store_inv (processor.dropWindowHash after c)
         /\ processor.windowOrder (processor.dropWindowHash after c)
              `prefix_of` processor.windowOrder c).
Proof.
  intros Hcap Hinv. split.
  - intros to_ hash.
    destruct (storeWindowHash_inv to_ hash c Hcap Hinv)
      as (c' & Hst & Hinv' & Hc & _ & Hord).
    exists c'. repeat split; try assumption; try apply Hinv'.
    rewrite <- Hc. apply Hinv'.
  - intros after. destruct (dropWindowHash_inv after c Hinv) as (H1 & H2 & _).
    now split.
Qed.

Lemma full_store_inv : store_inv full_store.
Proof.
  unfold store_inv, full_store, chain_of.
  cbn [processor.windowOrder processor.storedWindowHash processor.storedWindowHashCap].
  split; [vm_compute; reflexivity |]. split; [| vm_compute; discriminate].
  intros k. rewrite <- elem_of_dom, !dom_insert_L, dom_empty_L.
  set_solver.
Qed.

Lemma window_store_invariant_witness :
  (forall (to_ : Z) (hash : string),
      exists c',
        processor.storeWindowHash to_ hash full_store = Some c'
        /\ store_inv c'
        /\ Z.of_nat (size (processor.storedWindowHash c'))
           <= processor.storedWindowHashCap full_store
        /\ ((is_Some (processor.storedWindowHash full_store !! to_)
             /\ processor.windowOrder c' = processor.windowOrder full_store)
            \/ (processor.storedWindowHash full_store !! to_ = None
                /\ exists d, (d <= 1)%nat
                             /\ processor.windowOrder c'
                                = drop d (processor.windowOrder full_store) ++ [to_])))
  /\ (forall after : Z,
         store_inv (processor.dropWindowHash after full_store)
         /\ processor.windowOrder (processor.dropWindowHash after full_store)
              `prefix_of` processor.windowOrder full_store).
Proof.
  apply (window_store_invariant full_store).
  - cbn. lia.
  - exact full_store_inv.
Defined.

Example storeWindowHash_evicts :
  processor.windowOrder <$> processor.storeWindowHash 30 "0xc" full_store
  = Some [20; 30].
Proof. reflexivity. Qed.

Example dropWindowHash_pops :
  processor.windowOrder (processor.dropWindowHash 15 full_store) = [10].
Proof. reflexivity. Qed.

(** ** The fetch planner *)

Section Planner.

Import processor.

Variables (target rs : Z).
Hypothesis rs_pos : 0 < rs.
Hypothesis target_nonneg : 0 <= target.
Hypothesis no_wrap : target + rs < uint64.modulus.

Lemma plan_loop_planned (fuel : nat) :
  forall (k : nat) (start : Z),
    0 <= start -> start < uint64.modulus -> target - start < Z.of_nat fuel ->
    exists jobs, plan_loop never fuel k start target rs = Some jobs
                 /\ planned target rs start jobs.
Proof.
  induction fuel as [| fuel IH]; intros k start Hs0 Hs1 Hfuel;
    cbn [plan_loop]; unfold uint64.modulus in *.
  - destruct (Z.leb_spec start target); [lia |].
    exists []. split; [reflexivity |]. split; [| cbn; lia].
    intros i r Hi. rewrite lookup_nil in Hi. discriminate.
  - destruct (Z.leb_spec start target) as [Hle | Hgt].
    + unfold never at 1. cbn iota.
      unfold uint64.sub, uint64.add, uint64.wrap, uint64.modulus.
      rewrite (Z.mod_small (start + rs)) by lia.
      rewrite (Z.mod_small (start + rs - 1)) by lia.
      destruct (IH (S k) (start + rs)) as (jobs & -> & Hp & Hend); [lia .. |].
      eexists. split; [reflexivity |]. split.
      * intros [| i] r Hi; cbn in Hi.
        -- injection Hi as <-. cbn [from to].
           destruct (Z.ltb_spec target (start + rs - 1)); lia.
        -- destruct (Hp i r Hi) as (Hf & Ht & Hb). lia.
      * cbn [length]. lia.
    + exists []. split; [reflexivity |]. split; [| cbn; lia].
      intros i r Hi. rewrite lookup_nil in Hi. discriminate.
Qed.

Lemma planned_length (start : Z) (jobs : list blockRange) (i : nat)
      (r : blockRange) :
  planned target rs start jobs -> jobs !! i = Some r ->
  start + Z.of_nat i * rs <= target.
Proof. intros [Hp _] Hi. destruct (Hp i r Hi) as (-> & _ & H). exact H. Qed.

Lemma planned_ordered (start : Z) (jobs : list blockRange) :
  planned target rs start jobs ->
  forall (i j : nat) (r s : blockRange),
    jobs !! i = Some r -> jobs !! j = Some s -> (i < j)%nat -> to r < from s.
Proof.
  intros [Hp _] i j r s Hi Hj Hij.
  destruct (Hp i r Hi) as (Hfr & Htr & _).
  destruct (Hp j s Hj) as (Hfs & _ & _).
  assert (Z.of_nat i + 1 <= Z.of_nat j) by lia. nia.
Qed.

Lemma planned_covers (start : Z) (jobs : list blockRange) (b : Z) :
  0 <= start -> planned target rs start jobs ->
  (exists r, r ∈ jobs /\ from r <= b <= to r) <-> start <= b <= target.
Proof.
  intros Hs [Hp Hend]. split.
  - intros (r & Hin & Hb). apply list_elem_of_lookup in Hin as [i Hi].
    destruct (Hp i r Hi) as (Hfr & Htr & Hle). nia.
  - intros Hb.
    set (q := (b - start) / rs).
    assert (Hq : 0 <= q) by (apply Z.div_pos; lia).
    pose proof (Z.mul_div_le (b - start) rs rs_pos) as Hlo.
    pose proof (Z.mul_succ_div_gt (b - start) rs rs_pos) as Hhi.
    fold q in Hlo, Hhi.
    assert (Hlen : (Z.to_nat q < length jobs)%nat) by nia.
    destruct (lookup_lt_is_Some_2 jobs (Z.to_nat q) Hlen) as [r Hr].
    exists r. split; [eapply list_elem_of_lookup_2; eassumption |].
    destruct (Hp _ r Hr) as (Hfr & Htr & Hle).
    rewrite Z2Nat.id in Hfr by assumption. nia.
Qed.

End Planner.

Lemma plan_loop_more_fuel (done : nat -> bool) (target rs : Z) (fuel : nat) :
  forall (fuel' k : nat) (start : Z) (jobs : list processor.blockRange),
    (fuel <= fuel')%nat ->
    processor.plan_loop done fuel k start target rs = Some jobs ->
    processor.plan_loop done fuel' k start target rs = Some jobs.
Proof.
  induction fuel as [| fuel IH]; intros fuel' k start jobs Hle Hrun.
  - cbn [processor.plan_loop] in Hrun.
    destruct fuel'; cbn [processor.plan_loop];
      destruct (start <=? target); congruence.
  - destruct fuel' as [| fuel']; [lia |].
    cbn [processor.plan_loop] in Hrun |- *.
    destruct (start <=? target); [| exact Hrun].
    destruct (done k); [exact Hrun |].
    destruct (processor.plan_loop done fuel _ _ _ _) as [jobs' |] eqn:E;
      [| discriminate].
    now rewrite (IH fuel' _ _ jobs' ltac:(lia) E).
Qed.

(** C1, as amended.  For a cursor below 2^64 - 1, a target, and a range
    size > 0 such that [target + rangeSize < 2^64] when the target is above
    the cursor, the planner of an epoch that is not cancelled terminates
    and emits ranges with [from = cursor + 1 + i * rangeSize] and
    [to = min (from + rangeSize - 1) target], stopping at the first [from]
    beyond [target]; each has [from <= to], they are pairwise disjoint and
    cover exactly [(cursor, target]]; no range when [target <= cursor], and
    the single range [[cursor + 1, target]] when
    [0 < target - cursor < rangeSize]. *)
Theorem planner_partition (c : processor.chainState) (target : Z) :
  let cur := processor.cursor c in
  let rs := processor.RangeSize (processor.opts c) in
  0 < rs -> 0 <= cur -> 0 <= target ->
  cur + 1 < uint64.modulus ->
  (cur < target -> target + rs < uint64.modulus) ->
  exists jobs : list processor.blockRange,
    (forall fuel : nat,
        target - cur <= Z.of_nat fuel ->
        processor.planner processor.never fuel c target = Some jobs)
    /\ (forall (i : nat) (r : processor.blockRange),
           jobs !! i = Some r ->
           processor.from r = cur + 1 + Z.of_nat i * rs
           /\ processor.to r = Z.min (processor.from r + rs - 1) target
           /\ processor.from r <= processor.to r)
    /\ target < cur + 1 + Z.of_nat (length jobs) * rs
    /\ (forall (i j : nat) (r s : processor.blockRange),
           jobs !! i = Some r -> jobs !! j = Some s -> (i < j)%nat ->
           processor.to r < processor.from s)
    /\ (forall b : Z,
           (exists r, r ∈ jobs /\ processor.from r <= b <= processor.to r)
           <-> cur < b <= target)
    /\ (target <= cur -> jobs = [])
    /\ (cur < target -> target - cur < rs ->
        jobs = [ {| processor.from := cur + 1; processor.to := target |} ]).
Proof.
  intros cur rs Hrs Hcur Htarget Hcw Htw'.
  assert (Hstart : uint64.add cur 1 = cur + 1).
  { unfold uint64.add, uint64.wrap. unfold uint64.modulus in *.
    apply Z.mod_small. lia. }
  destruct (Z_le_gt_dec target cur) as [Hidle | Hwork].
  { (* nothing to plan: the loop is not entered *)
    exists []. split; [| split; [| split; [| split; [| split; [| split]]]]].
    - intros fuel _. unfold processor.planner. fold cur. rewrite Hstart.
      destruct fuel; cbn [processor.plan_loop];
        destruct (Z.leb_spec (cur + 1) target); try lia; reflexivity.
    - intros i r Hi. rewrite lookup_nil in Hi. discriminate.
    - cbn [length]. lia.
    - intros i j r s Hi. rewrite lookup_nil in Hi. discriminate.
    - intros b. split; [| lia]. intros (r & Hr & _). inversion Hr.
    - reflexivity.
    - lia. }
  assert (Htw : target + rs < uint64.modulus) by (apply Htw'; lia).
  assert (Hrsw : uint64.wrap rs = rs).
  { unfold uint64.wrap. unfold uint64.modulus in *. apply Z.mod_small. lia. }
  destruct (plan_loop_planned target rs Hrs Htw
              (Z.to_nat (target - cur)) 0 (cur + 1))
    as (jobs & Hrun & Hplanned); [lia | lia | lia |].
  pose proof Hplanned as [Hp Hend].
  exists jobs. split; [| split; [| split; [| split; [| split; [| split]]]]].
  - intros fuel Hfuel. unfold processor.planner.
    fold cur rs. rewrite Hrsw, Hstart.
    apply (plan_loop_more_fuel _ _ _ (Z.to_nat (target - cur)));
      [lia | exact Hrun].
  - intros i r Hi. destruct (Hp i r Hi) as (Hf & Ht & Hle).
    repeat split; [lia | exact Ht | lia].
  - lia.
  - exact (planned_ordered target rs Hrs (cur + 1) jobs Hplanned).
  - intros b.
    rewrite (planned_covers target rs Hrs Htarget Htw (cur + 1) jobs b
               ltac:(lia) Hplanned).
    lia.
  - intros Hle. lia.
  - intros Hlt Hsmall. destruct jobs as [| r [| s jobs']].
    + cbn in Hend. lia.
    + destruct (Hp 0%nat r eq_refl) as (Hf & Ht & _).
      destruct r as [f t]. cbn [processor.from processor.to] in *.
      f_equal. f_equal; lia.
    + destruct (Hp 1%nat s eq_refl) as (Hf & _ & Hb). lia.
Qed.

Lemma planner_partition_witness :
  exists jobs : list processor.blockRange,
    processor.planner processor.never 25 (chain_of 0 10 8 [] ∅ no_rpc) 25
    = Some jobs
    /\ jobs = [ {| processor.from := 1; processor.to := 10 |};
                {| processor.from := 11; processor.to := 20 |};
                {| processor.from := 21; processor.to := 25 |} ].
Proof.
  destruct (planner_partition (chain_of 0 10 8 [] ∅ no_rpc) 25)
    as (jobs & Hrun & _); try (unfold uint64.modulus; cbn; lia).
  exists jobs. pose proof (Hrun 25%nat ltac:(cbn; lia)) as H25.
  split; [exact H25 |].
  vm_compute in H25. now injection H25 as <-.
Defined.

(** The claim as stated fails at the top of the [uint64] range: with the
    cursor at 2^64 - 1 the first [from] wraps to 0, and the planner emits
    the range [[0, 0]] although the target, 0, is not above the cursor. *)
Lemma planner_wrap_counterexample :
  let c := chain_of 18446744073709551615 1 8 [] ∅ no_rpc in
  0 < processor.RangeSize (processor.opts c)
  /\ 0 <= processor.cursor c
  /\ processor.planner processor.never 2 c 0
     = Some [ {| processor.from := 0; processor.to := 0 |} ].
Proof.
  cbn zeta. split; [cbn; lia |]. split; [cbn; lia |]. vm_compute. reflexivity.
Qed.

(** ** The reorg resolver *)

Section Resolver.

Import types rpcapi processor.

Variable ctxDone : Z -> bool.
Variable c : chainState.

Let rs := RangeSize (opts c).
Let cap := storedWindowHashCap c.

Hypothesis rs_range : 0 < rs < uint64.modulus.
Hypothesis cap_range : 0 <= cap < uint64.modulus.
Hypothesis not_cancelled : forall i, ctxDone i = false.
Hypothesis fetches_succeed :
  forall height, exists header, GetBlock (chainRPC c) height = Ok header.

Lemma reorg_loop_find (fuel : nat) :
  forall i a : Z,
    0 <= i -> 0 <= a < uint64.modulus -> cap - i <= Z.of_nat fuel ->
    reorg_loop ctxDone c fuel i a
    = match find (is_ancestor c) (candidates (Z.to_nat (cap - i)) a rs) with
      | Some x => Found x
      | None => Exhausted
      end.
Proof.
  induction fuel as [| fuel IH]; intros i a Hi Ha Hfuel; cbn [reorg_loop];
    fold cap; destruct (Z.ltb_spec i cap) as [Hlt | Hge];
    try (replace (Z.to_nat (cap - i)) with 0%nat by lia; reflexivity);
    [lia |].
  replace (Z.to_nat (cap - i)) with (S (Z.to_nat (cap - (i + 1)))) by lia.
  cbn [candidates find]. unfold is_ancestor at 1.
  destruct (fetches_succeed (utils.Uint64ToHexQty (uint64.add a 1)))
    as [header ->].
  destruct (String.eqb (ParentHash header) (hashAt c a)); [reflexivity |].
  fold rs. unfold uint64.modulus in *.
  unfold uint64.wrap at 1, uint64.modulus. rewrite (Z.mod_small rs) by lia.
  destruct (Z.ltb_spec a rs) as [Hsmall | Hbig]; [reflexivity |].
  rewrite not_cancelled.
  unfold uint64.sub, uint64.add, uint64.wrap, uint64.modulus.
  rewrite (Z.mod_small rs) by lia.
  rewrite (Z.mod_small (a - rs)) by lia.
  rewrite (Z.mod_small (i + 1)) by lia.
  apply IH; lia.
Qed.

End Resolver.

Section Trim.

Import processor.

Lemma StronglySorted_lookup (l : list Z) :
  StronglySorted Z.le l ->
  forall (i j : nat) (x y : Z),
    (i <= j)%nat -> l !! i = Some x -> l !! j = Some y -> x <= y.
Proof.
  induction 1 as [| x0 l Hs IH Hall]; intros i j x y Hij Hi Hj.
  - rewrite lookup_nil in Hi. discriminate.
  - destruct i as [| i], j as [| j]; cbn in Hi, Hj; try lia.
    + injection Hi as <-. injection Hj as <-. lia.
    + injection Hi as <-. rewrite Forall_forall in Hall.
      apply Hall. eapply list_elem_of_lookup_2. eassumption.
    + apply (IH i j); [lia | assumption | assumption].
Qed.

(** What the loop of [dropWindowHash] deletes and where it stops. *)
Lemma drop_loop_trim (order : list Z) (after : Z) (n : nat) :
  forall m : gmap Z string,
    (n <= length order)%nat ->
    let '(n', m') := drop_loop n order m after in
    (n' <= n)%nat
    /\ (forall k, k <= after -> m' !! k = m !! k)
    /\ (forall k, m !! k = None -> m' !! k = None)
    /\ (forall (i : nat) (k : Z),
           (n' <= i < n)%nat -> order !! i = Some k ->
           m' !! k = None /\ after < k)
    /\ (n' = 0%nat
        \/ exists k, order !! (n' - 1)%nat = Some k /\ k <= after).
Proof.
  induction n as [| i IH]; intros m Hlen; cbn [drop_loop].
  - repeat split; try lia; auto.
  - destruct (order !! i) as [k |] eqn:Hk.
    + destruct (Z.ltb_spec after k) as [Hgt | Hle].
      * specialize (IH (delete k m) ltac:(lia)).
        destruct (drop_loop i order (delete k m) after) as [n' m'].
        destruct IH as (Hn & Hkeep & Hnone & Hdel & Hstop).
        split; [lia |]. split; [| split; [| split]].
        -- intros j Hj. rewrite Hkeep by assumption.
           apply lookup_delete_ne. lia.
        -- intros j Hj. apply Hnone.
           destruct (decide (k = j)) as [-> | Hne];
             [apply lookup_delete_eq | now rewrite lookup_delete_ne].
        -- intros j kj Hj Hkj. destruct (decide (j = i)) as [-> | Hne].
           ++ rewrite Hk in Hkj. injection Hkj as <-. split; [| assumption].
              apply Hnone, lookup_delete_eq.
           ++ apply (Hdel j kj); [lia | assumption].
        -- exact Hstop.
      * repeat split; try lia; auto.
        right. exists k. cbn. rewrite Nat.sub_0_r. now split.
    + exfalso. apply lookup_ge_None in Hk. lia.
Qed.

Lemma dropWindowHash_trimmed (after : Z) (c : chainState) :
  StronglySorted Z.le (windowOrder c) ->
  (forall k, is_Some (storedWindowHash c !! k) -> k ∈ windowOrder c) ->
  trimmed after c (dropWindowHash after c).
Proof.
  intros Hsorted Hcover. unfold dropWindowHash.
  pose proof (drop_loop_trim (windowOrder c) after (length (windowOrder c))
                (storedWindowHash c) ltac:(lia)) as H.
  destruct (drop_loop _ _ _ _) as [n' m'].
  destruct H as (Hn & Hkeep & Hnone & Hdel & Hstop).
  assert (Hlow : forall (i : nat) (k : Z),
             (i < n')%nat -> windowOrder c !! i = Some k -> k <= after).
  { intros i k Hi Hk. destruct Hstop as [H0 | (k0 & Hk0 & Hle)]; [lia |].
    pose proof (StronglySorted_lookup _ Hsorted i (n' - 1) k k0
                  ltac:(lia) Hk Hk0). lia. }
  unfold trimmed. cbn [set_window windowOrder storedWindowHash].
  split; [| split].
  - intros k Hk. destruct (m' !! k) as [v |] eqn:E; [exfalso | reflexivity].
    assert (Hin : k ∈ windowOrder c).
    { apply Hcover. destruct (storedWindowHash c !! k) eqn:E0; [eauto |].
      rewrite (Hnone k E0) in E. discriminate. }
    apply list_elem_of_lookup in Hin as [i Hi].
    destruct (Nat.lt_ge_cases i n') as [Hlt | Hge].
    + pose proof (Hlow i k Hlt Hi). lia.
    + destruct (Hdel i k) as [Habs _]; [| assumption | congruence].
      apply lookup_lt_Some in Hi. lia.
  - exact Hkeep.
  - intros k. rewrite elem_of_take. split.
    + intros (i & Hi & Hlt). split; [eapply list_elem_of_lookup_2; eassumption |].
      now apply (Hlow i).
    + intros [Hin Hle]. apply list_elem_of_lookup in Hin as [i Hi].
      exists i. split; [assumption |].
      destruct (Nat.lt_ge_cases i n') as [Hlt | Hge]; [assumption |].
      destruct (Hdel i k) as [_ Habs]; [| assumption | lia].
      apply lookup_lt_Some in Hi. lia.
Qed.

End Trim.

(** C2, as amended.  For a chain state with range size > 0 whose
    [windowOrder] is in ascending order and lists every key of
    [storedWindowHash], [handleReorg], run without cancellation and with
    all header fetches succeeding, terminates and returns either the first
    height [a] among cursor, cursor - rangeSize, ... (at most
    [storedWindowHashCap] of them, none after the first one below
    rangeSize) whose header at [a + 1] has the stored hash of [a] as parent
    hash, or, when there is none, max(cursor - hardFallbackBlocks, 0); in
    both cases the store is left trimmed to the keys [<=] the value
    returned. *)
Theorem handleReorg_resolves (ctxDone : Z -> bool) (c : processor.chainState) :
  let rs := processor.RangeSize (processor.opts c) in
  let cap := processor.storedWindowHashCap c in
  0 < rs < uint64.modulus ->
  0 <= cap < uint64.modulus ->
  0 <= processor.cursor c < uint64.modulus ->
  0 <= processor.hardFallbackBlocks c ->
  (forall i, ctxDone i = false) ->
  (forall height,
      exists header,
        rpcapi.GetBlock (processor.chainRPC c) height = rpcapi.Ok header) ->
  StronglySorted Z.le (processor.windowOrder c) ->
  (forall k, is_Some (processor.storedWindowHash c !! k) ->
             k ∈ processor.windowOrder c) ->
  exists (a : Z) (c' : processor.chainState),
    (forall fuel : nat,
        cap <= Z.of_nat fuel ->
        processor.handleReorg ctxDone c fuel = Some (a, c'))
    /\ c' = processor.dropWindowHash a c
    /\ trimmed a c c'
    /\ match find (is_ancestor c)
               (candidates (Z.to_nat cap) (processor.cursor c) rs) with
       | Some x =>
           a = x
           /\ exists header,
               rpcapi.GetBlock (processor.chainRPC c)
                 (utils.Uint64ToHexQty (uint64.add a 1)) = rpcapi.Ok header
               /\ types.ParentHash header = processor.hashAt c a
       | None =>
           a = Z.max (processor.cursor c - processor.hardFallbackBlocks c) 0
           /\ forall x,
               In x (candidates (Z.to_nat cap) (processor.cursor c) rs) ->
               is_ancestor c x = false
       end.
Proof.
  intros rs cap Hrs Hcap Hcur Hhfb Hnc Hok Hsorted Hcover.
  assert (Hloop : forall fuel : nat,
             cap <= Z.of_nat fuel ->
             processor.reorg_loop ctxDone c fuel 0 (processor.cursor c)
             = match find (is_ancestor c)
                       (candidates (Z.to_nat cap) (processor.cursor c) rs) with
               | Some x => processor.Found x
               | None => processor.Exhausted
               end).
  { intros fuel Hfuel.
    rewrite (reorg_loop_find ctxDone c Hrs Hcap Hnc Hok fuel 0 (processor.cursor c))
      by lia.
    fold cap. now rewrite Z.sub_0_r. }
  destruct (find (is_ancestor c)
              (candidates (Z.to_nat cap) (processor.cursor c) rs))
    as [x |] eqn:Hfind.
  - exists x, (processor.dropWindowHash x c).
    split; [| split; [| split; [| split]]].
    + intros fuel Hfuel. unfold processor.handleReorg. now rewrite Hloop.
    + reflexivity.
    + now apply dropWindowHash_trimmed.
    + reflexivity.
    + apply find_some in Hfind as [_ Hx]. unfold is_ancestor in Hx.
      destruct (rpcapi.GetBlock _ _) as [header | e]; [| discriminate].
      exists header. split; [reflexivity |]. now apply String.eqb_eq.
  - set (fb := Z.max (processor.cursor c - processor.hardFallbackBlocks c) 0).
    assert (Hfb : (let fallback := processor.fallbackOf c in
                   if fallback <=? 0 then 0 else fallback) = fb).
    { unfold processor.fallbackOf, fb. unfold uint64.modulus in *.
      destruct (Z.ltb_spec (processor.hardFallbackBlocks c) (processor.cursor c)).
      - unfold uint64.sub, uint64.wrap, uint64.modulus.
        rewrite Z.mod_small by lia. cbn zeta.
        destruct (Z.leb_spec (processor.cursor c - processor.hardFallbackBlocks c) 0);
          lia.
      - cbn. lia. }
    exists fb, (processor.dropWindowHash fb c).
    split; [| split; [| split; [| split]]].
    + intros fuel Hfuel. unfold processor.handleReorg.
      rewrite Hloop by assumption. cbn zeta in Hfb |- *. now rewrite Hfb.
    + reflexivity.
    + now apply dropWindowHash_trimmed.
    + reflexivity.
    + intros x Hx. exact (find_none _ _ Hfind x Hx).
Qed.

Lemma handleReorg_resolves_witness :
  exists (a : Z) (c' : processor.chainState),
    processor.handleReorg (fun _ => false) reorged 8 = Some (a, c')
    /\ a = 20
    /\ processor.windowOrder c' = [10; 20]
    /\ trimmed a reorged c'.
Proof.
  destruct (handleReorg_resolves (fun _ => false) reorged)
    as (a & c' & Hrun & Hc' & Htrim & Hfind).
  - unfold uint64.modulus. cbn. lia.
  - unfold uint64.modulus. cbn. lia.
  - unfold uint64.modulus. cbn. lia.
  - cbn. lia.
  - reflexivity.
  - intros height. eexists. reflexivity.
  - cbn. repeat constructor; lia.
  - intros k. cbn [reorged chain_of processor.storedWindowHash processor.windowOrder].
    rewrite <- elem_of_dom, !dom_insert_L, dom_empty_L. set_solver.
  - exists a, c'.
    destruct (find (is_ancestor reorged) _) as [x |] eqn:E in Hfind;
      vm_compute in E; [injection E as <- | discriminate].
    destruct Hfind as [-> _].
    split; [apply Hrun; cbn; lia |]. split; [reflexivity |].
    split; [subst c'; reflexivity | exact Htrim].
Defined.

Example unsorted_by_stores :
  ((processor.storeWindowHash 45 "h45"
      (chain_of 50 10 8 [] ∅ (rpc_with_parent "0x33" "h50" "forked"))
      ≫= processor.storeWindowHash 55 "h55")
     ≫= processor.storeWindowHash 50 "h50")
  = Some unsorted.
Proof. vm_compute. reflexivity. Qed.

(** The claim as stated fails on such a state: block 51 has the stored
    hash of 50 as parent, [handleReorg] returns 50, and the entry at key
    55 is still stored. *)
Lemma handleReorg_unsorted_counterexample :
  0 < processor.RangeSize (processor.opts unsorted)
  /\ is_ancestor unsorted 50 = true
  /\ exists c',
      processor.handleReorg (fun _ => false) unsorted 8 = Some (50, c')
      /\ processor.storedWindowHash c' !! 55 = Some "h55"%string.
Proof.
  split; [cbn; lia |]. split; [vm_compute; reflexivity |].
  eexists. split; [vm_compute; reflexivity | vm_compute; reflexivity].
Qed.

(** ** Retry with backoff *)

Section RetryRuns.

Import errors rpc.

Variable config : RetryConfig.
Variable w : World.

Lemma retry_loop_run (fuel : nat) :
  forall (k backoff : Z) (lastErr : option error),
    k < MaxAttempts config -> MaxAttempts config - k <= Z.of_nat fuel ->
    run config w k (retry_loop config w fuel k backoff lastErr).1
          (retry_loop config w fuel k backoff lastErr).2.
Proof.
  induction fuel as [| fuel IH]; intros k backoff lastErr Hk Hfuel; [lia |].
  cbn [retry_loop].
  destruct (Z.ltb_spec k (MaxAttempts config)); [| lia].
  destruct (fn w k) as [e |] eqn:Hfn; [| now constructor].
  destruct (IsRetryableError (Some e)) eqn:Hre; cbn [negb fst snd];
    [| now apply run_terminal].
  destruct (Z.eqb_spec k (MaxAttempts config - 1)) as [Hlast | Hmore]; cbn [fst snd];
    [now apply run_exhausted |].
  destruct (EnableJitter config) eqn:Hjit.
  - destruct (Int63n (rand63 w k) (Z.quot backoff 4)) as [j |]; cbn [fst snd];
      [| apply (run_panic config w k e); [lia | assumption ..]].
    destruct (ctxDone w k) eqn:Hdone; cbn [fst snd].
    + apply (run_cancelled config w k e); [lia | assumption ..].
    + apply (run_again config w k e); [lia | assumption .. |]. apply IH; lia.
  - destruct (ctxDone w k) eqn:Hdone; cbn [fst snd].
    + apply (run_cancelled config w k e); [lia | assumption ..].
    + apply (run_again config w k e); [lia | assumption .. |]. apply IH; lia.
Qed.

Lemma last_later {A : Type} (x y : A) (l : list A) :
  last l = Some y -> last (x :: l) = Some y.
Proof. destruct l; [discriminate | intros H; exact H]. Qed.

Lemma run_calls (k : Z) (out : outcome) (tr : list event) :
  run config w k out tr ->
  Z.of_nat (length (calls tr)) <= MaxAttempts config - k
  /\ forall j, In j (calls tr) -> k <= j < MaxAttempts config.
Proof.
  induction 1 as [k Hk Hfn | k e Hk Hfn Hre | k e Hk Hfn Hre
                  | k e Hk Hfn Hre Hjit | k e wait Hk Hfn Hre Hdone
                  | k e wait out tr Hk Hfn Hre Hdone Hrun [IHlen IHin]].
  6:{ change (calls (Call k :: Sleep k wait :: tr)) with (k :: calls tr).
      split; [cbn [length]; lia |].
      intros j [<- | Hj]; [lia |]. apply IHin in Hj. lia. }
  all: split; [cbn; lia |]; intros j [<- | []]; lia.
Qed.

(** A call that returns nil, or an error that is not retryable, ends the
    run: it is the last event and decides the result. *)
Lemma run_stops (k : Z) (out : outcome) (tr : list event) :
  run config w k out tr ->
  forall j, In j (calls tr) ->
    IsRetryableError (fn w j) = false ->
    last tr = Some (Call j)
    /\ out = match fn w j with
             | None => Return None
             | Some e => non_retryable e
             end.
Proof.
  induction 1 as [k Hk Hfn | k e Hk Hfn Hre | k e Hk Hfn Hre
                  | k e Hk Hfn Hre Hjit | k e wait Hk Hfn Hre Hdone
                  | k e wait out tr Hk Hfn Hre Hdone Hrun IH];
    intros j Hj Hnr.
  6:{ change (calls (Call k :: Sleep k wait :: tr)) with (k :: calls tr) in Hj.
      destruct Hj as [<- | Hj]; [congruence |].
      destruct (IH j Hj Hnr) as [Hlast Hout].
      split; [| exact Hout]. now do 2 apply last_later. }
  all: destruct Hj as [<- | []]; rewrite Hfn in *; try congruence.
  all: split; reflexivity.
Qed.

(** A run in which all [MaxAttempts] attempts are made and fail with
    retryable errors ends with the last call and reports exhaustion. *)
Lemma run_exhausts (k : Z) (out : outcome) (tr : list event) :
  run config w k out tr ->
  Z.of_nat (length (calls tr)) = MaxAttempts config - k ->
  (forall j, In j (calls tr) -> IsRetryableError (fn w j) = true) ->
  last tr = Some (Call (MaxAttempts config - 1))
  /\ out = exceeded config (fn w (MaxAttempts config - 1)).
Proof.
  induction 1 as [k Hk Hfn | k e Hk Hfn Hre | k e Hk Hfn Hre
                  | k e Hk Hfn Hre Hjit | k e wait Hk Hfn Hre Hdone
                  | k e wait out tr Hk Hfn Hre Hdone Hrun IH];
    intros Hlen Hall.
  6:{ change (calls (Call k :: Sleep k wait :: tr)) with (k :: calls tr)
        in Hlen, Hall.
      destruct IH as [Hlast Hout].
      - cbn [length] in Hlen. lia.
      - intros j Hj. apply Hall. now right.
      - split; [| exact Hout]. now do 2 apply last_later. }
  - specialize (Hall k (or_introl eq_refl)). rewrite Hfn in Hall. discriminate.
  - specialize (Hall k (or_introl eq_refl)). rewrite Hfn in Hall. congruence.
  - subst k. rewrite Hfn. split; reflexivity.
  - cbn in Hlen. lia.
  - cbn in Hlen. lia.
Qed.

(** No sleep follows the final attempt, and a run always ends in a return
    or a panic. *)
Lemma run_sleeps (k : Z) (out : outcome) (tr : list event) :
  run config w k out tr ->
  (forall j wait,
      In (Sleep j wait) tr -> j < MaxAttempts config - 1 /\ In j (calls tr))
  /\ out <> OutOfFuel.
Proof.
  induction 1 as [k Hk Hfn | k e Hk Hfn Hre | k e Hk Hfn Hre
                  | k e Hk Hfn Hre Hjit | k e wait Hk Hfn Hre Hdone
                  | k e wait out tr Hk Hfn Hre Hdone Hrun [IHs IHo]].
  6:{ split; [| exact IHo].
      change (calls (Call k :: Sleep k wait :: tr)) with (k :: calls tr).
      intros j wt [Hj | [Hj | Hj]]; [discriminate | |].
      - injection Hj as <- <-. split; [lia | now left].
      - destruct (IHs j wt Hj). split; [lia | now right]. }
  all: split; [| discriminate].
  all: intros j wt Hin; repeat (destruct Hin as [Hin | Hin]; try discriminate).
  all: try contradiction.
  injection Hin as <- <-. split; [lia | now left].
Qed.

(** Without jitter and cancellation, retryable failures are retried to
    the last attempt. *)
Lemma run_completes (k : Z) (out : outcome) (tr : list event) :
  run config w k out tr ->
  EnableJitter config = false ->
  (forall j, ctxDone w j = false) ->
  (forall j, k <= j < MaxAttempts config -> IsRetryableError (fn w j) = true) ->
  Z.of_nat (length (calls tr)) = MaxAttempts config - k.
Proof.
  induction 1 as [k Hk Hfn | k e Hk Hfn Hre | k e Hk Hfn Hre
                  | k e Hk Hfn Hre Hjit | k e wait Hk Hfn Hre Hdone
                  | k e wait out tr Hk Hfn Hre Hdone Hrun IH];
    intros Hnj Hnc Hall.
  6:{ change (calls (Call k :: Sleep k wait :: tr)) with (k :: calls tr).
      cbn [length]. rewrite Nat2Z.inj_succ, IH; [lia | assumption ..|].
      intros j Hj. apply Hall. lia. }
  - specialize (Hall k ltac:(lia)). rewrite Hfn in Hall. discriminate.
  - specialize (Hall k ltac:(lia)). rewrite Hfn in Hall. congruence.
  - cbn. lia.
  - congruence.
  - rewrite Hnc in Hdone. discriminate.
Qed.

End RetryRuns.

(** C5.  With [MaxAttempts >= 1], whatever the operation, the random
    numbers and the context do: the operation is invoked at most
    [MaxAttempts] times; an invocation that returns nil is the last event
    and the result is nil; an invocation that returns a non-retryable
    error is the last event (no further invocation, no sleep) and the
    result wraps that error; when all [MaxAttempts] invocations are made
    and return retryable errors, the result is the max-attempts error
    wrapping the last error and the last event is the final invocation;
    no sleep ever follows attempt [MaxAttempts - 1]; the run ends.  With
    jitter off and no cancellation, retryable failures do lead to all
    [MaxAttempts] invocations. *)
Theorem RetryWithBackoff_attempts (config : rpc.RetryConfig) (w : rpc.World) :
  1 <= rpc.MaxAttempts config ->
  let N := rpc.MaxAttempts config in
  let out := (rpc.RetryWithBackoff config w).1 in
  let tr := (rpc.RetryWithBackoff config w).2 in
  Z.of_nat (length (rpc.calls tr)) <= N
  /\ (forall j, In j (rpc.calls tr) -> 0 <= j < N)
  /\ (forall j, In j (rpc.calls tr) -> rpc.fn w j = None ->
        out = rpc.Return None /\ last tr = Some (rpc.Call j))
  /\ (forall j e, In j (rpc.calls tr) -> rpc.fn w j = Some e ->
        errors.IsRetryableError (Some e) = false ->
        out = rpc.Return
                (Some (errors.Errorf "non-retryable error: %w" [] (Some e)))
        /\ last tr = Some (rpc.Call j))
  /\ (Z.of_nat (length (rpc.calls tr)) = N ->
      (forall j, In j (rpc.calls tr) ->
                 errors.IsRetryableError (rpc.fn w j) = true) ->
      out = rpc.Return
              (Some (errors.Errorf "max retry attempts (%d) exceeded: %w" [N]
                       (rpc.fn w (N - 1))))
      /\ last tr = Some (rpc.Call (N - 1)))
  /\ (forall j wait, In (rpc.Sleep j wait) tr -> j < N - 1)
  /\ out <> rpc.OutOfFuel
  /\ (rpc.EnableJitter config = false ->
      (forall j, rpc.ctxDone w j = false) ->
      (forall j, 0 <= j < N -> errors.IsRetryableError (rpc.fn w j) = true) ->
      Z.of_nat (length (rpc.calls tr)) = N).
Proof.
  intros HN N out tr.
  assert (Hrun : run config w 0 out tr).
  { apply retry_loop_run; fold N; lia. }
  destruct (run_calls config w 0 out tr Hrun) as [Hlen Hin].
  destruct (run_sleeps config w 0 out tr Hrun) as [Hsl Hfuel].
  fold N in Hlen, Hin, Hsl.
  split; [lia |]. split; [exact Hin |].
  split; [| split; [| split; [| split; [| split]]]].
  - intros j Hj Hfn.
    destruct (run_stops config w 0 out tr Hrun j Hj) as [Hlast Hout];
      [now rewrite Hfn |].
    rewrite Hfn in Hout. now split.
  - intros j e Hj Hfn Hnr.
    destruct (run_stops config w 0 out tr Hrun j Hj) as [Hlast Hout];
      [now rewrite Hfn |].
    rewrite Hfn in Hout. now split.
  - intros Hall Hre.
    destruct (run_exhausts config w 0 out tr Hrun) as [Hlast Hout];
      [fold N; lia | exact Hre |].
    now split.
  - intros j wait Hj. now apply (Hsl j wait).
  - exact Hfuel.
  - intros Hnj Hnc Hre.
    rewrite (run_completes config w 0 out tr Hrun Hnj Hnc); [fold N; lia |].
    exact Hre.
Qed.

Lemma RetryWithBackoff_attempts_witness :
  Z.of_nat (length (rpc.calls (rpc.RetryWithBackoff test_config (flaky 5)).2))
  <= 3.
Proof.
  apply (RetryWithBackoff_attempts test_config (flaky 5)). cbn. lia.
Defined.

Example retry_success_after_retries :
  rpc.RetryWithBackoff test_config (flaky 2)
  = (rpc.Return None,
     [rpc.Call 0; rpc.Sleep 0 10000000; rpc.Call 1; rpc.Sleep 1 20000000;
      rpc.Call 2]).
Proof. vm_compute. reflexivity. Qed.

Example retry_max_attempts :
  rpc.RetryWithBackoff test_config (flaky 5)
  = (rpc.Return
       (Some (errors.Errorf "max retry attempts (%d) exceeded: %w" [3]
                (Some (errors.HTTPError 504 "timeout")))),
     [rpc.Call 0; rpc.Sleep 0 10000000; rpc.Call 1; rpc.Sleep 1 20000000;
      rpc.Call 2]).
Proof. vm_compute. reflexivity. Qed.

(** ** Receipts fetch mode *)

Section Receipts.

Import types rpcapi processor.

Variable c : chainState.

Lemma matchesTopicFilter_retained (log : Log) :
  matchesTopicFilter log c = retained c log.
Proof.
  unfold matchesTopicFilter, retained.
  destruct (OptTopics (opts c)) as [| t ts]; [reflexivity |].
  cbn [length Nat.eqb].
  destruct (Topics log) as [| [s |] rest]; cbn [length Nat.eqb].
  - reflexivity.
  - reflexivity.
  - induction (topics c) as [| f fs IH]; [reflexivity |].
    cbn [existsb]. now rewrite IH.
Qed.

Lemma inner_append (logs acc : list Log) :
  fold_left
    (fun acc log => if matchesTopicFilter log c then acc ++ [log] else acc)
    logs acc
  = acc ++ List.filter (retained c) logs.
Proof.
  revert acc. induction logs as [| l logs IH]; intros acc; cbn [fold_left List.filter].
  - now rewrite app_nil_r.
  - rewrite IH, matchesTopicFilter_retained.
    destruct (retained c l); [now rewrite <- app_assoc | reflexivity].
Qed.

Lemma appendMatching_filter (receipts : list Receipt) (acc : list Log) :
  appendMatching c acc receipts
  = acc ++ List.filter (retained c) (concat (List.map Logs receipts)).
Proof.
  unfold appendMatching. revert acc.
  induction receipts as [| r receipts IH]; intros acc; cbn [fold_left List.map concat].
  - now rewrite app_nil_r.
  - rewrite IH, inner_append, List.filter_app. now rewrite <- app_assoc.
Qed.

Lemma receipts_loop_ok (to : Z) (fuel : nat) :
  forall (blockNum : Z) (acc : list Log),
    0 <= blockNum -> to + 1 < uint64.modulus ->
    to - blockNum + 1 <= Z.of_nat fuel ->
    (forall b, blockNum <= b <= to ->
               exists receipts,
                 GetBlockReceipts (chainRPC c) (utils.Uint64ToHexQty b)
                 = Ok receipts) ->
    receipts_loop c fuel blockNum to acc
    = (Fetched (acc ++ List.filter (retained c) (flattened c blockNum to)),
       List.map utils.Uint64ToHexQty (seqZ blockNum (to - blockNum + 1))).
Proof.
  induction fuel as [| fuel IH]; intros blockNum acc Hb Hto Hfuel Hok;
    cbn [receipts_loop]; destruct (Z.leb_spec blockNum to) as [Hle | Hgt];
    try lia.
  - unfold flattened. rewrite seqZ_nil by lia. cbn. now rewrite app_nil_r.
  - destruct (Hok blockNum ltac:(lia)) as [receipts Hr]. rewrite Hr.
    unfold uint64.add, uint64.wrap. unfold uint64.modulus in *.
    rewrite (Z.mod_small (blockNum + 1)) by lia.
    rewrite IH; [| lia | lia | lia | intros b Hbb; apply Hok; lia ].
    cbn [fst snd]. unfold flattened.
    rewrite (seqZ_cons blockNum (to - blockNum + 1)) by lia.
    replace (Z.pred (to - blockNum + 1)) with (to - (blockNum + 1) + 1) by lia.
    replace (Z.succ blockNum) with (blockNum + 1) by lia.
    cbn [List.map concat]. unfold receiptsAt at 2. rewrite Hr.
    rewrite appendMatching_filter, List.filter_app.
    now rewrite <- app_assoc.
  - unfold flattened. rewrite seqZ_nil by lia. cbn. now rewrite app_nil_r.
Qed.

(** A failing call ends the loop with the wrapped error. *)
Lemma receipts_loop_err (to : Z) (fuel : nat) :
  forall (blockNum bad : Z) (acc : list Log) (e : errors.error),
    0 <= blockNum -> to + 1 < uint64.modulus ->
    blockNum <= bad <= to ->
    bad - blockNum + 1 <= Z.of_nat fuel ->
    (forall b, blockNum <= b < bad ->
               exists receipts,
                 GetBlockReceipts (chainRPC c) (utils.Uint64ToHexQty b)
                 = Ok receipts) ->
    GetBlockReceipts (chainRPC c) (utils.Uint64ToHexQty bad) = Err e ->
    receipts_loop c fuel blockNum to acc
    = (FetchFailed
         (errors.Errorf "failed to get receipts for block %d: %w" [bad] (Some e)),
       List.map utils.Uint64ToHexQty (seqZ blockNum (bad - blockNum + 1))).
Proof.
  induction fuel as [| fuel IH]; intros blockNum bad acc e Hb Hto Hbad Hfuel Hok He;
    [lia |].
  cbn [receipts_loop]. destruct (Z.leb_spec blockNum to) as [Hle | Hgt]; [| lia].
  destruct (Z.eq_dec blockNum bad) as [-> | Hne].
  - rewrite He. replace (bad - bad + 1) with 1 by lia. reflexivity.
  - destruct (Hok blockNum ltac:(lia)) as [receipts Hr]. rewrite Hr.
    unfold uint64.add, uint64.wrap. unfold uint64.modulus in *.
    rewrite (Z.mod_small (blockNum + 1)) by lia.
    rewrite (IH (blockNum + 1) bad _ e);
      [| lia | lia | lia | lia | intros b Hbb; apply Hok; lia | exact He ].
    cbn [fst snd].
    rewrite (seqZ_cons blockNum (bad - blockNum + 1)) by lia.
    replace (Z.pred (bad - blockNum + 1)) with (bad - (blockNum + 1) + 1) by lia.
    replace (Z.succ blockNum) with (blockNum + 1) by lia.
    reflexivity.
Qed.

(** At the top of the [uint64] range the block counter wraps to zero and
    the loop goes on. *)
Lemma receipts_loop_wraps (fuel : nat) :
  (forall s, exists receipts, GetBlockReceipts (chainRPC c) s = Ok receipts) ->
  forall (blockNum : Z) (acc : list Log),
    0 <= blockNum < uint64.modulus ->
    (receipts_loop c fuel blockNum uint64.max acc).1 = FetchRunning.
Proof.
  intros Hok. induction fuel as [| fuel IH]; intros blockNum acc Hb;
    cbn [receipts_loop]; unfold uint64.max at 1;
    destruct (Z.leb_spec blockNum (uint64.modulus - 1)); try lia;
    [reflexivity |].
  destruct (Hok (utils.Uint64ToHexQty blockNum)) as [receipts ->].
  cbn [fst]. apply IH. unfold uint64.add, uint64.wrap.
  apply Z.mod_pos_bound. unfold uint64.modulus. lia.
Qed.

End Receipts.

(** C8, as amended.  In receipts mode, for a range [[from, to]] with
    [to < 2^64 - 1], [fetchLogsFromReceipts] calls [GetBlockReceipts] for
    the blocks [from, from + 1, ...] in ascending order.  When every call
    succeeds it stops after block [to] and returns the logs of all
    receipts of all blocks, in order, restricted to those retained by the
    filter: every log when no topic is configured, otherwise the logs
    whose first topic is a string equal to an entry of the canonical topic
    list.  When the call for a block fails it stops there and returns the
    error, wrapped. *)
Theorem fetchLogsFromReceipts_filters
        (c : processor.chainState) (from to : Z) :
  0 <= from -> to + 1 < uint64.modulus ->
  ((forall b, from <= b <= to ->
              exists receipts,
                rpcapi.GetBlockReceipts (processor.chainRPC c)
                  (utils.Uint64ToHexQty b) = rpcapi.Ok receipts) ->
   forall fuel : nat,
     to - from + 1 <= Z.of_nat fuel ->
     processor.fetchLogsFromReceipts fuel from to c
     = (processor.Fetched (List.filter (retained c) (flattened c from to)),
        List.map utils.Uint64ToHexQty (seqZ from (to - from + 1))))
  /\ (forall (bad : Z) (e : errors.error),
         from <= bad <= to ->
         (forall b, from <= b < bad ->
                    exists receipts,
                      rpcapi.GetBlockReceipts (processor.chainRPC c)
                        (utils.Uint64ToHexQty b) = rpcapi.Ok receipts) ->
         rpcapi.GetBlockReceipts (processor.chainRPC c)
           (utils.Uint64ToHexQty bad) = rpcapi.Err e ->
         forall fuel : nat,
           bad - from + 1 <= Z.of_nat fuel ->
           processor.fetchLogsFromReceipts fuel from to c
           = (processor.FetchFailed
                (errors.Errorf "failed to get receipts for block %d: %w"
                   [bad] (Some e)),
              List.map utils.Uint64ToHexQty (seqZ from (bad - from + 1))))
  /\ (forall log, processor.matchesTopicFilter log c = retained c log).
Proof.
  intros Hfrom Hto. split; [| split].
  - intros Hok fuel Hfuel. unfold processor.fetchLogsFromReceipts.
    now rewrite (receipts_loop_ok c to fuel from []).
  - intros bad e Hbad Hok He fuel Hfuel. unfold processor.fetchLogsFromReceipts.
    now apply receipts_loop_err.
  - apply matchesTopicFilter_retained.
Qed.

Lemma fetchLogsFromReceipts_filters_witness :
  processor.fetchLogsFromReceipts 2 5 6 (receipts_chain 4)
  = (processor.Fetched
       (List.filter (retained (receipts_chain 4))
                    (flattened (receipts_chain 4) 5 6)),
     List.map utils.Uint64ToHexQty (seqZ 5 (6 - 5 + 1))).
Proof.
  apply (fetchLogsFromReceipts_filters (receipts_chain 4) 5 6).
  - lia.
  - unfold uint64.modulus. lia.
  - intros b Hb. eexists. reflexivity.
  - cbn. lia.
Defined.

Example fetchLogsFromReceipts_sample :
  processor.fetchLogsFromReceipts 2 5 6 (receipts_chain 4)
  = (processor.Fetched
       [ log_of "0xabc" [types.AnyString transfer_topic];
         log_of "0xabc" [types.AnyString transfer_topic] ],
     ["0x5"; "0x6"]%string).
Proof. vm_compute. reflexivity. Qed.

(** The claim as stated fails for the range [[2^64 - 1, 2^64 - 1]]: with
    an endpoint that always answers, the block counter wraps and the
    function never returns. *)
Lemma fetchLogsFromReceipts_wrap_counterexample :
  ~ exists (fuel : nat) (logs : list types.Log) (requests : list string),
      processor.fetchLogsFromReceipts fuel
        18446744073709551615 18446744073709551615 (receipts_chain 0)
      = (processor.Fetched logs, requests).
Proof.
  intros (fuel & logs & requests & Hrun).
  pose proof (receipts_loop_wraps (receipts_chain 0) fuel
                ltac:(intros s; eexists; reflexivity)
                18446744073709551615 []
                ltac:(unfold uint64.modulus; lia)) as Hwrap.
  unfold processor.fetchLogsFromReceipts in Hrun.
  change uint64.max with 18446744073709551615 in Hwrap.
  rewrite Hrun in Hwrap. discriminate.
Qed.

(** ** The arbiter at genesis *)

Section Genesis.

Import types rpcapi processor.

Variable fetchHeader : string -> result Block.
Variable rpcCtxErr : nat -> bool.
Variable sendDone : nat -> bool.
Variable ctxDone : Z -> bool.

Lemma commit_body_genesis (a : arbiter) (end_ : Z) (header : Block) :
  next a = 0 -> fetchHeader "0x0" = Ok header ->
  commit_body fetchHeader rpcCtxErr sendDone ctxDone a end_ = Waiting a.
Proof.
  intros Hnext Hhdr. unfold commit_body. rewrite Hnext.
  change (utils.Uint64ToHexQty 0) with "0x0"%string. now rewrite Hhdr.
Qed.

End Genesis.

(** C7.  What the commit loop does at genesis: when [next] is 0, the
    window starting at 0 is pending and its header is fetched, the loop is
    left by [break] with the arbiter unchanged: no log is sent, the cursor
    does not move, no hash is stored, and the window stays pending. *)
Theorem arbiter_genesis_break
        (fetchHeader : string -> rpcapi.result types.Block)
        (rpcCtxErr sendDone : nat -> bool) (ctxDone : Z -> bool)
        (a : processor.arbiter) (end_ : Z) (header : types.Block)
        (fuel : nat) :
  processor.next a = 0 ->
  processor.window a !! 0 = Some end_ ->
  fetchHeader "0x0"%string = rpcapi.Ok header ->
  processor.commit_loop fetchHeader rpcCtxErr sendDone ctxDone (S fuel) a
  = processor.Waiting a.
Proof.
  intros Hnext Hwin Hhdr. cbn [processor.commit_loop].
  rewrite Hnext at 1. rewrite Hwin.
  now rewrite (commit_body_genesis fetchHeader rpcCtxErr sendDone ctxDone
                 a end_ header Hnext Hhdr).
Qed.

Lemma arbiter_genesis_break_witness :
  processor.commit_loop any_header (fun _ => false) (fun _ => false)
    (fun _ => false) 1 genesis_arbiter
  = processor.Waiting genesis_arbiter.
Proof.
  apply (arbiter_genesis_break any_header (fun _ => false) (fun _ => false)
           (fun _ => false) genesis_arbiter 9
           {| types.Number := "0x0"; types.Hash := "hash-0x0";
              types.ParentHash := "parent"; types.Timestamp := "0x0" |} 0).
  - reflexivity.
  - reflexivity.
  - reflexivity.
Defined.

(** The same window one block later is committed. *)
Example arbiter_commits_after_genesis :
  match processor.receive any_header (fun _ => false) (fun _ => false)
          (fun _ => false) 2 1 9
          [log_of "0xabc" [types.AnyString transfer_topic]]
          {| processor.window := ∅; processor.windowLogs := ∅;
             processor.next := 1;
             processor.chain := chain_of 0 10 8 [] ∅ no_rpc;
             processor.logsCh := []; processor.errCh := None |} with
  | processor.Waiting a =>
      processor.cursor (processor.chain a) = 9
      /\ length (processor.logsCh a) = 1%nat
      /\ processor.windowOrder (processor.chain a) = [9]
  | _ => False
  end.
Proof. vm_compute. repeat split. Qed.

(* ================================================================== *)
(** * Further properties *)

(** ** The window-hash store: lookups, eviction, repeated trims *)

Section StoreMore.

Import processor.

Lemma drop_loop_stops (order : list Z) (after : Z) (n : nat)
      (m : gmap Z string) :
  (n = 0%nat \/ exists k, order !! (n - 1)%nat = Some k /\ k <= after) ->
  drop_loop n order m after = (n, m).
Proof.
  intros [-> | (k & Hk & Hle)]; [reflexivity |].
  destruct n as [| i]; [reflexivity |].
  cbn [drop_loop]. cbn in Hk. rewrite Nat.sub_0_r in Hk. rewrite Hk.
  destruct (Z.ltb_spec after k); [lia | reflexivity].
Qed.

(** The loop only deletes: what is left was there, with the same hash. *)
Lemma drop_loop_subseteq (order : list Z) (after : Z) (n : nat) :
  forall (m : gmap Z string) (k : Z) (v : string),
    (drop_loop n order m after).2 !! k = Some v -> m !! k = Some v.
Proof.
  induction n as [| i IH]; intros m k v; cbn [drop_loop]; [tauto |].
  destruct (order !! i) as [x |]; [| tauto].
  destruct (Z.ltb_spec after x) as [Hgt | Hle]; [| tauto].
  intros Hk. apply IH in Hk. apply lookup_delete_Some in Hk. tauto.
Qed.

Lemma dropWindowHash_shrinks (after : Z) (c : chainState) :
  windowOrder (dropWindowHash after c) `prefix_of` windowOrder c
  /\ (forall k v, storedWindowHash (dropWindowHash after c) !! k = Some v ->
                  storedWindowHash c !! k = Some v)
  /\ cursor (dropWindowHash after c) = cursor c
  /\ storedWindowHashCap (dropWindowHash after c) = storedWindowHashCap c.
Proof.
  unfold dropWindowHash.
  pose proof (drop_loop_subseteq (windowOrder c) after (length (windowOrder c))
                (storedWindowHash c)) as Hsub.
  destruct (drop_loop _ _ _ _) as [n' m']. cbn [snd] in Hsub.
  cbn [set_window windowOrder storedWindowHash cursor storedWindowHashCap].
  repeat split; [apply prefix_take | exact Hsub].
Qed.

End StoreMore.



(** X2.  Trimming twice at the same height is trimming once, and trimming
    does nothing when the newest entry is not above the height. *)
Theorem dropWindowHash_idempotent (after : Z) (c : processor.chainState) :
  processor.dropWindowHash after (processor.dropWindowHash after c)
  = processor.dropWindowHash after c
  /\ ((forall k, last (processor.windowOrder c) = Some k -> k <= after) ->
      processor.dropWindowHash after c = c).
Proof.
  split.
  - unfold processor.dropWindowHash at 2 3.
    pose proof (drop_loop_trim (processor.windowOrder c) after
                  (length (processor.windowOrder c))
                  (processor.storedWindowHash c) ltac:(lia)) as H.
    destruct (processor.drop_loop _ _ _ _) as [n' m'].
    destruct H as (Hn & _ & _ & _ & Hstop).
    unfold processor.dropWindowHash.
    cbn [processor.set_window processor.windowOrder processor.storedWindowHash].
    rewrite length_take_le by lia.
    rewrite drop_loop_stops.
    + now rewrite take_take, Nat.min_id.
    + destruct Hstop as [-> | (k & Hk & Hle)]; [now left |].
      destruct n' as [| i]; [now left | right].
      exists k. split; [| exact Hle].
      rewrite lookup_take_lt; [exact Hk | lia].
  - intros Hlast. unfold processor.dropWindowHash.
    rewrite drop_loop_stops.
    + rewrite firstn_all. now destruct c.
    + destruct (processor.windowOrder c) as [| x l] eqn:Ho using rev_ind;
        [now left | right].
      clear IHl. rewrite last_snoc in Hlast. exists x.
      split; [| now apply Hlast].
      rewrite length_app. cbn [length].
      replace (length l + 1 - 1)%nat with (length l + 0)%nat by lia.
      now rewrite lookup_app_r, Nat.add_0_r, Nat.sub_diag by lia.
Qed.

(** X3.  On the state [AddChain] creates, no sequence of
    [storeWindowHash] and [dropWindowHash] calls panics, and each leaves at
    most 256 hashes stored, as many as [windowOrder] is long. *)
Theorem store_never_panics
        (Keccak256 : list Byte.byte -> list Byte.byte)
        (r : rpcapi.RPC) (o : processor.Options) (c : processor.chainState)
        (ops : list store_op) :
  processor.AddChain Keccak256 false r o = processor.Added c ->
  exists c',
    run_ops ops c = Some c'
    /\ store_inv c'
    /\ (size (processor.storedWindowHash c') <= 256)%nat
    /\ length (processor.windowOrder c') = size (processor.storedWindowHash c').
Proof.
  intros Hadd. apply AddChain_store_inv in Hadd as [Hinv Hcap].
  revert c Hinv Hcap. induction ops as [| [to_ hash | after] ops IH];
    intros c Hinv Hcap; cbn [run_ops].
  - exists c. split; [reflexivity |]. split; [exact Hinv |].
    destruct Hinv as (Hlen & _ & Hsz). split; [lia | exact Hlen].
  - destruct (storeWindowHash_inv to_ hash c ltac:(lia) Hinv)
      as (c1 & -> & Hinv1 & Hcap1 & _).
    apply IH; [exact Hinv1 | now rewrite Hcap1].
  - destruct (dropWindowHash_inv after c Hinv) as (Hinv1 & _ & Hcap1).
    apply IH; [exact Hinv1 | now rewrite Hcap1].
Qed.

Lemma store_never_panics_witness :
  exists c c',
    processor.AddChain zero_digest false no_rpc (options_of 10 64)
    = processor.Added c
    /\ run_ops [OpStore 10 "h10"; OpStore 20 "h20"; OpDrop 10; OpStore 20 "h20'"] c
       = Some c'
    /\ processor.windowOrder c' = [10; 20].
Proof.
  eexists.
  destruct (store_never_panics zero_digest no_rpc (options_of 10 64) _
              [OpStore 10 "h10"; OpStore 20 "h20"; OpDrop 10; OpStore 20 "h20'"]
              eq_refl) as (c' & Hrun & _).
  exists c'. split; [reflexivity |]. split; [exact Hrun |].
  vm_compute in Hrun. now injection Hrun as <-.
Defined.

(** ** The reorg resolver on every path *)

Section ResolverMore.

Import types rpcapi processor.

Variable ctxDone : Z -> bool.
Variable c : chainState.

Hypothesis cursor_range : 0 <= cursor c < uint64.modulus.
Hypothesis cap_range : storedWindowHashCap c < uint64.modulus.
Hypothesis fallback_nonneg : 0 <= hardFallbackBlocks c.

Lemma fallbackOf_bounds : 0 <= fallbackOf c <= cursor c.
Proof using All.
  unfold fallbackOf. unfold uint64.modulus in *.
  destruct (Z.ltb_spec (hardFallbackBlocks c) (cursor c)); [| lia].
  unfold uint64.sub, uint64.wrap, uint64.modulus.
  rewrite Z.mod_small by lia. lia.
Qed.

(** The search ends, and what it finds lies between 0 and the cursor. *)
Lemma reorg_loop_bounded (fuel : nat) :
  forall i a : Z,
    0 <= i -> 0 <= a <= cursor c ->
    storedWindowHashCap c - i <= Z.of_nat fuel ->
    match reorg_loop ctxDone c fuel i a with
    | Found x => 0 <= x <= cursor c
    | Untrimmed fb => fb = fallbackOf c
    | Exhausted => True
    | Running => False
    end.
Proof using All.
  induction fuel as [| fuel IH]; intros i a Hi Ha Hfuel; cbn [reorg_loop];
    destruct (Z.ltb_spec i (storedWindowHashCap c)); try lia; try exact I.
  destruct (GetBlock _ _) as [header | e]; [| reflexivity].
  destruct (String.eqb _ _); [exact Ha |].
  pose proof (Z.mod_pos_bound (RangeSize (opts c)) uint64.modulus
                ltac:(unfold uint64.modulus; lia)) as Hrs.
  fold (uint64.wrap (RangeSize (opts c))) in Hrs.
  destruct (Z.ltb_spec a (uint64.wrap (RangeSize (opts c)))); [exact I |].
  destruct (ctxDone i); [reflexivity |].
  unfold uint64.modulus in *.
  apply IH.
  - unfold uint64.add, uint64.wrap. apply Z.mod_pos_bound.
    unfold uint64.modulus. lia.
  - unfold uint64.sub. unfold uint64.wrap at 1 3. unfold uint64.modulus.
    rewrite Z.mod_small by lia. lia.
  - unfold uint64.add, uint64.wrap, uint64.modulus.
    rewrite Z.mod_small by lia. lia.
Qed.

(** The search stops at the first height whose header cannot be fetched,
    or at which the context is found done, after heights that were
    fetched and did not match. *)
Lemma reorg_loop_untrimmed (pre : list Z) :
  forall (fuel : nat) (i a x : Z) (post : list Z),
    0 <= i -> 0 <= a <= cursor c ->
    storedWindowHashCap c - i <= Z.of_nat fuel ->
    candidates (Z.to_nat (storedWindowHashCap c - i)) a
      (uint64.wrap (RangeSize (opts c))) = pre ++ x :: post ->
    (forall y, In y pre ->
       exists header,
         GetBlock (chainRPC c) (utils.Uint64ToHexQty (uint64.add y 1))
         = Ok header
         /\ String.eqb (ParentHash header) (hashAt c y) = false) ->
    (forall j, i <= j < i + Z.of_nat (length pre) -> ctxDone j = false) ->
    ((exists e,
         GetBlock (chainRPC c) (utils.Uint64ToHexQty (uint64.add x 1)) = Err e)
     \/ (exists header,
           GetBlock (chainRPC c) (utils.Uint64ToHexQty (uint64.add x 1))
           = Ok header
           /\ String.eqb (ParentHash header) (hashAt c x) = false
           /\ uint64.wrap (RangeSize (opts c)) <= x
           /\ ctxDone (i + Z.of_nat (length pre)) = true)) ->
    reorg_loop ctxDone c fuel i a = Untrimmed (fallbackOf c).
Proof using All.
  induction pre as [| y pre IH];
    intros fuel i a x post Hi Ha Hfuel Hcands Hpre Hnc Hstop.
  - destruct (Z.to_nat (storedWindowHashCap c - i)) as [| n] eqn:Hn;
      [discriminate |].
    cbn [candidates app] in Hcands. injection Hcands as <- _.
    destruct fuel as [| fuel]; [lia |]. cbn [reorg_loop].
    destruct (Z.ltb_spec i (storedWindowHashCap c)); [| lia].
    destruct Hstop as [[e ->] | (header & -> & Hneq & Hrs & Hdone)];
      [reflexivity |].
    rewrite Hneq. destruct (Z.ltb_spec a (uint64.wrap (RangeSize (opts c))));
      [lia |].
    cbn [length] in Hdone. rewrite Z.add_0_r in Hdone. now rewrite Hdone.
  - destruct (Z.to_nat (storedWindowHashCap c - i)) as [| n] eqn:Hn;
      [discriminate |].
    cbn [candidates app] in Hcands. injection Hcands as <- Htail.
    destruct fuel as [| fuel]; [lia |]. cbn [reorg_loop].
    destruct (Z.ltb_spec i (storedWindowHashCap c)); [| lia].
    destruct (Hpre a (or_introl eq_refl)) as (header & -> & ->).
    destruct (Z.ltb_spec a (uint64.wrap (RangeSize (opts c)))) as [Hlt | Hge];
      [destruct pre; discriminate |].
    pose proof (Z.mod_pos_bound (RangeSize (opts c)) uint64.modulus
                  ltac:(unfold uint64.modulus; lia)) as Hrs.
    fold (uint64.wrap (RangeSize (opts c))) in Hrs.
    rewrite (Hnc i) by (cbn [length]; lia).
    assert (Hi1 : uint64.add i 1 = i + 1).
    { unfold uint64.add, uint64.wrap. unfold uint64.modulus in *.
      apply Z.mod_small. lia. }
    assert (Ha1 : uint64.sub a (uint64.wrap (RangeSize (opts c)))
                  = a - uint64.wrap (RangeSize (opts c))).
    { unfold uint64.sub. unfold uint64.wrap at 1. unfold uint64.modulus in *.
      apply Z.mod_small. lia. }
    rewrite Hi1, Ha1.
    apply (IH fuel (i + 1) _ x post); try lia.
    + replace (Z.to_nat (storedWindowHashCap c - (i + 1))) with n by lia.
      exact Htail.
    + intros z Hz. apply Hpre. now right.
    + intros j Hj. apply Hnc. cbn [length]. lia.
    + cbn [length] in Hstop.
      replace (i + 1 + Z.of_nat (length pre))
        with (i + Z.of_nat (S (length pre))) by lia.
      exact Hstop.
Qed.

End ResolverMore.

(** The resolver ends and stays within bounds on every path. *)
Lemma handleReorg_ends
        (ctxDone : Z -> bool) (c : processor.chainState) (fuel : nat) :
  0 <= processor.cursor c < uint64.modulus ->
  processor.storedWindowHashCap c < uint64.modulus ->
  0 <= processor.hardFallbackBlocks c ->
  processor.storedWindowHashCap c <= Z.of_nat fuel ->
  exists (a : Z) (c' : processor.chainState),
    processor.handleReorg ctxDone c fuel = Some (a, c')
    /\ 0 <= a <= processor.cursor c
    /\ processor.cursor c' = processor.cursor c
    /\ processor.windowOrder c' `prefix_of` processor.windowOrder c
    /\ (forall k v, processor.storedWindowHash c' !! k = Some v ->
                    processor.storedWindowHash c !! k = Some v).
Proof.
  intros Hcur Hcap Hhfb Hfuel.
  pose proof (reorg_loop_bounded ctxDone c Hcur Hcap Hhfb fuel 0
                (processor.cursor c) ltac:(lia) ltac:(lia) ltac:(lia)) as Hloop.
  pose proof (fallbackOf_bounds ctxDone c Hcur Hcap Hhfb) as Hfb.
  unfold processor.handleReorg.
  destruct (processor.reorg_loop ctxDone c fuel 0 (processor.cursor c))
    as [x | fb | |]; [| | | contradiction].
  - destruct (dropWindowHash_shrinks x c) as (Hp & Hs & Hc & _).
    exists x, (processor.dropWindowHash x c). now repeat split.
  - subst fb. exists (processor.fallbackOf c), c.
    repeat split; try lia; auto.
  - cbn zeta.
    destruct (Z.leb_spec (processor.fallbackOf c) 0).
    + destruct (dropWindowHash_shrinks 0 c) as (Hp & Hs & Hc & _).
      exists 0, (processor.dropWindowHash 0 c). repeat split; try lia; auto.
    + destruct (dropWindowHash_shrinks (processor.fallbackOf c) c)
        as (Hp & Hs & Hc & _).
      exists (processor.fallbackOf c),
        (processor.dropWindowHash (processor.fallbackOf c) c).
      repeat split; try lia; auto.
Qed.


(** X4.  Whatever the endpoint answers and whenever the context is done,
    [handleReorg] ends within [storedWindowHashCap] iterations; the value
    it returns lies between 0 and the cursor; it leaves the cursor field
    alone and never adds or changes a stored hash: [windowOrder] is cut to
    a prefix and every hash still stored was stored before. *)
Theorem handleReorg_bounded
        (ctxDone : Z -> bool) (c : processor.chainState) (fuel : nat) :
  0 <= processor.cursor c < uint64.modulus ->
  processor.storedWindowHashCap c < uint64.modulus ->
  0 <= processor.hardFallbackBlocks c ->
  processor.storedWindowHashCap c <= Z.of_nat fuel ->
  exists (a : Z) (c' : processor.chainState),
    processor.handleReorg ctxDone c fuel = Some (a, c')
    /\ 0 <= a <= processor.cursor c
    /\ processor.cursor c' = processor.cursor c
    /\ processor.windowOrder c' `prefix_of` processor.windowOrder c
    /\ (forall k v, processor.storedWindowHash c' !! k = Some v ->
                    processor.storedWindowHash c !! k = Some v).
Proof. apply handleReorg_ends. Qed.

Lemma handleReorg_bounded_witness :
  exists (a : Z) (c' : processor.chainState),
    processor.handleReorg (fun i => 1 <=? i) unsorted 8 = Some (a, c')
    /\ 0 <= a <= 50.
Proof.
  destruct (handleReorg_bounded (fun i => 1 <=? i) unsorted 8)
    as (a & c' & Hrun & Ha & _).
  - unfold uint64.modulus. cbn. lia.
  - unfold uint64.modulus. cbn. lia.
  - cbn. lia.
  - cbn. lia.
  - exists a, c'. split; [exact Hrun | exact Ha].
Defined.

(** X5.  When the search, after heights whose headers were fetched and
    did not match, meets a header fetch that fails or finds the context
    done, [handleReorg] returns max(cursor - hardFallbackBlocks, 0) and
    leaves the store as it was: nothing is trimmed, so hashes above the
    value returned stay stored. *)
Theorem handleReorg_untrimmed
        (ctxDone : Z -> bool) (c : processor.chainState) (fuel : nat)
        (pre post : list Z) (x : Z) :
  0 <= processor.cursor c < uint64.modulus ->
  processor.storedWindowHashCap c < uint64.modulus ->
  0 <= processor.hardFallbackBlocks c ->
  processor.storedWindowHashCap c <= Z.of_nat fuel ->
  candidates (Z.to_nat (processor.storedWindowHashCap c)) (processor.cursor c)
    (uint64.wrap (processor.RangeSize (processor.opts c)))
  = pre ++ x :: post ->
  (forall y, In y pre ->
     exists header,
       rpcapi.GetBlock (processor.chainRPC c)
         (utils.Uint64ToHexQty (uint64.add y 1)) = rpcapi.Ok header
       /\ String.eqb (types.ParentHash header) (processor.hashAt c y) = false) ->
  (forall j, 0 <= j < Z.of_nat (length pre) -> ctxDone j = false) ->
  ((exists e,
       rpcapi.GetBlock (processor.chainRPC c)
         (utils.Uint64ToHexQty (uint64.add x 1)) = rpcapi.Err e)
   \/ (exists header,
         rpcapi.GetBlock (processor.chainRPC c)
           (utils.Uint64ToHexQty (uint64.add x 1)) = rpcapi.Ok header
         /\ String.eqb (types.ParentHash header) (processor.hashAt c x) = false
         /\ uint64.wrap (processor.RangeSize (processor.opts c)) <= x
         /\ ctxDone (Z.of_nat (length pre)) = true)) ->
  processor.handleReorg ctxDone c fuel
  = Some (Z.max (processor.cursor c - processor.hardFallbackBlocks c) 0, c).
Proof.
  intros Hcur Hcap Hhfb Hfuel Hcands Hpre Hnc Hstop.
  unfold processor.handleReorg.
  rewrite (reorg_loop_untrimmed ctxDone c Hcur Hcap Hhfb pre fuel 0
             (processor.cursor c) x post); try lia.
  - do 2 f_equal. unfold processor.fallbackOf. unfold uint64.modulus in *.
    destruct (Z.ltb_spec (processor.hardFallbackBlocks c) (processor.cursor c));
      [| lia].
    unfold uint64.sub, uint64.wrap, uint64.modulus.
    rewrite Z.mod_small by lia. lia.
  - now rewrite Z.sub_0_r.
  - exact Hpre.
  - intros j Hj. apply Hnc. lia.
  - exact Hstop.
Qed.

Lemma handleReorg_untrimmed_witness :
  processor.handleReorg (fun _ => false) stale 8 = Some (0, stale).
Proof.
  apply (handleReorg_untrimmed (fun _ => false) stale 8 [40] [20; 10; 0] 30).
  - unfold uint64.modulus. cbn. lia.
  - unfold uint64.modulus. cbn. lia.
  - cbn. lia.
  - cbn. lia.
  - reflexivity.
  - intros y [<- | []]. eexists. split; reflexivity.
  - reflexivity.
  - left. eexists. reflexivity.
Defined.

(** ** The arbiter: commits, order, cancellation, failures *)

Section ArbiterMore.

Import types rpcapi processor.

Variable fetchHeader : string -> result Block.
Variable rpcCtxErr : nat -> bool.
Variable sendDone : nat -> bool.
Variable ctxDone : Z -> bool.

Lemma send_all_sent (logs : list Log) :
  forall (j : nat) (out : list Log),
    (forall i, (j <= i < j + length logs)%nat -> sendDone i = false) ->
    send_all sendDone j logs out = (out ++ logs, false).
Proof.
  induction logs as [| l logs IH]; intros j out Hnc; cbn [send_all].
  - now rewrite app_nil_r.
  - rewrite (Hnc j) by (cbn [length]; lia).
    rewrite IH; [now rewrite <- app_assoc |].
    intros i Hi. apply Hnc. cbn [length]. lia.
Qed.

Lemma send_all_cut (logs : list Log) :
  forall (j n : nat) (out : list Log),
    (n < length logs)%nat ->
    (forall i, (j <= i < j + n)%nat -> sendDone i = false) ->
    sendDone (j + n)%nat = true ->
    send_all sendDone j logs out = (out ++ take n logs, true).
Proof.
  induction logs as [| l logs IH]; intros j n out Hn Hnc Hdone;
    [cbn in Hn; lia |].
  cbn [send_all]. destruct n as [| n].
  - rewrite Nat.add_0_r in Hdone. rewrite Hdone. cbn. now rewrite app_nil_r.
  - rewrite (Hnc j) by lia.
    rewrite (IH (S j) n); [cbn [take]; now rewrite <- app_assoc | | |].
    + cbn [length] in Hn. lia.
    + intros i Hi. apply Hnc. lia.
    + now replace (S j + n)%nat with (j + S n)%nat by lia.
Qed.

Lemma commit_body_check (a : arbiter) (end_ : Z) (header : Block) :
  next a <> 0 ->
  fetchHeader (utils.Uint64ToHexQty (next a)) = Ok header ->
  parent_ok a header ->
  commit_body fetchHeader rpcCtxErr sendDone ctxDone a end_
  = commit fetchHeader rpcCtxErr sendDone a end_.
Proof.
  intros Hnext Hhdr Hparent. unfold commit_body. rewrite Hhdr.
  destruct (Z.eqb_spec (next a) 0); [contradiction |].
  destruct (storedWindowHash (chain a) !! uint64.sub (next a) 1)
    as [parent |] eqn:Hp; [| reflexivity].
  rewrite (Hparent parent Hp), String.eqb_refl. reflexivity.
Qed.

Lemma commit_body_commits (a : arbiter) (end_ : Z) (header tail : Block)
      (c' : chainState) :
  next a <> 0 ->
  fetchHeader (utils.Uint64ToHexQty (next a)) = Ok header ->
  parent_ok a header ->
  (forall j, sendDone j = false) ->
  fetchHeader (utils.Uint64ToHexQty end_) = Ok tail ->
  storeWindowHash end_ (Hash tail) (set_cursor end_ (chain a)) = Some c' ->
  commit_body fetchHeader rpcCtxErr sendDone ctxDone a end_
  = Again {| window := delete (next a) (window a);
             windowLogs := delete (next a) (windowLogs a);
             next := uint64.add end_ 1;
             chain := c';
             logsCh := logsCh a ++ default [] (windowLogs a !! next a);
             errCh := errCh a |}.
Proof.
  intros Hnext Hhdr Hparent Hnc Htail Hstore.
  rewrite (commit_body_check a end_ header Hnext Hhdr Hparent).
  unfold commit. rewrite send_all_sent by (intros; apply Hnc).
  rewrite Htail. cbn [chain]. rewrite Hstore. reflexivity.
Qed.

Lemma set_cursor_store_inv (x : Z) (c : chainState) :
  store_inv c -> store_inv (set_cursor x c).
Proof. intros H. exact H. Qed.

End ArbiterMore.

(** X6.  A commit.  When the window [next -> end] is pending with
    [next <> 0], both header fetches succeed, the stored hash of block
    [next - 1], if there is one, is the parent hash of block [next], and
    the epoch is not cancelled, one pass of the commit loop sends the
    window's logs in their order after those already sent, moves the
    cursor to [end] and [next] to [end + 1], removes the window from the
    pending maps and stores the hash of block [end].  Without a stored
    hash for [next - 1] the window is committed unchecked. *)
Theorem arbiter_commit
        (fetchHeader : string -> rpcapi.result types.Block)
        (rpcCtxErr sendDone : nat -> bool) (ctxDone : Z -> bool)
        (a : processor.arbiter) (end_ : Z) (header tail : types.Block) :
  processor.next a <> 0 ->
  fetchHeader (utils.Uint64ToHexQty (processor.next a)) = rpcapi.Ok header ->
  (forall parent,
      processor.storedWindowHash (processor.chain a)
        !! uint64.sub (processor.next a) 1 = Some parent ->
      types.ParentHash header = parent) ->
  (forall j, sendDone j = false) ->
  fetchHeader (utils.Uint64ToHexQty end_) = rpcapi.Ok tail ->
  1 <= processor.storedWindowHashCap (processor.chain a) ->
  store_inv (processor.chain a) ->
  exists a',
    processor.commit_body fetchHeader rpcCtxErr sendDone ctxDone a end_
    = processor.Again a'
    /\ processor.logsCh a'
       = processor.logsCh a
         ++ default [] (processor.windowLogs a !! processor.next a)
    /\ processor.cursor (processor.chain a') = end_
    /\ processor.next a' = uint64.add end_ 1
    /\ processor.window a' = delete (processor.next a) (processor.window a)
    /\ processor.windowLogs a'
       = delete (processor.next a) (processor.windowLogs a)
    /\ processor.storedWindowHash (processor.chain a') !! end_
       = Some (types.Hash tail)
    /\ processor.errCh a' = processor.errCh a
    /\ store_inv (processor.chain a').
Proof.
  intros Hnext Hhdr Hparent Hnc Htail Hcap Hinv.
  destruct (storeWindowHash_inv end_ (types.Hash tail)
              (processor.set_cursor end_ (processor.chain a)) Hcap
              (set_cursor_store_inv end_ _ Hinv))
    as (c' & Hstore & Hinv' & _ & Hlook & Horder).
  eexists. split.
  - apply (commit_body_commits fetchHeader rpcCtxErr sendDone ctxDone
             a end_ header tail c'); assumption.
  - cbn [processor.logsCh processor.chain processor.next processor.window
         processor.windowLogs processor.errCh].
    split; [reflexivity |]. split.
    { clear - Hstore. unfold processor.storeWindowHash in Hstore.
      cbn [processor.set_cursor processor.storedWindowHash
           processor.windowOrder processor.storedWindowHashCap] in Hstore.
      repeat match type of Hstore with
             | match ?x with _ => _ end = _ => destruct x
             | (if ?x then _ else _) = _ => destruct x
             end;
        try discriminate; injection Hstore as <-; reflexivity. }
    split; [reflexivity |]. split; [reflexivity |]. split; [reflexivity |].
    split; [exact Hlook |]. split; [reflexivity | exact Hinv'].
Qed.

Lemma arbiter_commit_witness :
  exists a',
    processor.commit_body linear_header (fun _ => false) (fun _ => false)
      (fun _ => false) pending_arbiter 10 = processor.Again a'
    /\ length (processor.logsCh a') = 2%nat
    /\ processor.cursor (processor.chain a') = 10.
Proof.
  destruct (arbiter_commit linear_header (fun _ => false) (fun _ => false)
              (fun _ => false) pending_arbiter 10
              (linear_block "0x1") (linear_block "0xa"))
    as (a' & Hrun & Hlogs & Hcur & _).
  - cbn. lia.
  - reflexivity.
  - intros parent Hp. vm_compute in Hp. discriminate.
  - reflexivity.
  - reflexivity.
  - cbn. lia.
  - split; [reflexivity |]. split; [| vm_compute; discriminate].
    intros k. cbn. rewrite lookup_empty. split.
    + intros Hk. inversion Hk.
    + intros [? ?]. discriminate.
  - exists a'. split; [exact Hrun |]. split; [| exact Hcur].
    rewrite Hlogs. reflexivity.
Defined.

Section ArbiterOrder.

Import types rpcapi processor.

Variable fetchHeader : string -> result Block.
Variable rpcCtxErr : nat -> bool.
Variable sendDone : nat -> bool.
Variable ctxDone : Z -> bool.

Variable c : chainState.
Variables (out : list Log) (err : option errors.error).
Variables (e1 e2 : Z) (logs1 logs2 : list Log).
Variables (hn h1 hm h2 : Block).

Let n := cursor c + 1.
Let m := e1 + 1.

Hypothesis cursor_range : 0 <= cursor c.
Hypothesis first_window : n <= e1.
Hypothesis second_window : m <= e2.
Hypothesis no_wrap : e2 + 1 < uint64.modulus.
Hypothesis header_n : fetchHeader (utils.Uint64ToHexQty n) = Ok hn.
Hypothesis header_e1 : fetchHeader (utils.Uint64ToHexQty e1) = Ok h1.
Hypothesis header_m : fetchHeader (utils.Uint64ToHexQty m) = Ok hm.
Hypothesis header_e2 : fetchHeader (utils.Uint64ToHexQty e2) = Ok h2.
Hypothesis first_parent :
  forall parent,
    storedWindowHash c !! cursor c = Some parent -> ParentHash hn = parent.
Hypothesis second_parent : ParentHash hm = Hash h1.
Hypothesis not_cancelled : forall j, sendDone j = false.
Hypothesis cap_pos : 1 <= storedWindowHashCap c.
Hypothesis store_ok : store_inv c.

Lemma wrap_small (z : Z) : 0 <= z < uint64.modulus -> uint64.wrap z = z.
Proof using Type. intros H. unfold uint64.wrap. now apply Z.mod_small. Qed.

(** The later window arrives first: it is kept, nothing else happens. *)
Lemma receive_later_first (fuel : nat) :
  receive fetchHeader rpcCtxErr sendDone ctxDone fuel m e2 logs2
    (arbiter_start c out err)
  = Waiting {| window := {[ m := e2 ]}; windowLogs := {[ m := logs2 ]};
               next := n; chain := c; logsCh := out; errCh := err |}.
Proof using cursor_range first_window second_window no_wrap.
  unfold receive, arbiter_start.
  cbn [window windowLogs next chain logsCh errCh].
  assert (Hn : uint64.add (cursor c) 1 = n).
  { unfold uint64.add. apply wrap_small. unfold n in *. lia. }
  rewrite Hn.
  assert (Hnone : (<[m := e2]> (∅ : gmap Z Z)) !! n = None).
  { rewrite lookup_insert_ne by (unfold m; lia). apply lookup_empty. }
  destruct fuel; cbn [commit_loop window next]; now rewrite Hnone.
Qed.

(** Then the earlier one: both are committed, in the order of the
    blocks. *)
Lemma receive_earlier_second (fuel : nat) :
  (2 <= fuel)%nat ->
  exists a2,
    receive fetchHeader rpcCtxErr sendDone ctxDone fuel n e1 logs1
      {| window := {[ m := e2 ]}; windowLogs := {[ m := logs2 ]};
         next := n; chain := c; logsCh := out; errCh := err |}
    = Waiting a2
    /\ logsCh a2 = out ++ logs1 ++ logs2
    /\ cursor (chain a2) = e2
    /\ next a2 = e2 + 1
    /\ window a2 = ∅
    /\ windowLogs a2 = ∅
    /\ storedWindowHash (chain a2) !! e2 = Some (Hash h2)
    /\ errCh a2 = err.
Proof using All.
  intros Hfuel. destruct fuel as [| [| fuel]]; try lia.
  unfold receive. cbn [window windowLogs next chain logsCh errCh].
  assert (Hnm : n <> m) by (unfold m; lia).
  assert (Hn0 : n <> 0) by (unfold n; lia).
  assert (Hm0 : m <> 0) by (unfold m, n in *; lia).
  (* first pass: the window [n, e1] *)
  destruct (storeWindowHash_inv e1 (Hash h1) (set_cursor e1 c) cap_pos
              (set_cursor_store_inv e1 c store_ok))
    as (c1 & Hstore1 & Hinv1 & Hcap1 & Hlook1 & _).
  set (a1 := {| window := <[n := e1]> {[ m := e2 ]};
                windowLogs := <[n := logs1]> {[ m := logs2 ]};
                next := n; chain := c; logsCh := out; errCh := err |}).
  cbn [commit_loop]. change (window a1 !! next a1)
    with ((<[n := e1]> ({[ m := e2 ]} : gmap Z Z)) !! n).
  rewrite lookup_insert_eq.
  rewrite (commit_body_commits fetchHeader rpcCtxErr sendDone ctxDone
             a1 e1 hn h1 c1); try assumption.
  2:{ intros parent. cbn [a1 chain next]. unfold uint64.sub.
      rewrite wrap_small by (unfold n, m in *; lia).
      replace (n - 1) with (cursor c) by (unfold n; lia).
      apply first_parent. }
  cbn [a1 window windowLogs next chain logsCh errCh].
  rewrite lookup_insert_eq. cbn [default].
  assert (He1 : uint64.add e1 1 = m).
  { unfold uint64.add. apply wrap_small. unfold n, m in *. lia. }
  rewrite He1.
  rewrite !delete_insert_eq, !delete_singleton_ne by congruence.
  (* second pass: the window [m, e2] *)
  assert (Hcap1' : 1 <= storedWindowHashCap (set_cursor e2 c1)).
  { cbn [set_cursor storedWindowHashCap].
    cbn [set_cursor storedWindowHashCap] in Hcap1. lia. }
  destruct (storeWindowHash_inv e2 (Hash h2) (set_cursor e2 c1) Hcap1'
              (set_cursor_store_inv e2 c1 Hinv1))
    as (c2 & Hstore2 & Hinv2 & Hcap2 & Hlook2 & _).
  unfold id.
  set (a3 := {| window := {[ m := e2 ]}; windowLogs := {[ m := logs2 ]};
                next := m; chain := c1; logsCh := out ++ logs1;
                errCh := err |}).
  rewrite lookup_singleton_eq.
  rewrite (commit_body_commits fetchHeader rpcCtxErr sendDone ctxDone
             a3 e2 hm h2 c2); try assumption.
  2:{ intros parent. cbn [a3 chain next]. unfold uint64.sub.
      rewrite wrap_small by (unfold n, m in *; lia).
      replace (m - 1) with e1 by (unfold m; lia).
      rewrite Hlook1. intros H. injection H as <-. exact second_parent. }
  cbn [a3 window windowLogs next chain logsCh errCh].
  rewrite lookup_singleton_eq. cbn [default]. unfold id.
  rewrite !delete_singleton_eq.
  assert (He2 : uint64.add e2 1 = e2 + 1).
  { unfold uint64.add. apply wrap_small. unfold n, m in *. lia. }
  rewrite He2.
  eexists. split.
  - destruct fuel; cbn [commit_loop window next]; rewrite lookup_empty;
      reflexivity.
  - cbn [logsCh chain next window windowLogs errCh].
    split; [now rewrite <- app_assoc |].
    split.
    { clear - Hstore2. unfold storeWindowHash in Hstore2.
      cbn [set_cursor storedWindowHash windowOrder storedWindowHashCap]
        in Hstore2.
      repeat match type of Hstore2 with
             | match ?x with _ => _ end = _ => destruct x
             | (if ?x then _ else _) = _ => destruct x
             end;
        try discriminate; injection Hstore2 as <-; reflexivity. }
    repeat split; try reflexivity. exact Hlook2.
Qed.

End ArbiterOrder.

(** X7.  In-order reassembly.  At the start of an epoch, when the result
    for the second window [[e1 + 1, e2]] arrives before the result for
    the first window [[cursor + 1, e1]], the arbiter only keeps it: no log
    is sent and the cursor stays.  When the first result arrives, both
    windows are committed in one run of the commit loop: the logs of the
    first window are sent before those of the second, the cursor ends at
    [e2], nothing stays pending and the hash of block [e2] is stored.
    (Headers fetched without error, the parent hash of block [e1 + 1]
    equal to the hash of block [e1], no cancellation.) *)
Theorem arbiter_reorders
        (fetchHeader : string -> rpcapi.result types.Block)
        (rpcCtxErr sendDone : nat -> bool) (ctxDone : Z -> bool)
        (c : processor.chainState) (out : list types.Log)
        (err : option errors.error)
        (e1 e2 : Z) (logs1 logs2 : list types.Log)
        (hn h1 hm h2 : types.Block) (fuel1 fuel2 : nat) :
  0 <= processor.cursor c ->
  processor.cursor c + 1 <= e1 ->
  e1 + 1 <= e2 ->
  e2 + 1 < uint64.modulus ->
  fetchHeader (utils.Uint64ToHexQty (processor.cursor c + 1)) = rpcapi.Ok hn ->
  fetchHeader (utils.Uint64ToHexQty e1) = rpcapi.Ok h1 ->
  fetchHeader (utils.Uint64ToHexQty (e1 + 1)) = rpcapi.Ok hm ->
  fetchHeader (utils.Uint64ToHexQty e2) = rpcapi.Ok h2 ->
  (forall parent,
      processor.storedWindowHash c !! processor.cursor c = Some parent ->
      types.ParentHash hn = parent) ->
  types.ParentHash hm = types.Hash h1 ->
  (forall j, sendDone j = false) ->
  1 <= processor.storedWindowHashCap c ->
  store_inv c ->
  (2 <= fuel2)%nat ->
  exists a1 a2,
    processor.receive fetchHeader rpcCtxErr sendDone ctxDone fuel1
      (e1 + 1) e2 logs2 (arbiter_start c out err)
    = processor.Waiting a1
    /\ processor.logsCh a1 = out
    /\ processor.cursor (processor.chain a1) = processor.cursor c
    /\ processor.receive fetchHeader rpcCtxErr sendDone ctxDone fuel2
         (processor.cursor c + 1) e1 logs1 a1
       = processor.Waiting a2
    /\ processor.logsCh a2 = out ++ logs1 ++ logs2
    /\ processor.cursor (processor.chain a2) = e2
    /\ processor.next a2 = e2 + 1
    /\ processor.window a2 = ∅
    /\ processor.storedWindowHash (processor.chain a2) !! e2
       = Some (types.Hash h2).
Proof.
  intros Hcur Hw1 Hw2 Hnw Hhn Hh1 Hhm Hh2 Hp1 Hp2 Hnc Hcap Hinv Hfuel.
  destruct (receive_earlier_second fetchHeader rpcCtxErr sendDone ctxDone
              c out err e1 e2 logs1 logs2 hn h1 hm h2
              Hcur Hw1 Hw2 Hnw Hhn Hh1 Hhm Hh2 Hp1 Hp2 Hnc Hcap Hinv
              fuel2 Hfuel)
    as (a2 & Hrun2 & Hlogs & Hc2 & Hn2 & Hwin & _ & Hlook & _).
  eexists. exists a2. split.
  - apply (receive_later_first fetchHeader rpcCtxErr sendDone ctxDone
             c out err e1 e2 logs2 Hcur Hw1 Hw2 Hnw fuel1).
  - cbn [processor.logsCh processor.chain]. now repeat split.
Qed.

Lemma arbiter_reorders_witness :
  exists a1 a2,
    processor.receive linear_header (fun _ => false) (fun _ => false)
      (fun _ => false) 0 11 20
      [log_of "0xdef" [types.AnyString transfer_topic]]
      (arbiter_start (chain_of 0 10 8 [] ∅ no_rpc) [] None)
    = processor.Waiting a1
    /\ processor.receive linear_header (fun _ => false) (fun _ => false)
         (fun _ => false) 2 1 10
         [log_of "0xabc" [types.AnyString transfer_topic]] a1
       = processor.Waiting a2
    /\ processor.logsCh a2
       = [ log_of "0xabc" [types.AnyString transfer_topic];
           log_of "0xdef" [types.AnyString transfer_topic] ]
    /\ processor.cursor (processor.chain a2) = 20.
Proof.
  destruct (arbiter_reorders linear_header (fun _ => false) (fun _ => false)
              (fun _ => false) (chain_of 0 10 8 [] ∅ no_rpc) [] None 10 20
              [log_of "0xabc" [types.AnyString transfer_topic]]
              [log_of "0xdef" [types.AnyString transfer_topic]]
              (linear_block "0x1") (linear_block "0xa")
              (linear_block "0xb") (linear_block "0x14") 0 2)
    as (a1 & a2 & Hr1 & _ & _ & Hr2 & Hlogs & Hcur & _).
  - cbn. lia.
  - cbn. lia.
  - lia.
  - unfold uint64.modulus. lia.
  - reflexivity.
  - reflexivity.
  - reflexivity.
  - reflexivity.
  - intros parent Hp. vm_compute in Hp. discriminate.
  - reflexivity.
  - reflexivity.
  - cbn. lia.
  - split; [reflexivity |]. split; [| vm_compute; discriminate].
    intros k. cbn. rewrite lookup_empty. split.
    + intros Hk. inversion Hk.
    + intros [? ?]. discriminate.
  - lia.
  - exists a1, a2. repeat split; assumption.
Defined.

Section ArbiterStops.

Import types rpcapi processor.

Variable fetchHeader : string -> result Block.
Variable rpcCtxErr : nat -> bool.
Variable ctxDone : Z -> bool.

(** One window received by a fresh arbiter and committed. *)
Lemma receive_single (sendDone : nat -> bool) (c : chainState)
      (out logs : list Log) (err : option errors.error) (end_ : Z)
      (header tail : Block) (fuel : nat) :
  0 <= cursor c -> cursor c + 1 <= end_ -> end_ + 1 < uint64.modulus ->
  fetchHeader (utils.Uint64ToHexQty (cursor c + 1)) = Ok header ->
  (forall parent,
      storedWindowHash c !! cursor c = Some parent ->
      ParentHash header = parent) ->
  (forall j, sendDone j = false) ->
  fetchHeader (utils.Uint64ToHexQty end_) = Ok tail ->
  1 <= storedWindowHashCap c -> store_inv c ->
  exists a2,
    receive fetchHeader rpcCtxErr sendDone ctxDone (S fuel)
      (cursor c + 1) end_ logs (arbiter_start c out err)
    = Waiting a2
    /\ logsCh a2 = out ++ logs
    /\ cursor (chain a2) = end_
    /\ window a2 = ∅.
Proof.
  intros Hcur Hend Hnw Hhdr Hparent Hnc Htail Hcap Hinv.
  destruct (storeWindowHash_inv end_ (Hash tail) (set_cursor end_ c) Hcap
              (set_cursor_store_inv end_ c Hinv))
    as (c1 & Hstore & _).
  unfold receive, arbiter_start.
  cbn [window windowLogs next chain logsCh errCh].
  assert (Hn : uint64.add (cursor c) 1 = cursor c + 1).
  { unfold uint64.add, uint64.wrap. unfold uint64.modulus in *.
    apply Z.mod_small. lia. }
  rewrite Hn. rewrite !insert_empty.
  set (a1 := {| window := {[ cursor c + 1 := end_ ]};
                windowLogs := {[ cursor c + 1 := logs ]};
                next := cursor c + 1; chain := c; logsCh := out;
                errCh := err |}).
  cbn [commit_loop]. change (window a1 !! next a1)
    with (({[ cursor c + 1 := end_ ]} : gmap Z Z) !! (cursor c + 1)).
  rewrite lookup_singleton_eq.
  rewrite (commit_body_commits fetchHeader rpcCtxErr sendDone ctxDone
             a1 end_ header tail c1); try assumption; try (cbn; lia).
  2:{ intros parent. cbn [a1 chain next]. unfold uint64.sub, uint64.wrap.
      unfold uint64.modulus in *. rewrite Z.mod_small by lia.
      replace (cursor c + 1 - 1) with (cursor c) by lia. apply Hparent. }
  cbn [a1 window windowLogs next chain logsCh errCh].
  rewrite lookup_singleton_eq, !delete_singleton_eq. cbn [default]. unfold id.
  eexists. split.
  - destruct fuel; cbn [commit_loop window next]; rewrite lookup_empty;
      reflexivity.
  - cbn [logsCh chain window]. split; [reflexivity |]. split; [| reflexivity].
    clear - Hstore. unfold storeWindowHash in Hstore.
    cbn [set_cursor storedWindowHash windowOrder storedWindowHashCap]
      in Hstore.
    repeat match type of Hstore with
           | match ?x with _ => _ end = _ => destruct x
           | (if ?x then _ else _) = _ => destruct x
           end;
      try discriminate; injection Hstore as <-; reflexivity.
Qed.

End ArbiterStops.

(** X8.  Cancellation while a window's logs are being sent.  When the
    epoch is found cancelled at the [n]-th log of the pending window, the
    arbiter returns with the first [n] logs sent and nothing else changed:
    the cursor has not moved and the window is still pending.  An epoch
    that then starts from that state and receives the same window sends
    all its logs, so the first [n] are delivered twice. *)
Theorem arbiter_cancelled_midway
        (fetchHeader : string -> rpcapi.result types.Block)
        (rpcCtxErr sendDone : nat -> bool) (ctxDone : Z -> bool)
        (c : processor.chainState) (out logs : list types.Log)
        (err : option errors.error) (end_ : Z) (header tail : types.Block)
        (n fuel : nat) :
  0 <= processor.cursor c ->
  processor.cursor c + 1 <= end_ -> end_ + 1 < uint64.modulus ->
  fetchHeader (utils.Uint64ToHexQty (processor.cursor c + 1))
  = rpcapi.Ok header ->
  (forall parent,
      processor.storedWindowHash c !! processor.cursor c = Some parent ->
      types.ParentHash header = parent) ->
  fetchHeader (utils.Uint64ToHexQty end_) = rpcapi.Ok tail ->
  1 <= processor.storedWindowHashCap c -> store_inv c ->
  (n < length logs)%nat ->
  (forall i, (i < n)%nat -> sendDone i = false) ->
  sendDone n = true ->
  exists a1 a2,
    processor.receive fetchHeader rpcCtxErr sendDone ctxDone (S fuel)
      (processor.cursor c + 1) end_ logs (arbiter_start c out err)
    = processor.Stopped a1
    /\ processor.logsCh a1 = out ++ take n logs
    /\ processor.chain a1 = c
    /\ processor.window a1 !! (processor.cursor c + 1) = Some end_
    /\ processor.receive fetchHeader rpcCtxErr (fun _ => false) ctxDone
         (S fuel) (processor.cursor c + 1) end_ logs
         (arbiter_start (processor.chain a1) (processor.logsCh a1) None)
       = processor.Waiting a2
    /\ processor.logsCh a2 = out ++ take n logs ++ logs
    /\ processor.cursor (processor.chain a2) = end_.
Proof.
  intros Hcur Hend Hnw Hhdr Hparent Htail Hcap Hinv Hn Hsent Hdone.
  assert (Hnext : uint64.add (processor.cursor c) 1 = processor.cursor c + 1).
  { unfold uint64.add, uint64.wrap. unfold uint64.modulus in *.
    apply Z.mod_small. lia. }
  set (a0 := {| processor.window := {[ processor.cursor c + 1 := end_ ]};
                processor.windowLogs := {[ processor.cursor c + 1 := logs ]};
                processor.next := processor.cursor c + 1;
                processor.chain := c; processor.logsCh := out;
                processor.errCh := err |}).
  exists (processor.with_logsCh (out ++ take n logs) a0).
  destruct (receive_single fetchHeader rpcCtxErr ctxDone (fun _ => false) c
              (out ++ take n logs) logs None end_ header tail fuel)
    as (a2 & Hrun2 & Hlogs2 & Hcur2 & _); try assumption; try reflexivity.
  exists a2. split; [| split; [| split; [| split; [| split; [| split]]]]].
  - unfold processor.receive, arbiter_start.
    cbn [processor.window processor.windowLogs processor.next processor.chain
         processor.logsCh processor.errCh].
    rewrite Hnext, !insert_empty. fold a0.
    cbn [processor.commit_loop]. change (processor.window a0 !! processor.next a0)
      with (({[ processor.cursor c + 1 := end_ ]} : gmap Z Z)
              !! (processor.cursor c + 1)).
    rewrite lookup_singleton_eq.
    rewrite (commit_body_check fetchHeader rpcCtxErr sendDone ctxDone
               a0 end_ header); [| cbn; lia | exact Hhdr |].
    + unfold processor.commit.
      change (processor.windowLogs a0 !! processor.next a0)
        with (({[ processor.cursor c + 1 := logs ]} : gmap Z (list types.Log))
                !! (processor.cursor c + 1)).
      rewrite lookup_singleton_eq. cbn [default]. unfold id.
      rewrite (send_all_cut sendDone logs 0 n); [reflexivity | exact Hn | |].
      * intros i Hi. apply Hsent. lia.
      * exact Hdone.
    + intros parent. cbn [a0 processor.chain processor.next].
      unfold uint64.sub, uint64.wrap. unfold uint64.modulus in *.
      rewrite Z.mod_small by lia.
      replace (processor.cursor c + 1 - 1) with (processor.cursor c) by lia.
      apply Hparent.
  - reflexivity.
  - reflexivity.
  - cbn [processor.with_logsCh processor.window a0].
    apply lookup_singleton_eq.
  - exact Hrun2.
  - rewrite Hlogs2. now rewrite <- app_assoc.
  - exact Hcur2.
Qed.

Lemma arbiter_cancelled_midway_witness :
  exists a1 a2,
    processor.receive linear_header (fun _ => false) (Nat.eqb 1)
      (fun _ => false) 1 1 10
      [ log_of "0xabc" [types.AnyString transfer_topic];
        log_of "0xabd" [types.AnyString transfer_topic] ]
      (arbiter_start (chain_of 0 10 8 [] ∅ no_rpc) [] None)
    = processor.Stopped a1
    /\ processor.logsCh a1 = [log_of "0xabc" [types.AnyString transfer_topic]]
    /\ processor.cursor (processor.chain a1) = 0
    /\ processor.receive linear_header (fun _ => false) (fun _ => false)
         (fun _ => false) 1 1 10
         [ log_of "0xabc" [types.AnyString transfer_topic];
           log_of "0xabd" [types.AnyString transfer_topic] ]
         (arbiter_start (processor.chain a1) (processor.logsCh a1) None)
       = processor.Waiting a2
    /\ processor.logsCh a2
       = [ log_of "0xabc" [types.AnyString transfer_topic];
           log_of "0xabc" [types.AnyString transfer_topic];
           log_of "0xabd" [types.AnyString transfer_topic] ].
Proof.
  destruct (arbiter_cancelled_midway linear_header (fun _ => false)
              (Nat.eqb 1) (fun _ => false) (chain_of 0 10 8 [] ∅ no_rpc) []
              [ log_of "0xabc" [types.AnyString transfer_topic];
                log_of "0xabd" [types.AnyString transfer_topic] ]
              None 10 (linear_block "0x1") (linear_block "0xa") 1 0)
    as (a1 & a2 & Hr1 & Hl1 & Hc1 & _ & Hr2 & Hl2 & _).
  - cbn. lia.
  - cbn. lia.
  - unfold uint64.modulus. lia.
  - reflexivity.
  - intros parent Hp. vm_compute in Hp. discriminate.
  - reflexivity.
  - cbn. lia.
  - split; [reflexivity |]. split; [| vm_compute; discriminate].
    intros k. cbn. rewrite lookup_empty. split.
    + intros Hk. inversion Hk.
    + intros [? ?]. discriminate.
  - cbn. lia.
  - intros [| i] Hi; [reflexivity | lia].
  - reflexivity.
  - exists a1, a2. split; [exact Hr1 |]. split; [exact Hl1 |].
    split; [now rewrite Hc1 |]. split; [exact Hr2 | exact Hl2].
Defined.

(** X9.  A failing fetch of the window's end header.  The logs have been
    sent and the cursor moved to [end] when that header is fetched; if the
    fetch fails the arbiter returns with the cursor at [end], the window
    no longer pending, and no hash stored for [end]: the stored hashes are
    those from before.  The error goes to the error channel unless the
    epoch is cancelled or the channel already holds one. *)
Theorem arbiter_end_header_fails
        (fetchHeader : string -> rpcapi.result types.Block)
        (rpcCtxErr sendDone : nat -> bool) (ctxDone : Z -> bool)
        (a : processor.arbiter) (end_ : Z) (header : types.Block)
        (e : errors.error) :
  processor.next a <> 0 ->
  fetchHeader (utils.Uint64ToHexQty (processor.next a)) = rpcapi.Ok header ->
  parent_ok a header ->
  (forall j, sendDone j = false) ->
  fetchHeader (utils.Uint64ToHexQty end_) = rpcapi.Err e ->
  exists a',
    processor.commit_body fetchHeader rpcCtxErr sendDone ctxDone a end_
    = processor.Stopped a'
    /\ processor.logsCh a'
       = processor.logsCh a
         ++ default [] (processor.windowLogs a !! processor.next a)
    /\ processor.cursor (processor.chain a') = end_
    /\ processor.window a' !! processor.next a = None
    /\ processor.storedWindowHash (processor.chain a')
       = processor.storedWindowHash (processor.chain a)
    /\ processor.windowOrder (processor.chain a')
       = processor.windowOrder (processor.chain a)
    /\ processor.errCh a'
       = if rpcCtxErr 1%nat then processor.errCh a
         else match processor.errCh a with
              | Some first => Some first
              | None => Some e
              end.
Proof.
  intros Hnext Hhdr Hparent Hnc Htail.
  rewrite (commit_body_check fetchHeader rpcCtxErr sendDone ctxDone
             a end_ header Hnext Hhdr Hparent).
  unfold processor.commit. rewrite send_all_sent by (intros; apply Hnc).
  rewrite Htail. destruct (rpcCtxErr 1%nat); eexists; (split; [reflexivity |]);
    cbn [processor.publish processor.logsCh processor.chain processor.window
         processor.errCh processor.set_cursor processor.cursor
         processor.storedWindowHash processor.windowOrder];
    repeat split; try reflexivity; apply lookup_delete_eq.
Qed.

Lemma arbiter_end_header_fails_witness :
  exists a',
    processor.commit_body
      (fun h => if String.eqb h "0xa"
                then rpcapi.Err (errors.HTTPError 400 "Bad Request")
                else linear_header h)
      (fun _ => false) (fun _ => false) (fun _ => false) pending_arbiter 10
    = processor.Stopped a'
    /\ processor.cursor (processor.chain a') = 10
    /\ processor.storedWindowHash (processor.chain a') = ∅
    /\ processor.errCh a' = Some (errors.HTTPError 400 "Bad Request").
Proof.
  destruct (arbiter_end_header_fails
              (fun h => if String.eqb h "0xa"
                        then rpcapi.Err (errors.HTTPError 400 "Bad Request")
                        else linear_header h)
              (fun _ => false) (fun _ => false) (fun _ => false)
              pending_arbiter 10 (linear_block "0x1")
              (errors.HTTPError 400 "Bad Request"))
    as (a' & Hrun & _ & Hcur & _ & Hstore & _ & Herr).
  - cbn. lia.
  - reflexivity.
  - intros parent Hp. vm_compute in Hp. discriminate.
  - reflexivity.
  - reflexivity.
  - exists a'. split; [exact Hrun |]. split; [exact Hcur |].
    split; [exact Hstore | exact Herr].
Defined.



(** ** The fetch planner: cancellation and the number of jobs *)

Lemma plan_loop_cancel (done : nat -> bool) (target rs : Z) (fuel : nat) :
  forall (k : nat) (start : Z) (jobs : list processor.blockRange) (n : nat),
    processor.plan_loop processor.never fuel k start target rs = Some jobs ->
    (forall i, (k <= i < k + n)%nat -> done i = false) ->
    done (k + n)%nat = true ->
    processor.plan_loop done fuel k start target rs = Some (take n jobs).
Proof.
  induction fuel as [| fuel IH]; intros k start jobs n Hrun Hnc Hdone;
    cbn [processor.plan_loop] in Hrun |- *.
  - destruct (start <=? target); [discriminate |].
    injection Hrun as <-. now rewrite take_nil.
  - destruct (start <=? target).
    2:{ injection Hrun as <-. now rewrite take_nil. }
    unfold processor.never at 1 in Hrun.
    destruct (processor.plan_loop processor.never fuel (S k) _ target rs)
      as [jobs0 |] eqn:E; [| discriminate].
    injection Hrun as <-. destruct n as [| n].
    + rewrite Nat.add_0_r in Hdone. now rewrite Hdone.
    + rewrite (Hnc k) by lia.
      rewrite (IH (S k) _ jobs0 n E); [reflexivity | |].
      * intros i Hi. apply Hnc. lia.
      * now replace (S k + n)%nat with (k + S n)%nat by lia.
Qed.

(** X11.  Cancelling the epoch only cuts the plan short: when the
    planner, left alone, emits [jobs], then with the cancellation taken at
    its [n]-th [select] (and not before) it emits the first [n] of them,
    in the same order, and returns. *)
Theorem planner_cancelled
        (done : nat -> bool) (fuel : nat) (c : processor.chainState)
        (target : Z) (jobs : list processor.blockRange) (n : nat) :
  processor.planner processor.never fuel c target = Some jobs ->
  (forall i, (i < n)%nat -> done i = false) ->
  done n = true ->
  processor.planner done fuel c target = Some (take n jobs)
  /\ take n jobs `prefix_of` jobs.
Proof.
  intros Hrun Hnc Hdone. split; [| apply prefix_take].
  unfold processor.planner in *.
  apply (plan_loop_cancel done target _ fuel 0 _ jobs n Hrun).
  - intros i Hi. apply Hnc. lia.
  - exact Hdone.
Qed.

Lemma planner_cancelled_witness :
  processor.planner (Nat.eqb 2) 25 (chain_of 0 10 8 [] ∅ no_rpc) 25
  = Some [ {| processor.from := 1; processor.to := 10 |};
           {| processor.from := 11; processor.to := 20 |} ].
Proof.
  apply (planner_cancelled (Nat.eqb 2) 25 (chain_of 0 10 8 [] ∅ no_rpc) 25
           [ {| processor.from := 1; processor.to := 10 |};
             {| processor.from := 11; processor.to := 20 |};
             {| processor.from := 21; processor.to := 25 |} ] 2).
  - vm_compute. reflexivity.
  - intros [| [| i]] Hi; try reflexivity. lia.
  - reflexivity.
Defined.

(** X12.  The number of jobs of an epoch.  Without wrap-around and
    cancellation the planner emits ceil((target - cursor) / rangeSize)
    ranges when the target is above the cursor, and the last one ends at
    the target. *)
Theorem planner_job_count (c : processor.chainState) (target : Z) :
  let cur := processor.cursor c in
  let rs := processor.RangeSize (processor.opts c) in
  0 < rs -> 0 <= cur -> cur < target -> target + rs < uint64.modulus ->
  exists jobs : list processor.blockRange,
    (forall fuel : nat,
        target - cur <= Z.of_nat fuel ->
        processor.planner processor.never fuel c target = Some jobs)
    /\ Z.of_nat (length jobs) = ceil_div (target - cur) rs
    /\ exists r, last jobs = Some r /\ processor.to r = target.
Proof.
  intros cur rs Hrs Hcur Htarget Htw.
  assert (Hrsw : uint64.wrap rs = rs).
  { unfold uint64.wrap. unfold uint64.modulus in *. apply Z.mod_small. lia. }
  assert (Hstart : uint64.add cur 1 = cur + 1).
  { unfold uint64.add, uint64.wrap. unfold uint64.modulus in *.
    apply Z.mod_small. lia. }
  destruct (plan_loop_planned target rs Hrs Htw
              (Z.to_nat (target - cur)) 0 (cur + 1))
    as (jobs & Hrun & Hp & Hend); [lia | unfold uint64.modulus in *; lia | lia |].
  exists jobs. split; [| split].
  - intros fuel Hfuel. unfold processor.planner.
    fold cur rs. rewrite Hrsw, Hstart.
    apply (plan_loop_more_fuel _ _ _ (Z.to_nat (target - cur)));
      [lia | exact Hrun].
  - destruct jobs as [| r0 jobs0] using rev_ind; [cbn in Hend; lia |].
    clear IHjobs0.
    destruct (Hp (length jobs0) r0) as (Hf & Ht & Hle).
    { rewrite lookup_app_r, Nat.sub_diag by lia. reflexivity. }
    rewrite length_app in Hend |- *. cbn [length] in Hend |- *.
    rewrite <- ceil_div_formula by lia.
    apply (Z.div_unique _ _ _
             (target - cur + rs - 1 - rs * Z.of_nat (length jobs0 + 1))); lia.
  - destruct jobs as [| r0 jobs0] using rev_ind; [cbn in Hend; lia |].
    clear IHjobs0. exists r0. split; [apply last_snoc |].
    destruct (Hp (length jobs0) r0) as (Hf & Ht & Hle).
    { rewrite lookup_app_r, Nat.sub_diag by lia. reflexivity. }
    rewrite length_app in Hend. cbn [length] in Hend. lia.
Qed.

Lemma planner_job_count_witness :
  exists jobs : list processor.blockRange,
    processor.planner processor.never 25 (chain_of 0 10 8 [] ∅ no_rpc) 25
    = Some jobs
    /\ Z.of_nat (length jobs) = ceil_div (25 - 0) 10.
Proof.
  destruct (planner_job_count (chain_of 0 10 8 [] ∅ no_rpc) 25)
    as (jobs & Hrun & Hlen & _); try (unfold uint64.modulus; cbn; lia).
  exists jobs. split; [apply Hrun; cbn; lia | exact Hlen].
Defined.

(** ** Retry with backoff: exact traces, waiting times, edge settings *)

Section RetryMore.

Import errors rpc.

Variable config : RetryConfig.
Variable w : World.


Variable s : Z.
Hypothesis stop_at : IsRetryableError (fn w s) = false.
Hypothesis in_budget : s < MaxAttempts config.
Hypothesis retried :
  forall j, 0 <= j < s ->
            IsRetryableError (fn w j) = true /\ ctxDone w j = false.
Hypothesis no_panic :
  EnableJitter config = true ->
  4 <= MaxBackoff config /\ forall b, 4 <= b -> 4 <= scale w b.

Lemma retry_loop_until (fuel : nat) :
  forall (k b : Z) (lastErr : option error),
    0 <= k <= s -> s - k < Z.of_nat fuel ->
    (EnableJitter config = true -> 4 <= b) ->
    (retry_loop config w fuel k b lastErr).1
    = match fn w s with
      | None => Return None
      | Some e => non_retryable e
      end
    /\ calls (retry_loop config w fuel k b lastErr).2 = seqZ k (s - k + 1)
    /\ length (retry_loop config w fuel k b lastErr).2
       = Z.to_nat (2 * (s - k) + 1).
Proof using All.
  induction fuel as [| fuel IH]; intros k b lastErr Hk Hfuel Hb; [lia |].
  cbn [retry_loop]. destruct (Z.ltb_spec k (MaxAttempts config)); [| lia].
  destruct (Z.eq_dec k s) as [-> | Hne].
  - replace (s - s + 1) with 1 by lia. replace (2 * (s - s) + 1) with 1 by lia.
    destruct (fn w s) as [e |]; [| now repeat split].
    rewrite stop_at. now repeat split.
  - destruct (retried k ltac:(lia)) as [Hre Hdone].
    destruct (fn w k) as [e |] eqn:Hfn; [| discriminate].
    rewrite Hre. cbn [negb].
    destruct (Z.eqb_spec k (MaxAttempts config - 1)); [lia |].
    assert (Hjit : exists jit,
               (if EnableJitter config
                then Int63n (rand63 w k) (Z.quot b 4) else Some 0) = Some jit).
    { destruct (EnableJitter config); [| eauto].
      unfold Int63n. specialize (Hb eq_refl).
      rewrite Z.quot_div_nonneg by lia.
      pose proof (Z.div_le_mono 4 b 4 ltac:(lia) Hb) as Hq.
      change (4 / 4) with 1 in Hq.
      destruct (Z.leb_spec (b / 4) 0); [lia | eauto]. }
    destruct Hjit as [jit ->]. rewrite Hdone. cbn [fst snd].
    set (b2 := if MaxBackoff config <? scale w b
               then MaxBackoff config else scale w b).
    destruct (IH (k + 1) b2 (Some e)) as (Hout & Hcalls & Hlen); [lia | lia | |].
    { intros Hj. destruct (no_panic Hj) as [Hmax Hscale].
      specialize (Hscale b (Hb Hj)). unfold b2.
      destruct (Z.ltb_spec (MaxBackoff config) (scale w b)); lia. }
    split; [exact Hout |]. split.
    + change (calls (Call k :: Sleep k (b + jit)
                       :: (retry_loop config w fuel (k + 1) b2 (Some e)).2))
        with (k :: calls (retry_loop config w fuel (k + 1) b2 (Some e)).2).
      rewrite Hcalls. rewrite (seqZ_cons k (s - k + 1)) by lia.
      do 2 f_equal; lia.
    + cbn [length]. rewrite Hlen. lia.
Qed.

End RetryMore.

(** X13.  Retrying to the first stop.  When the invocations before
    attempt [s] fail with retryable errors, attempt [s] (within
    [MaxAttempts]) returns nil or a non-retryable error, the context is
    not done meanwhile and the jitter cannot panic, the operation is
    invoked exactly for the attempts 0 .. s, with one sleep between two
    invocations, and the result is nil or the wrapped non-retryable
    error. *)
Theorem RetryWithBackoff_until
        (config : rpc.RetryConfig) (w : rpc.World) (s : Z) :
  errors.IsRetryableError (rpc.fn w s) = false ->
  0 <= s < rpc.MaxAttempts config ->
  (forall j, 0 <= j < s ->
             errors.IsRetryableError (rpc.fn w j) = true
             /\ rpc.ctxDone w j = false) ->
  (rpc.EnableJitter config = true ->
   4 <= rpc.InitialBackoff config /\ 4 <= rpc.MaxBackoff config
   /\ forall b, 4 <= b -> 4 <= rpc.scale w b) ->
  (rpc.RetryWithBackoff config w).1
  = match rpc.fn w s with
    | None => rpc.Return None
    | Some e => non_retryable e
    end
  /\ rpc.calls (rpc.RetryWithBackoff config w).2 = seqZ 0 (s + 1)
  /\ length (rpc.RetryWithBackoff config w).2 = Z.to_nat (2 * s + 1).
Proof.
  intros Hstop Hs Hre Hjit. unfold rpc.RetryWithBackoff.
  destruct (retry_loop_until config w s Hstop ltac:(lia) Hre
              ltac:(intros H; destruct (Hjit H) as (_ & ? & ?); now split)
              (Z.to_nat (rpc.MaxAttempts config)) 0
              (rpc.InitialBackoff config) None)
    as (Hout & Hcalls & Hlen); [lia | lia | |].
  - intros H. now destruct (Hjit H).
  - rewrite Z.sub_0_r in Hcalls, Hlen. now repeat split.
Qed.

Lemma RetryWithBackoff_until_witness :
  (rpc.RetryWithBackoff test_config (flaky 2)).1 = rpc.Return None
  /\ rpc.calls (rpc.RetryWithBackoff test_config (flaky 2)).2 = [0; 1; 2].
Proof.
  destruct (RetryWithBackoff_until test_config (flaky 2) 2)
    as (Hout & Hcalls & _).
  - reflexivity.
  - cbn. lia.
  - intros j Hj. assert (j = 0 \/ j = 1) as [-> | ->] by lia; now split.
  - discriminate.
  - split; [exact Hout | exact Hcalls].
Defined.



(** X15.  Two settings that defeat the retry.  With [MaxAttempts <= 0]
    the operation is never invoked and the result is the max-attempts
    error with a nil cause.  With jitter on, [InitialBackoff] below 4
    nanoseconds and at least two attempts allowed, a first failure that is
    retryable makes [rand.Int63n] panic, right after that invocation. *)
Theorem RetryWithBackoff_edge_settings
        (config : rpc.RetryConfig) (w : rpc.World) :
  (rpc.MaxAttempts config <= 0 ->
   rpc.RetryWithBackoff config w
   = (rpc.Return
        (Some (errors.Errorf "max retry attempts (%d) exceeded: %w"
                 [rpc.MaxAttempts config] None)),
      []))
  /\ (rpc.EnableJitter config = true ->
      rpc.InitialBackoff config < 4 ->
      2 <= rpc.MaxAttempts config ->
      errors.IsRetryableError (rpc.fn w 0) = true ->
      rpc.RetryWithBackoff config w = (rpc.Panic, [rpc.Call 0])).
Proof.
  split.
  - intros Hmax. unfold rpc.RetryWithBackoff.
    destruct (Z.to_nat (rpc.MaxAttempts config)); cbn [rpc.retry_loop];
      destruct (Z.ltb_spec 0 (rpc.MaxAttempts config)); try lia; reflexivity.
  - intros Hjit Hinit Hmax Hre. unfold rpc.RetryWithBackoff.
    destruct (Z.to_nat (rpc.MaxAttempts config)) as [| fuel] eqn:Hfuel; [lia |].
    cbn [rpc.retry_loop].
    destruct (Z.ltb_spec 0 (rpc.MaxAttempts config)); [| lia].
    destruct (rpc.fn w 0) as [e |]; [| discriminate].
    rewrite Hre. cbn [negb].
    destruct (Z.eqb_spec 0 (rpc.MaxAttempts config - 1)); [lia |].
    rewrite Hjit. unfold rpc.Int63n.
    assert (Hq : Z.quot (rpc.InitialBackoff config) 4 <= 0).
    { destruct (Z_le_gt_dec 0 (rpc.InitialBackoff config)).
      - rewrite Z.quot_small by lia. lia.
      - apply Z.quot_le_upper_bound; lia. }
    destruct (Z.leb_spec (Z.quot (rpc.InitialBackoff config) 4) 0); [| lia].
    reflexivity.
Qed.

(** ** Error classification through wrapping *)

Lemma AsHTTPError_root : forall e, errors.AsHTTPError (root e) = errors.AsHTTPError e.
Proof.
  fix IH 1. intros [code msg | code msg | s | format args [inner |]];
    cbn [root errors.AsHTTPError]; try reflexivity.
  apply IH.
Qed.

Lemma AsRPCError_root : forall e, errors.AsRPCError (root e) = errors.AsRPCError e.
Proof.
  fix IH 1. intros [code msg | code msg | s | format args [inner |]];
    cbn [root errors.AsRPCError]; try reflexivity.
  apply IH.
Qed.

Lemma root_leaf :
  forall e format args inner, root e <> errors.Errorf format args (Some inner).
Proof.
  fix IH 1. intros [code msg | code msg | s | format' args' [inner' |]];
    intros format args inner; cbn [root]; try discriminate.
  apply IH.
Qed.

Lemma IsRetryableError_as_root (e : errors.error) :
  errors.IsRetryableError (Some e) = errors.IsRetryableError (Some (root e)).
Proof.
  unfold errors.IsRetryableError. now rewrite AsHTTPError_root, AsRPCError_root.
Qed.

(** X16.  Wrapping does not change the verdict.  [IsRetryableError]
    answers for an error what it answers for the innermost error of its
    [Unwrap] chain: true exactly for an [HTTPError] with one of the listed
    status codes and for an [RPCError] with a code in [[-32099, -32000]];
    an error with any other root, or a nil error, is not retryable. *)
Theorem IsRetryableError_root (e : errors.error) :
  (errors.IsRetryableError (Some e) = true <-> retryable_root (root e))
  /\ (forall format args,
        errors.IsRetryableError (Some (errors.Errorf format args (Some e)))
        = errors.IsRetryableError (Some e))
  /\ errors.IsRetryableError None = false.
Proof.
  split; [| split; reflexivity].
  rewrite IsRetryableError_as_root.
  pose proof (root_leaf e) as Hleaf.
  destruct (root e) as [code msg | code msg | s | format args [inner |]];
    cbn [retryable_root].
  - apply IsRetryableError_http.
  - apply IsRetryableError_rpc.
  - cbn. split; [discriminate | tauto].
  - exfalso. now apply (Hleaf format args inner).
  - cbn. split; [discriminate | tauto].
Qed.

(** X17.  In receipts mode the error of a failed range keeps the verdict
    of the endpoint's error: when the blocks before [bad] are fetched and
    [GetBlockReceipts] fails for [bad] with [e], [fetchLogsFromReceipts]
    returns no logs and an error that is retryable exactly when [e] is,
    so the retry executor repeats the whole range for a retryable
    failure of one block. *)
Theorem fetchLogsFromReceipts_error_verdict
        (c : processor.chainState) (from to bad : Z) (e : errors.error)
        (fuel : nat) :
  0 <= from -> to + 1 < uint64.modulus -> from <= bad <= to ->
  (forall b, from <= b < bad ->
             exists receipts,
               rpcapi.GetBlockReceipts (processor.chainRPC c)
                 (utils.Uint64ToHexQty b) = rpcapi.Ok receipts) ->
  rpcapi.GetBlockReceipts (processor.chainRPC c) (utils.Uint64ToHexQty bad)
  = rpcapi.Err e ->
  bad - from + 1 <= Z.of_nat fuel ->
  exists e',
    (processor.fetchLogsFromReceipts fuel from to c).1
    = processor.FetchFailed e'
    /\ errors.IsRetryableError (Some e') = errors.IsRetryableError (Some e)
    /\ root e' = root e.
Proof.
  intros Hfrom Hto Hbad Hok He Hfuel. unfold processor.fetchLogsFromReceipts.
  rewrite (receipts_loop_err c to fuel from bad [] e); try assumption.
  eexists. split; [reflexivity |]. split; reflexivity.
Qed.

Lemma fetchLogsFromReceipts_error_verdict_witness :
  exists e',
    (processor.fetchLogsFromReceipts 3 30 32 stale).1 = processor.FetchFailed e'
    /\ errors.IsRetryableError (Some e') = true.
Proof.
  destruct (fetchLogsFromReceipts_error_verdict stale 30 32 31
              (errors.HTTPError 503 "Service Unavailable") 3)
    as (e' & Hrun & Hverdict & _).
  - lia.
  - unfold uint64.modulus. lia.
  - lia.
  - intros b Hb. assert (b = 30) as -> by lia. eexists. reflexivity.
  - reflexivity.
  - cbn. lia.
  - exists e'. split; [exact Hrun |]. rewrite Hverdict. reflexivity.
Defined.

(** ** Hex quantities: format and value *)

Section HexQtyMore.

Import strconv.

Lemma digit_lower_hex (d : Z) :
  0 <= d < 16 ->
  lower_hex (digit d) = true /\ (0 < d -> digit d <> "0"%char).
Proof.
  intros Hd.
  assert (Hcases : d = 0 \/ d = 1 \/ d = 2 \/ d = 3 \/ d = 4 \/ d = 5 \/ d = 6
                   \/ d = 7 \/ d = 8 \/ d = 9 \/ d = 10 \/ d = 11 \/ d = 12
                   \/ d = 13 \/ d = 14 \/ d = 15) by lia.
  repeat (destruct Hcases as [-> | Hcases];
          [split; [reflexivity | intros H0; try lia; discriminate] |]).
  subst d. split; [reflexivity | discriminate].
Qed.

Lemma append_assoc (a b c : string) : ((a +:+ b) +:+ c = a +:+ (b +:+ c))%string.
Proof.
  induction a as [| ch a IH]; [reflexivity |].
  change (String ch ((a +:+ b) +:+ c) = String ch (a +:+ (b +:+ c))).
  now rewrite IH.
Qed.

Lemma append_length (a b : string) :
  String.length (a +:+ b) = (String.length a + String.length b)%nat.
Proof.
  induction a as [| ch a IH]; [reflexivity |].
  change (S (String.length (a +:+ b)) = S (String.length a + String.length b)).
  now rewrite IH.
Qed.

Lemma append_chars (a b : string) :
  list_ascii_of_string (a +:+ b)
  = list_ascii_of_string a ++ list_ascii_of_string b.
Proof.
  induction a as [| ch a IH]; [reflexivity |].
  change (ch :: list_ascii_of_string (a +:+ b)
          = ch :: (list_ascii_of_string a ++ list_ascii_of_string b)).
  now rewrite IH.
Qed.

Lemma formatBits_digits (room : nat) :
  forall (d : nat) (u : Z) (acc : string),
    0 <= u < 16 ^ Z.of_nat d -> (1 <= d <= S room)%nat ->
    exists ds,
      formatBits_pow2 room 4 u acc = (ds +:+ acc)%string
      /\ (1 <= String.length ds <= d)%nat
      /\ forallb lower_hex (list_ascii_of_string ds) = true
      /\ (0 < u -> String.get 0 ds <> Some "0"%char).
Proof.
  assert (Hone : forall (d : nat) (u : Z) (acc : string),
             0 <= u < 16 -> (1 <= d)%nat ->
             exists ds,
               String (digit u) acc = (ds +:+ acc)%string
               /\ (1 <= String.length ds <= d)%nat
               /\ forallb lower_hex (list_ascii_of_string ds) = true
               /\ (0 < u -> String.get 0 ds <> Some "0"%char)).
  { intros d u acc Hu Hd. destruct (digit_lower_hex u Hu) as [Hhex Hnz].
    exists (String (digit u) EmptyString). split; [reflexivity |].
    split; [cbn; lia |].
    split; [cbn [list_ascii_of_string forallb]; now rewrite Hhex |].
    intros Hpos. cbn. intros [= Heq]. now apply Hnz. }
  induction room as [| room IH]; intros d u acc Hu Hd.
  - cbn [formatBits_pow2]. apply Hone; [| lia].
    assert (d = 1%nat) as -> by lia. change (16 ^ Z.of_nat 1) with 16 in Hu. lia.
  - cbn [formatBits_pow2]. change (Z.shiftl 1 4) with 16.
    change (16 - 1) with (Z.ones 4).
    destruct (Z.leb_spec 16 u) as [Hge | Hlt]; [| apply Hone; lia].
    rewrite Z.land_ones, Z.shiftr_div_pow2 by lia. change (2 ^ 4) with 16.
    destruct d as [| [| d]]; [lia | change (16 ^ Z.of_nat 1) with 16 in Hu; lia |].
    assert (Hpow : 16 ^ Z.of_nat (S (S d)) = 16 * 16 ^ Z.of_nat (S d)).
    { rewrite (Nat2Z.inj_succ (S d)), Z.pow_succ_r by lia. reflexivity. }
    destruct (IH (S d) (u / 16) (String (digit (u mod 16)) acc))
      as (ds & Hds & Hlen & Hhex & Hfirst).
    { split; [apply Z.div_pos; lia |].
      apply Z.div_lt_upper_bound; lia. }
    { lia. }
    destruct (digit_lower_hex (u mod 16)) as [Hhex0 _];
      [apply Z.mod_pos_bound; lia |].
    exists (ds +:+ String (digit (u mod 16)) EmptyString)%string.
    split; [rewrite Hds, append_assoc; reflexivity |].
    split; [rewrite append_length; cbn; lia |].
    split.
    + rewrite append_chars, forallb_app, Hhex.
      cbn [list_ascii_of_string forallb]. now rewrite Hhex0.
    + intros _. destruct ds as [| ch ds]; [cbn in Hlen; lia |].
      cbn in Hfirst |- *. apply Hfirst.
      apply Z.div_str_pos. lia.
Qed.

Lemma digits_value_ge (base : Z) (s : string) :
  forall acc v, 1 <= base -> 0 <= acc ->
                digits_value base acc s = Some v -> acc <= v.
Proof.
  induction s as [| ch s IH]; intros acc v Hbase Hacc Hv; cbn in Hv.
  - injection Hv as <-. lia.
  - destruct (digit_val ch) as [d |] eqn:Hd; [| discriminate].
    destruct (Z.ltb_spec d base) as [Hlt | Hge]; [| discriminate].
    assert (0 <= d).
    { unfold digit_val in Hd.
      destruct ((48 <=? byte_val ch) && (byte_val ch <=? 57)) eqn:E1.
      - injection Hd as <-. lia.
      - destruct ((97 <=? lower (byte_val ch)) && (lower (byte_val ch) <=? 122))
          eqn:E2; [| discriminate].
        injection Hd as <-. lia. }
    apply IH in Hv; nia.
Qed.

Lemma digit_val_nonneg (ch : ascii) (d : Z) : digit_val ch = Some d -> 0 <= d.
Proof.
  unfold digit_val. intros Hd.
  destruct ((48 <=? byte_val ch) && (byte_val ch <=? 57)) eqn:E1.
  - injection Hd as <-. lia.
  - destruct ((97 <=? lower (byte_val ch)) && (lower (byte_val ch) <=? 122))
      eqn:E2; [| discriminate].
    injection Hd as <-. lia.
Qed.

Lemma parse_loop_value (base : Z) (s : string) :
  forall n v,
    2 <= base <= 36 -> 0 <= n <= uint64.max ->
    digits_value base n s = Some v ->
    parse_loop base (uint64.max / base + 1) uint64.max s n = parsed v.
Proof.
  induction s as [| ch s IH]; intros n v Hbase Hn Hv; cbn in Hv |- *.
  - injection Hv as <-. unfold parsed, uint64.max, uint64.modulus in *.
    destruct (Z.ltb_spec n (2 ^ 64)); [reflexivity | lia].
  - destruct (digit_val ch) as [d |] eqn:Hd; [| discriminate].
    pose proof (digit_val_nonneg _ _ Hd) as Hd0.
    destruct (Z.ltb_spec d base) as [Hlt | Hge]; [| discriminate].
    destruct (Z.leb_spec base d) as [Hbd | _]; [lia |].
    assert (Hbase1 : 1 <= base) by lia.
    assert (Hacc : 0 <= base * n + d) by (unfold uint64.max, uint64.modulus in Hn; nia).
    pose proof (digits_value_ge base s (base * n + d) v Hbase1 Hacc Hv) as Hle.
    pose proof (Z.mul_div_le uint64.max base ltac:(lia)) as Hdiv1.
    pose proof (Z.mul_succ_div_gt uint64.max base ltac:(lia)) as Hdiv2.
    unfold uint64.max, uint64.modulus in *.
    destruct (Z.leb_spec ((2 ^ 64 - 1) / base + 1) n) as [Hcut | Hcut].
    + unfold parsed. destruct (Z.ltb_spec v (2 ^ 64)); [nia | reflexivity].
    + assert (Hmul : 0 <= n * base <= 2 ^ 64 - 1) by nia.
      unfold uint64.mul, uint64.add, uint64.wrap, uint64.modulus.
      rewrite (Z.mod_small (n * base)) by lia.
      destruct (Z.ltb_spec (n * base + d) (2 ^ 64)) as [Hfit | Hover].
      * rewrite (Z.mod_small (n * base + d)) by lia.
        destruct (Z.ltb_spec (n * base + d) (n * base)); [lia |].
        destruct (Z.ltb_spec (2 ^ 64 - 1) (n * base + d)); [lia |].
        cbn [orb]. replace (n * base + d) with (base * n + d) by lia.
        apply IH; [lia | unfold uint64.max, uint64.modulus; lia | exact Hv].
      * assert (Hwrap : (n * base + d) mod 2 ^ 64 = n * base + d - 2 ^ 64).
        { symmetry. apply (Z.mod_unique _ _ 1); lia. }
        rewrite Hwrap.
        destruct (Z.ltb_spec (n * base + d - 2 ^ 64) (n * base)); [| lia].
        cbn [orb]. unfold parsed.
        destruct (Z.ltb_spec v (2 ^ 64)); [lia | reflexivity].
Qed.

Lemma ParseUint_value (base : Z) (ds : string) (v : Z) :
  2 <= base <= 36 -> ds <> EmptyString ->
  digits_value base 0 ds = Some v -> ParseUint ds base = parsed v.
Proof.
  intros Hbase Hne Hv. unfold ParseUint.
  destruct ds as [| ch ds]; [congruence |].
  change (uint64.sub (Z.shiftl 1 64) 1) with uint64.max.
  apply parse_loop_value; [exact Hbase | | exact Hv].
  unfold uint64.max, uint64.modulus. lia.
Qed.

Lemma HexQtyToUint64_0X (s : string) :
  utils.HexQtyToUint64 ("0X" +:+ s) = ParseUint s 16.
Proof.
  unfold utils.HexQtyToUint64, utils.slice_0_2, utils.slice_2.
  change ("0X" +:+ s)%string with (String "0" (String "X" s)).
  cbn [String.length Nat.leb Nat.sub String.substring andb].
  rewrite ?Nat.sub_0_r, substring_all.
  destruct s; reflexivity.
Qed.

Lemma HexQtyToUint64_decimal (ds : string) (v : Z) :
  digits_value 10 0 ds = Some v ->
  utils.HexQtyToUint64 ds = ParseUint ds 10.
Proof.
  intros Hv. unfold utils.HexQtyToUint64, utils.slice_0_2.
  destruct ds as [| c1 [| c2 ds]]; [reflexivity | reflexivity |].
  cbn [String.length Nat.leb andb String.substring].
  replace (String.substring 0 0 ds) with EmptyString by (destruct ds; reflexivity).
  destruct (String.eqb_spec (String c1 (String c2 EmptyString)) "0x") as [E | _].
  - exfalso. injection E as -> ->. cbn in Hv. discriminate.
  - destruct (String.eqb_spec (String c1 (String c2 EmptyString)) "0X") as [E | _].
    + exfalso. injection E as -> ->. cbn in Hv. discriminate.
    + reflexivity.
Qed.

Lemma value_formatBits (room : nat) :
  forall (u : Z) (acc : string),
    0 <= u < 16 ^ (Z.of_nat room + 1) ->
    digits_value 16 0 (formatBits_pow2 room 4 u acc) = digits_value 16 u acc.
Proof.
  assert (Hone : forall u acc, 0 <= u < 16 ->
             digits_value 16 0 (String (digit u) acc) = digits_value 16 u acc).
  { intros u acc Hu. cbn [digits_value]. rewrite digit_val_digit by exact Hu.
    destruct (Z.ltb_spec u 16); [f_equal; lia | lia]. }
  induction room as [| room IH]; intros u acc Hu.
  - cbn [formatBits_pow2]. apply Hone.
    change (16 ^ (Z.of_nat 0 + 1)) with 16 in Hu. exact Hu.
  - cbn [formatBits_pow2]. change (Z.shiftl 1 4) with 16.
    change (16 - 1) with (Z.ones 4).
    destruct (Z.leb_spec 16 u) as [Hge | Hlt]; [| apply Hone; lia].
    rewrite Z.land_ones, Z.shiftr_div_pow2 by lia. change (2 ^ 4) with 16.
    assert (Hpow : 16 ^ (Z.of_nat (S room) + 1) = 16 * 16 ^ (Z.of_nat room + 1)).
    { rewrite Nat2Z.inj_succ, <- Z.pow_succ_r by lia. f_equal. }
    pose proof (Z.mod_pos_bound u 16 ltac:(lia)) as Hmod.
    pose proof (Z.div_mod u 16 ltac:(lia)) as Hdm.
    rewrite IH.
    + cbn [digits_value]. rewrite digit_val_digit by exact Hmod.
      destruct (Z.ltb_spec (u mod 16) 16); [f_equal; lia | lia].
    + split; [apply Z.div_pos; lia |].
      apply Z.div_lt_upper_bound; lia.
Qed.

End HexQtyMore.

(** X18.  The shape of an encoded quantity.  For every [n] in the range
    of [uint64], [Uint64ToHexQty n] is [0x] followed by one to sixteen
    lower-case hexadecimal digits, the first of which is [0] only for
    [n = 0] (no leading zero), and the digits denote [n]; so different
    values have different encodings. *)
Theorem Uint64ToHexQty_shape (n : Z) :
  uint64.valid n ->
  (exists ds,
      utils.Uint64ToHexQty n = ("0x" +:+ ds)%string
      /\ (1 <= String.length ds <= 16)%nat
      /\ forallb lower_hex (list_ascii_of_string ds) = true
      /\ (String.get 0 ds = Some "0"%char <-> n = 0)
      /\ digits_value 16 0 ds = Some n)
  /\ (forall m, uint64.valid m ->
                utils.Uint64ToHexQty m = utils.Uint64ToHexQty n -> m = n).
Proof.
  intros Hn. split.
  - unfold utils.Uint64ToHexQty. destruct (Z.eqb_spec n 0) as [-> | Hnz].
    + exists "0"%string. repeat split; try reflexivity; cbn; lia.
    + unfold uint64.valid, uint64.modulus in Hn.
      destruct (formatBits_digits 64 16 n EmptyString) as (ds & Hds & Hlen & Hhex & Hfirst).
      { change (16 ^ Z.of_nat 16) with (2 ^ 64). lia. }
      { lia. }
      assert (Hnil : forall s, (s +:+ "")%string = s).
      { induction s as [| ch s IH]; [reflexivity |].
        change (String ch (s +:+ "") = String ch s). now rewrite IH. }
      rewrite Hnil in Hds.
      exists ds. unfold strconv.FormatUint16. rewrite Hds.
      split; [reflexivity |]. split; [exact Hlen |].
      split; [exact Hhex |]. split.
      * split; [| intros; contradiction].
        intros H0. exfalso. apply Hfirst; [lia | exact H0].
      * rewrite <- Hds, value_formatBits; [reflexivity |].
        change (16 ^ (Z.of_nat 64 + 1)) with (2 ^ 260).
        assert (2 ^ 64 < 2 ^ 260) by (apply Z.pow_lt_mono_r; lia). lia.
  - intros m Hm Heq.
    assert (Hdec : forall k, uint64.valid k ->
                             utils.HexQtyToUint64 (utils.Uint64ToHexQty k) = (k, None)).
    { intros k Hk. unfold utils.Uint64ToHexQty.
      destruct (Z.eqb_spec k 0) as [-> | Hkz]; [reflexivity |].
      rewrite HexQtyToUint64_0x. now apply ParseUint_FormatUint16. }
    pose proof (Hdec m Hm) as Hdm. rewrite Heq, (Hdec n Hn) in Hdm.
    now injection Hdm.
Qed.

Lemma Uint64ToHexQty_shape_witness :
  exists ds,
    utils.Uint64ToHexQty 18446744073709551615 = ("0x" +:+ ds)%string
    /\ String.length ds = 16%nat.
Proof.
  destruct (Uint64ToHexQty_shape 18446744073709551615) as [(ds & Hds & _) _].
  - unfold uint64.valid, uint64.modulus. lia.
  - exists ds. split; [exact Hds |].
    vm_compute in Hds. injection Hds as <-. reflexivity.
Defined.

(** X19.  What [HexQtyToUint64] computes.  For a non-empty string of
    hexadecimal digits of either case (leading zeros allowed) after [0x]
    or [0X], and for a non-empty string of decimal digits without
    prefix, the result is the number the digits denote with a nil
    error, when that number is below [2^64]; otherwise the result is
    [2^64 - 1] with the range error.  Hence a string without prefix is
    read in base ten. *)
Theorem HexQtyToUint64_value (ds : string) (v : Z) :
  ds <> EmptyString ->
  (digits_value 16 0 ds = Some v ->
   utils.HexQtyToUint64 ("0x" +:+ ds) = parsed v
   /\ utils.HexQtyToUint64 ("0X" +:+ ds) = parsed v)
  /\ (digits_value 10 0 ds = Some v -> utils.HexQtyToUint64 ds = parsed v).
Proof.
  intros Hne. split.
  - intros Hv. rewrite HexQtyToUint64_0x, HexQtyToUint64_0X.
    split; apply ParseUint_value; solve [lia | assumption].
  - intros Hv. rewrite (HexQtyToUint64_decimal ds v Hv).
    apply ParseUint_value; solve [lia | assumption].
Qed.

Lemma HexQtyToUint64_value_witness :
  utils.HexQtyToUint64 "0x00Ff" = (255, None)
  /\ utils.HexQtyToUint64 "0x10000000000000000"
     = (uint64.max, Some strconv.ErrRange)
  /\ utils.HexQtyToUint64 "18446744073709551616"
     = (uint64.max, Some strconv.ErrRange).
Proof.
  split; [| split].
  - apply (HexQtyToUint64_value "00Ff" 255); [discriminate | reflexivity].
  - apply (HexQtyToUint64_value "10000000000000000" (2 ^ 64));
      [discriminate | reflexivity].
  - apply (HexQtyToUint64_value "18446744073709551616" (2 ^ 64));
      [discriminate | reflexivity].
Defined.

(** ** Topics: spaces and digits *)

Section TopicsMore.

Import topics.

Variable Keccak256 : list Byte.byte -> list Byte.byte.

Lemma remove_spaces_unspaced (s : string) :
  list_ascii_of_string (remove_spaces s) = unspaced s.
Proof.
  unfold unspaced. induction s as [| ch s IH]; [reflexivity |].
  cbn [remove_spaces list_ascii_of_string List.filter].
  destruct (Ascii.eqb ch " "); cbn [negb list_ascii_of_string]; now rewrite IH.
Qed.

Lemma unspaced_app (a b : string) :
  unspaced (a +:+ b) = unspaced a ++ unspaced b.
Proof. unfold unspaced. now rewrite append_chars, List.filter_app. Qed.

Lemma hexchar_lower_hex (b : Byte.byte) :
  lower_hex (hexchar (Z.shiftr (Z.of_N (Byte.to_N b)) 4))
  && lower_hex (hexchar (Z.land (Z.of_N (Byte.to_N b)) 15)) = true.
Proof. destruct b; vm_compute; reflexivity. Qed.

Lemma EncodeToString_lower_hex (src : list Byte.byte) :
  forallb lower_hex (list_ascii_of_string (EncodeToString src)) = true.
Proof.
  induction src as [| b src IH]; [reflexivity |].
  cbn [EncodeToString list_ascii_of_string forallb].
  rewrite IH, andb_true_r. apply hexchar_lower_hex.
Qed.

End TopicsMore.

(** X20.  Spaces in a signature do not count.  Two signatures with the
    same characters other than spaces, in the same order, have the same
    topic under [FunctionSignatureToTopic], whatever the hash function;
    in particular a space put anywhere into a signature leaves its topic
    unchanged. *)
Theorem FunctionSignatureToTopic_spaces
        (Keccak256 : list Byte.byte -> list Byte.byte) (s1 s2 : string) :
  unspaced s1 = unspaced s2 ->
  topics.FunctionSignatureToTopic Keccak256 s1
  = topics.FunctionSignatureToTopic Keccak256 s2
  /\ forall a b,
      topics.FunctionSignatureToTopic Keccak256 (a +:+ " " +:+ b)
      = topics.FunctionSignatureToTopic Keccak256 (a +:+ b).
Proof.
  assert (Hsame : forall x y, unspaced x = unspaced y ->
                              topics.remove_spaces x = topics.remove_spaces y).
  { intros x y Hxy. rewrite <- !remove_spaces_unspaced in Hxy.
    rewrite <- (string_of_list_ascii_of_string (topics.remove_spaces x)).
    rewrite <- (string_of_list_ascii_of_string (topics.remove_spaces y)).
    now rewrite Hxy. }
  intros Heq. unfold topics.FunctionSignatureToTopic. split.
  - now rewrite (Hsame s1 s2 Heq).
  - intros a b. rewrite (Hsame (a +:+ " " +:+ b)%string (a +:+ b)%string);
      [reflexivity |].
    now rewrite !unspaced_app.
Qed.

Lemma FunctionSignatureToTopic_spaces_witness :
  topics.FunctionSignatureToTopic zero_digest "Transfer(address, address, uint256)"
  = topics.FunctionSignatureToTopic zero_digest "Transfer(address,address,uint256)".
Proof.
  apply (FunctionSignatureToTopic_spaces zero_digest
           "Transfer(address, address, uint256)"
           "Transfer(address,address,uint256)").
  vm_compute. reflexivity.
Defined.

(** X21.  The digits of a converted topic.  With a hash of 32 bytes,
    [ConvertToTopics] returns as many topics as it is given signatures;
    a signature whose length is neither 64 nor 66 becomes [0x] followed
    by exactly 64 lower-case hexadecimal digits; a signature of 64 bytes
    that does not start with [0x] is not hashed and not checked: it is
    returned behind [0x] as it is, whatever its characters. *)
Theorem ConvertToTopics_digits
        (Keccak256 : list Byte.byte -> list Byte.byte) (l : list string) :
  (forall data, length (Keccak256 data) = 32%nat) ->
  length (topics.ConvertToTopics Keccak256 l) = length l
  /\ (forall i s, l !! i = Some s ->
        String.length s <> 64%nat -> String.length s <> 66%nat ->
        exists ds,
          topics.ConvertToTopics Keccak256 l !! i = Some ("0x" +:+ ds)%string
          /\ String.length ds = 64%nat
          /\ forallb lower_hex (list_ascii_of_string ds) = true)
  /\ (forall i s, l !! i = Some s ->
        String.length s = 64%nat -> String.prefix "0x" s = false ->
        topics.ConvertToTopics Keccak256 l !! i = Some ("0x" +:+ s)%string).
Proof.
  intros Hsize. unfold topics.ConvertToTopics.
  split; [apply length_map |]. split.
  - intros i s Hi H64 H66.
    exists (topics.EncodeToString
              (Keccak256 (list_byte_of_string (topics.remove_spaces s)))).
    split; [| split].
    + change (@List.map string string) with (@fmap list _ string string).
      rewrite list_lookup_fmap, Hi. cbn [fmap option_fmap option_map].
      unfold topics.convert.
      destruct (Nat.eqb_spec (String.length s) 66); [contradiction |].
      destruct (Nat.eqb_spec (String.length s) 64); [contradiction |].
      reflexivity.
    + now rewrite EncodeToString_length, Hsize.
    + apply EncodeToString_lower_hex.
  - intros i s Hi H64 Hpre.
    change (@List.map string string) with (@fmap list _ string string).
    rewrite list_lookup_fmap, Hi. cbn [fmap option_fmap option_map].
    unfold topics.convert. rewrite H64, Hpre. reflexivity.
Qed.

Lemma ConvertToTopics_digits_witness :
  length (topics.ConvertToTopics zero_digest sample_topics) = 3%nat.
Proof.
  apply (ConvertToTopics_digits zero_digest sample_topics).
  intros data. reflexivity.
Defined.

(** ** Decoder: fixed-size words *)

Section DecoderMore.

Lemma slice_from_app (pad a : string) :
  decoder.slice_from (String.length pad) (pad +:+ a) = a.
Proof.
  unfold decoder.slice_from. rewrite append_length.
  replace (String.length pad + String.length a - String.length pad)%nat
    with (String.length a) by lia.
  induction pad as [| ch pad IH]; [apply substring_all |].
  exact IH.
Qed.

End DecoderMore.

(** X22.  An address word.  [decodeAddress] accepts exactly the inputs
    of 64 bytes; of such an input it returns the last 40 bytes behind
    [0x], a string of 42 bytes, and never looks at the 24 bytes of
    padding nor checks that any byte is a hexadecimal digit. *)
Theorem decodeAddress_word (pad a : string) :
  String.length pad = 24%nat -> String.length a = 40%nat ->
  decoder.decodeAddress (pad +:+ a) = (("0x" +:+ a)%string, None)
  /\ String.length (decoder.decodeAddress (pad +:+ a)).1 = 42%nat
  /\ forall s, (decoder.decodeAddress s).2 = None <-> String.length s = 64%nat.
Proof.
  intros Hpad Ha.
  assert (Hword : decoder.decodeAddress (pad +:+ a) = (("0x" +:+ a)%string, None)).
  { unfold decoder.decodeAddress. rewrite append_length, Hpad, Ha.
    cbn [Nat.add Nat.eqb negb]. rewrite <- Hpad at 1.
    now rewrite slice_from_app. }
  split; [exact Hword |]. split.
  - rewrite Hword. cbn [fst]. rewrite prefixed_length, Ha. reflexivity.
  - intros s. unfold decoder.decodeAddress.
    destruct (Nat.eqb_spec (String.length s) 64) as [H64 | H64]; cbn [negb snd].
    + tauto.
    + split; [discriminate | contradiction].
Qed.

Lemma decodeAddress_word_witness :
  decoder.decodeAddress
    "000000000000000000000000a0b86991c6218b36c1d19d4a2e9eb0ce3606eb48"
  = ("0xa0b86991c6218b36c1d19d4a2e9eb0ce3606eb48"%string, None).
Proof.
  apply (decodeAddress_word "000000000000000000000000"
           "a0b86991c6218b36c1d19d4a2e9eb0ce3606eb48"); reflexivity.
Defined.

(** X23.  A boolean word.  Of an input of 64 bytes [decodeBool] reads
    the last two only: [01] gives true and [00] gives false, whatever
    the 62 bytes before them, and any other last byte gives an error
    with the value false; an input of another length is an error. *)
Theorem decodeBool_word (pad last : string) :
  String.length pad = 62%nat -> String.length last = 2%nat ->
  decoder.decodeBool (pad +:+ last)
  = (if String.eqb last "00" then (false, None)
     else if String.eqb last "01" then (true, None)
     else (false, Some (decoder.invalid_bool last)))
  /\ forall s, String.length s <> 64%nat ->
               exists e, decoder.decodeBool s = (false, Some e).
Proof.
  intros Hpad Hlast. split.
  - unfold decoder.decodeBool. rewrite append_length, Hpad, Hlast.
    cbn [Nat.add Nat.eqb negb].
    replace (64 - 2)%nat with (String.length pad) by lia.
    rewrite slice_from_app. reflexivity.
  - intros s Hs. unfold decoder.decodeBool.
    destruct (Nat.eqb_spec (String.length s) 64) as [H64 | H64];
      [contradiction |].
    cbn [negb]. eexists. reflexivity.
Qed.

Lemma decodeBool_word_witness :
  decoder.decodeBool
    "ffffffffffffffffffffffffffffffffffffffffffffffffffffffffffffff01"
  = (true, None).
Proof.
  apply (decodeBool_word
           "ffffffffffffffffffffffffffffffffffffffffffffffffffffffffffffff"
           "01"); reflexivity.
Defined.
